(** * shellgramm2: scheduled delivery engine of [main.py]

    A shallow embedding of the time parser, the delivery facade, the job
    scheduler and the forum topic paginator of [src/main.py], with the
    properties of the design document stated and proved over it, followed by
    the conversation list, the tree handlers and the settings file, with
    properties read off the code.

    Conventions of the embedding.
    - Python [int] is [Z]; [str] is [string], one [ascii] per code point
      (the model covers code points 0..255).
    - An exception is a value of [exn]; code that may raise returns
      [result A]. [try]/[except] is a [match] on the result.
    - Calls to the outside (the messaging client, the clock, the asyncio
      scheduler) are explicit: what they answer is an argument, what the code
      asks of them is recorded in the returned state.
    - The interface library reads every text handed to the status bar or
      to the tree as markup and raises [MarkupError] on a text it cannot
      read; which texts it accepts is an argument as well. *)

From Stdlib Require Import ZArith List String Ascii Bool Lia.
From Stdlib Require Import DecimalString.
From Stdlib Require Import Sorted Permutation.
Import ListNotations.

Local Open Scope list_scope.
Local Open Scope Z_scope.

(** ** Exceptions *)

Module Py.

(** The exception classes the modelled code can meet. [CancelledError]
    derives from [BaseException] only; the others derive from [Exception]. *)
Inductive exn : Type :=
| ValueError
| OverflowError
| CancelledError
| OtherError (name : string).

Definition is_Exception (e : exn) : bool :=
  match e with
  | CancelledError => false
  | _ => true
  end.

Inductive result (A : Type) : Type :=
| Ok (a : A)
| Raise (e : exn).

Arguments Ok {A} a.
Arguments Raise {A} e.

Definition bind {A B : Type} (c : result A) (k : A -> result B) : result B :=
  match c with
  | Ok a => k a
  | Raise e => Raise e
  end.

End Py.

Import Py.

Notation "x <- c ;; k" := (Py.bind c (fun x => k))
  (at level 61, c at next level, right associativity).

(** ** Text *)

Module Text.

Definition code (c : ascii) : Z := Z.of_N (N_of_ascii c).

Definition in_range (lo hi : Z) (c : ascii) : bool :=
  (lo <=? code c) && (code c <=? hi).

(** [str.isspace] on one code point below 256: TAB..CR, FS..US, SPACE,
    NEL and NBSP. *)
Definition is_space (c : ascii) : bool :=
  in_range 9 13 c || in_range 28 32 c || (code c =? 133) || (code c =? 160).

Definition is_digit (c : ascii) : bool := in_range 48 57 c.

Definition is_empty (s : string) : bool :=
  match s with
  | EmptyString => true
  | String _ _ => false
  end.

Fixpoint lstrip (s : string) : string :=
  match s with
  | EmptyString => EmptyString
  | String c r => if is_space c then lstrip r else s
  end.

Fixpoint rstrip (s : string) : string :=
  match s with
  | EmptyString => EmptyString
  | String c r =>
      let r' := rstrip r in
      if is_space c && is_empty r' then EmptyString else String c r'
  end.

(** [s.strip()] *)
Definition strip (s : string) : string := rstrip (lstrip s).

(** [c in s] for a one-character [c]. *)
Fixpoint contains (c : ascii) (s : string) : bool :=
  match s with
  | EmptyString => false
  | String d r => Ascii.eqb c d || contains c r
  end.

(** [s.split(sep)] for a one-character separator: always at least one
    part, one more part than there are separators. *)
Fixpoint split (sep : ascii) (s : string) : list string :=
  match s with
  | EmptyString => [EmptyString]
  | String c r =>
      if Ascii.eqb c sep then EmptyString :: split sep r
      else
        match split sep r with
        | p :: ps => String c p :: ps
        | [] => [String c EmptyString]
        end
  end.

(** Digits of a decimal literal, with the single underscores Python allows
    between two digits. [seen] tells whether the previous character was a
    digit. *)
Fixpoint int_digits (s : string) (acc : Z) (seen : bool) : option Z :=
  match s with
  | EmptyString => if seen then Some acc else None
  | String c r =>
      if is_digit c then int_digits r (10 * acc + (code c - 48)) true
      else if Ascii.eqb c "_"%char && seen then int_digits r acc false
      else None
  end.

(** The white space [int()] skips around a number: the C white space
    TAB..CR and SPACE, and NEL and NBSP, which it first turns into a space.
    FS..US are white space to [str.strip] but not to [int()]. *)
Definition is_int_space (c : ascii) : bool :=
  in_range 9 13 c || (code c =? 32) || (code c =? 133) || (code c =? 160).

Fixpoint int_lstrip (s : string) : string :=
  match s with
  | EmptyString => EmptyString
  | String c r => if is_int_space c then int_lstrip r else s
  end.

Fixpoint int_rstrip (s : string) : string :=
  match s with
  | EmptyString => EmptyString
  | String c r =>
      let r' := int_rstrip r in
      if is_int_space c && is_empty r' then EmptyString else String c r'
  end.

Definition int_strip (s : string) : string := int_rstrip (int_lstrip s).

(** [int(s)]: surrounding white space, an optional sign, decimal digits. *)
Definition py_int (s : string) : result Z :=
  let t := int_strip s in
  let signed :=
    match t with
    | String c r =>
        if Ascii.eqb c "-" then option_map Z.opp (int_digits r 0 false)
        else if Ascii.eqb c "+" then int_digits r 0 false
        else int_digits t 0 false
    | EmptyString => None
    end in
  match signed with
  | Some n => Ok n
  | None => Raise ValueError
  end.

(** [str.lower] on one code point below 256: A..Z and the capital letters
    of 192..222 (all but the multiplication sign, 215) move up by 32. *)
Definition lower_char (c : ascii) : ascii :=
  if in_range 65 90 c || in_range 192 214 c || in_range 216 222 c
  then ascii_of_N (N_of_ascii c + 32) else c.

Fixpoint lower (s : string) : string :=
  match s with
  | EmptyString => EmptyString
  | String c r => String (lower_char c) (lower r)
  end.

End Text.

(** ** Dates and times *)

Module DT.

Record date : Type := mkDate { d_year : Z; d_month : Z; d_day : Z }.

(** A naive [datetime.datetime]. *)
Record datetime : Type := mkDT {
  year : Z; month : Z; day : Z;
  hour : Z; minute : Z; second : Z; microsecond : Z
}.

Definition is_leap (y : Z) : bool :=
  (y mod 4 =? 0) && (negb (y mod 100 =? 0) || (y mod 400 =? 0)).

Definition days_in_month (y m : Z) : Z :=
  if m =? 2 then (if is_leap y then 29 else 28)
  else if (m =? 4) || (m =? 6) || (m =? 9) || (m =? 11) then 30
  else 31.

Definition valid_date (y m d : Z) : bool :=
  (1 <=? y) && (y <=? 9999) && (1 <=? m) && (m <=? 12) &&
  (1 <=? d) && (d <=? days_in_month y m).

Definition valid_time (hh mm ss us : Z) : bool :=
  (0 <=? hh) && (hh <=? 23) && (0 <=? mm) && (mm <=? 59) &&
  (0 <=? ss) && (ss <=? 59) && (0 <=? us) && (us <=? 999999).

Definition valid (dt : datetime) : bool :=
  valid_date (year dt) (month dt) (day dt) &&
  valid_time (hour dt) (minute dt) (second dt) (microsecond dt).

Definition fits_c_int (n : Z) : bool :=
  (- 2147483648 <=? n) && (n <=? 2147483647).

(** [datetime(y, m, d, hh, mm, ss)]: arguments that do not fit a C int raise
    [OverflowError], arguments out of range raise [ValueError]. *)
Definition datetime_new (y m d hh mm ss : Z) : result datetime :=
  if negb (forallb fits_c_int [y; m; d; hh; mm; ss]) then Raise OverflowError
  else if valid_date y m d && valid_time hh mm ss 0
       then Ok (mkDT y m d hh mm ss 0)
       else Raise ValueError.

(** Comparison of two naive datetimes: field by field, most significant
    first. *)
Fixpoint lex_compare (a b : list Z) : comparison :=
  match a, b with
  | x :: a', y :: b' =>
      match x ?= y with
      | Eq => lex_compare a' b'
      | c => c
      end
  | [], [] => Eq
  | [], _ :: _ => Lt
  | _ :: _, [] => Gt
  end.

Definition fields (dt : datetime) : list Z :=
  [year dt; month dt; day dt; hour dt; minute dt; second dt; microsecond dt].

Definition compare (a b : datetime) : comparison :=
  lex_compare (fields a) (fields b).

(** [a <= b] *)
Definition leb (a b : datetime) : bool :=
  match compare a b with Gt => false | _ => true end.

(** [a > b] *)
Definition gtb (a b : datetime) : bool :=
  match compare a b with Gt => true | _ => false end.

(** Proleptic Gregorian ordinal, [date.toordinal]: 0001-01-01 is day 1. *)
Definition days_before_year (y : Z) : Z :=
  let p := y - 1 in p * 365 + p / 4 - p / 100 + p / 400.

Fixpoint days_before_month_aux (y : Z) (k : nat) : Z :=
  match k with
  | O => 0
  | S k' => days_before_month_aux y k' + days_in_month y (Z.of_nat k)
  end.

Definition days_before_month (y m : Z) : Z :=
  days_before_month_aux y (Z.to_nat (m - 1)).

Definition toordinal (dt : datetime) : Z :=
  days_before_year (year dt) + days_before_month (year dt) (month dt) + day dt.

(** Microseconds since the start of day 0: the integer behind
    [(a - b).total_seconds()]. *)
Definition to_us (dt : datetime) : Z :=
  ((toordinal dt * 86400 + hour dt * 3600 + minute dt * 60 + second dt)
   * 1000000) + microsecond dt.

(** [dt + timedelta(days=1)]: the same time of day on the next calendar
    day; past 9999-12-31 the addition raises [OverflowError]. *)
Definition add_one_day (dt : datetime) : result datetime :=
  let y := year dt in
  let m := month dt in
  let d := day dt in
  let rebuild y' m' d' :=
    mkDT y' m' d' (hour dt) (minute dt) (second dt) (microsecond dt) in
  if d <? days_in_month y m then Ok (rebuild y m (d + 1))
  else if m <? 12 then Ok (rebuild y (m + 1) 1)
  else if y <? 9999 then Ok (rebuild (y + 1) 1 1)
  else Raise OverflowError.

Definition is_last_day (dt : datetime) : bool :=
  (year dt =? 9999) && (month dt =? 12) && (day dt =? 31).

End DT.

Import Text.

(** ** TimeTextParser: [parse_datetime] *)

Module Strptime.

(** The pieces of a [strptime] format: a directive, a literal character or
    a run of white space. The two formats of [parse_datetime] are lists of
    such pieces. *)
Inductive item : Type :=
| DirY | Dirm | Dird | DirH | DirM
| Lit (c : ascii)
| Spaces.

(** One alternative of a directive's regular expression: a sequence of
    character classes, each matching exactly one character. *)
Definition alt : Type := list (ascii -> bool).

(** The classes [\d], [[lo-hi]] and a single character. *)
Definition digit : ascii -> bool := is_digit.
Definition cls (lo hi : ascii) (c : ascii) : bool :=
  in_range (code lo) (code hi) c.
Definition chr (x : ascii) (c : ascii) : bool := cls x x c.

(** The alternatives of each directive, in the order the library's regular
    expression tries them:
    [%Y] is [\d\d\d\d], [%m] is [1[0-2]|0[1-9]|[1-9]],
    [%d] is [3[01]|[12]\d|0[1-9]|[1-9]| [1-9]],
    [%H] is [2[0-3]|[0-1]\d|\d] and [%M] is [[0-5]\d|\d]. *)
Definition alts (i : item) : list alt :=
  match i with
  | DirY => [[digit; digit; digit; digit]]
  | Dirm => [[chr "1"; cls "0" "2"]; [chr "0"; cls "1" "9"]; [cls "1" "9"]]
  | Dird => [[chr "3"; cls "0" "1"]; [cls "1" "2"; digit];
             [chr "0"; cls "1" "9"]; [cls "1" "9"]; [chr " "; cls "1" "9"]]
  | DirH => [[chr "2"; cls "0" "3"]; [cls "0" "1"; digit]; [digit]]
  | DirM => [[cls "0" "5"; digit]; [digit]]
  | Lit c => [[Ascii.eqb c]]
  | Spaces => []
  end.

(** Match one alternative at the head of [s]: the matched text and the
    rest. *)
Fixpoint match_alt (a : alt) (s : string) : option (string * string) :=
  match a with
  | [] => Some (EmptyString, s)
  | p :: a' =>
      match s with
      | String c r =>
          if p c then
            match match_alt a' r with
            | Some (m, rest) => Some (String c m, rest)
            | None => None
            end
          else None
      | EmptyString => None
      end
  end.

(** The values found so far, by directive. *)
Record found : Type := mkFound {
  fY : string; fm : string; fd : string; fH : string; fM : string
}.

Definition store (i : item) (txt : string) (f : found) : found :=
  match i with
  | DirY => mkFound txt (fm f) (fd f) (fH f) (fM f)
  | Dirm => mkFound (fY f) txt (fd f) (fH f) (fM f)
  | Dird => mkFound (fY f) (fm f) txt (fH f) (fM f)
  | DirH => mkFound (fY f) (fm f) (fd f) txt (fM f)
  | DirM => mkFound (fY f) (fm f) (fd f) (fH f) txt
  | _ => f
  end.

(** The suffixes left after a greedy white-space run [\s+]: longest run
    first, then each shorter one, at least one character each. *)
Fixpoint space_rests (s : string) : list string :=
  match s with
  | String c r => if is_space c then space_rests r ++ [r] else []
  | EmptyString => []
  end.

Fixpoint first_some {A B : Type} (f : A -> option B) (l : list A) : option B :=
  match l with
  | [] => None
  | x :: l' =>
      match f x with
      | Some y => Some y
      | None => first_some f l'
      end
  end.

(** Backtracking match of a format against the head of [s], as [re.match]
    does: the first way through the alternatives that matches every item;
    the result is the values found and the unmatched rest. *)
Fixpoint match_items (fmt : list item) (s : string) (f : found)
  : option (found * string) :=
  match fmt with
  | [] => Some (f, s)
  | Spaces :: fmt' =>
      first_some (fun rest => match_items fmt' rest f) (space_rests s)
  | i :: fmt' =>
      first_some
        (fun a =>
           match match_alt a s with
           | Some (txt, rest) => match_items fmt' rest (store i txt f)
           | None => None
           end)
        (alts i)
  end.

Definition no_fields : found :=
  mkFound EmptyString EmptyString EmptyString EmptyString EmptyString.

(** ["%Y-%m-%d %H:%M"] *)
Definition fmt_iso : list item :=
  [DirY; Lit "-"; Dirm; Lit "-"; Dird; Spaces; DirH; Lit ":"; DirM].

(** ["%d.%m.%Y %H:%M"] *)
Definition fmt_dotted : list item :=
  [Dird; Lit "."; Dirm; Lit "."; DirY; Spaces; DirH; Lit ":"; DirM].

(** [datetime.strptime(s, fmt)] for a format made of the five numeric
    directives: no match, unconverted data after the match, and a date
    that does not exist all raise [ValueError]. *)
Definition strptime (s : string) (fmt : list item) : result DT.datetime :=
  match match_items fmt s no_fields with
  | None => Raise ValueError
  | Some (f, rest) =>
      if negb (is_empty rest) then Raise ValueError
      else
        y <- py_int (fY f) ;;
        m <- py_int (fm f) ;;
        d <- py_int (fd f) ;;
        hh <- py_int (fH f) ;;
        mi <- py_int (fM f) ;;
        DT.datetime_new y m d hh mi 0
  end.

End Strptime.

(** The two time-only grammars of [parse_datetime], the body of its [try]
    block. [Ok None] stands for leaving the block without a [return]. *)
Definition parse_time_only (today : DT.date) (s : string)
  : result (option DT.datetime) :=
  let parts := split ":" s in
  match parts with
  | [hh; mm] =>
      hh_i <- py_int hh ;;
      mm_i <- py_int mm ;;
      dt <- DT.datetime_new (DT.d_year today) (DT.d_month today)
              (DT.d_day today) hh_i mm_i 0 ;;
      Ok (Some dt)
  | [hh; mm; ss] =>
      if negb (contains " " s) then
        hh_i <- py_int hh ;;
        mm_i <- py_int mm ;;
        ss_i <- py_int ss ;;
        dt <- DT.datetime_new (DT.d_year today) (DT.d_month today)
                (DT.d_day today) hh_i mm_i ss_i ;;
        Ok (Some dt)
      else Ok None
  | _ => Ok None
  end.

(** The [for fmt in (...)] loop over the formats with a date: the first
    format that parses wins, a [ValueError] moves on to the next one. *)
Fixpoint parse_dated (s : string) (fmts : list (list Strptime.item))
  : result (option DT.datetime) :=
  match fmts with
  | [] => Ok None
  | fmt :: fmts' =>
      match Strptime.strptime s fmt with
      | Ok dt => Ok (Some dt)
      | Raise ValueError => parse_dated s fmts'
      | Raise e => Raise e
      end
  end.

(** [parse_datetime(user_text)]; [today] is what [date.today()] answers. *)
Definition parse_datetime (today : DT.date) (user_text : string)
  : result (option DT.datetime) :=
  let s := strip user_text in
  let dated := parse_dated s [Strptime.fmt_iso; Strptime.fmt_dotted] in
  match parse_time_only today s with
  | Ok (Some dt) => Ok (Some dt)
  | Ok None => dated
  | Raise e => if is_Exception e then dated else Raise e
  end.

(** ** Data model *)

(** [raw_entity] is an opaque handle of the messaging client. *)
Definition Entity : Type := Z.

Record DialogInfo : Type := mkDialog {
  dialog_id : Z;
  dialog_title : string;
  dialog_kind : string;
  dialog_is_forum : bool;
  raw_entity : Entity
}.

Record TopicInfo : Type := mkTopic {
  topic_id_of : Z;
  title : string;
  unread_count : Z;
  pinned : bool;
  closed : bool
}.

Record SendTarget : Type := mkTarget {
  dialog : DialogInfo;
  topic_id : option Z;
  topic_title : option string
}.

Record ScheduledJob : Type := mkJob {
  target : SendTarget;
  text : string;
  when : DT.datetime
}.

(** Truth value of an [Optional[int]]: [None] and [0] are false. *)
Definition truthy_int (x : option Z) : bool :=
  match x with
  | Some n => negb (n =? 0)
  | None => false
  end.

(** Truth value of an [Optional[str]]: [None] and the empty string are
    false. *)
Definition truthy_str (x : option string) : bool :=
  match x with
  | Some s => negb (is_empty s)
  | None => false
  end.

(** [x != 1] for an [Optional[int]]. *)
Definition differs_from_1 (x : option Z) : bool :=
  match x with
  | Some n => negb (n =? 1)
  | None => true
  end.

(** The fallback topic name of [label], as the bytes of the source
    literal. *)
Definition default_topic_title : string := "Тема".

(** [SendTarget.label] *)
Definition label (t : SendTarget) : string :=
  if truthy_int (topic_id t) && differs_from_1 (topic_id t) then
    (dialog_title (dialog t) ++ " / " ++
     match topic_title t with
     | Some s => if is_empty s then default_topic_title else s
     | None => default_topic_title
     end)%string
  else dialog_title (dialog t).

(** ** DeliveryFacade: [send_text_to_target] *)

(** One call of [client.send_message]; [reply_to] is [None] when the
    keyword argument is not passed. *)
Record SendCall : Type := mkSend {
  to_entity : Entity;
  body : string;
  reply_to : option Z
}.

(** [send_text_to_target(client, target, text)]. [client] tells what each
    [send_message] call does (returns, or raises); the function returns the
    calls it issued, in order, and its own outcome. *)
Definition send_text_to_target (client : SendCall -> result unit)
  (tgt : SendTarget) (txt : string) : list SendCall * result unit :=
  if truthy_int (topic_id tgt) && differs_from_1 (topic_id tgt) then
    let c := mkSend (raw_entity (dialog tgt)) txt (topic_id tgt) in
    ([c], client c)
  else
    let c := mkSend (raw_entity (dialog tgt)) txt None in
    ([c], client c).

(** ** JobScheduler *)

(** What [set_status] is called with. *)
Inductive Status : Type :=
| StatusEmptyText
| StatusBadTime
| StatusScheduled (lbl : string) (due : DT.datetime)
| StatusSendError (lbl : string) (e : exn)
| StatusSent (lbl : string).

(** What [self.log.error] is called with. *)
Inductive LogEntry : Type :=
| LogTaskError (e : exn)
| LogCleanupError (e : exn).

(** An [asyncio.Task] made by [schedule_message_from_ui]: its identity and
    the job its [_run_job] coroutine runs. *)
Record Task : Type := mkTask { task_no : nat; task_job : ScheduledJob }.

(** The mutable state of [TelegramTui] the scheduler touches, with the
    effects it has on its collaborators: the [send_message] calls issued on
    [self.client], the texts the status bar took from [set_status] and every
    [log.error] call, oldest first. [created] counts the tasks made so far
    and numbers the next one. *)
Record App : Type := mkApp {
  jobs : list ScheduledJob;
  job_tasks : list Task;
  client_calls : list SendCall;
  statuses : list Status;
  log : list LogEntry;
  created : nat
}.

Definition show_status (a : App) (s : Status) : App :=
  mkApp (jobs a) (job_tasks a) (client_calls a) (statuses a ++ [s]) (log a)
    (created a).

(** [Static.update] reads its text as markup and raises [MarkupError] on a
    text that is not well formed: a label such as [[/b]x], whose closing tag
    closes nothing, is enough. *)
Definition MarkupError : exn := OtherError "MarkupError".

(** Whether the status bar takes the text of a status. The two fixed texts
    hold no square bracket, hence no tag, and are always taken; a text made
    around a label is left to [bar], which stands for the markup reader. *)
Definition status_accepted (bar : Status -> bool) (s : Status) : bool :=
  match s with
  | StatusEmptyText | StatusBadTime => true
  | StatusScheduled _ _ | StatusSendError _ _ | StatusSent _ => bar s
  end.

(** [set_status(text)] *)
Definition set_status (bar : Status -> bool) (a : App) (s : Status)
  : App * result unit :=
  if status_accepted bar s then (show_status a s, Ok tt)
  else (a, Raise MarkupError).

Definition record_calls (a : App) (cs : list SendCall) : App :=
  mkApp (jobs a) (job_tasks a) (client_calls a ++ cs) (statuses a) (log a)
    (created a).

Definition log_error (a : App) (e : LogEntry) : App :=
  mkApp (jobs a) (job_tasks a) (client_calls a) (statuses a) (log a ++ [e])
    (created a).

(** The test of the time-only rollover: a colon in [when_str], no space
    in it, and [len(when_str.strip()) <= 8]. *)
Definition is_time_only (when_str : string) : bool :=
  contains ":" when_str && negb (contains " " when_str) &&
  (Z.of_nat (String.length (strip when_str)) <=? 8).

(** [schedule_message_from_ui(target, when_str, text)]. [bar] is what the
    status bar accepts, [today] what [date.today()] answers and [clock] what
    [self._corrected_now()] does. The job and its task are appended before
    the status is set. *)
Definition schedule_message_from_ui (bar : Status -> bool) (today : DT.date)
  (clock : result DT.datetime) (a : App)
  (tgt : SendTarget) (when_str txt : string) : App * result unit :=
  let txt := strip txt in
  if is_empty txt then set_status bar a StatusEmptyText
  else
    match parse_datetime today when_str with
    | Raise e => (a, Raise e)
    | Ok None => set_status bar a StatusBadTime
    | Ok (Some w) =>
        match clock with
        | Raise e => (a, Raise e)
        | Ok corrected_now =>
            let rolled :=
              if is_time_only when_str && DT.leb w corrected_now
              then DT.add_one_day w else Ok w in
            match rolled with
            | Raise e => (a, Raise e)
            | Ok w' =>
                let job := mkJob tgt txt w' in
                let task := mkTask (created a) job in
                let a' := mkApp (jobs a ++ [job]) (job_tasks a ++ [task])
                            (client_calls a) (statuses a) (log a)
                            (S (created a)) in
                set_status bar a' (StatusScheduled (label tgt) w')
            end
        end
    end.

(** What the outside does during one run of [_run_job]: the clock reading,
    how the [asyncio.sleep(delay)] ends (it returns, or the unit is cancelled
    and it raises [CancelledError]), what [send_message] does and what the
    status bar accepts. *)
Record JobWorld : Type := mkJobWorld {
  job_clock : result DT.datetime;
  job_sleep : Z -> result unit;
  job_client : SendCall -> result unit;
  job_bar : Status -> bool
}.

(** [_run_job(job)]. The delay is kept in whole microseconds, the integer
    whose quotient by 10^6 is [total_seconds()]; it has the same sign. An
    exception of [set_status], in the handler or after it, leaves the
    coroutine. *)
Definition _run_job (w : JobWorld) (a : App) (job : ScheduledJob)
  : App * result unit :=
  match job_clock w with
  | Raise e => (a, Raise e)
  | Ok now =>
      let delay := DT.to_us (when job) - DT.to_us now in
      let slept := if 0 <? delay then job_sleep w delay else Ok tt in
      match slept with
      | Raise CancelledError => (a, Ok tt)
      | Raise e => (a, Raise e)
      | Ok _ =>
          let '(calls, sent) :=
            send_text_to_target (job_client w) (target job) (text job) in
          let a1 := record_calls a calls in
          match sent with
          | Raise e =>
              if is_Exception e
              then set_status (job_bar w) a1
                     (StatusSendError (label (target job)) e)
              else (a1, Raise e)
          | Ok _ =>
              set_status (job_bar w) a1 (StatusSent (label (target job)))
          end
      end
  end.

(** The state of an execution unit as a sweep finds it: not [done()], or
    done with the outcome [await task] gives (a cancelled unit gives
    [Raise CancelledError]). *)
Inductive TaskState : Type :=
| Pending
| Finished (r : result unit).

(** What the outside does during one sweep: how the interval sleep ends,
    the state of every unit, the clock. *)
Record SweepWorld : Type := mkSweepWorld {
  sweep_sleep : result unit;
  sweep_task : Task -> TaskState;
  sweep_clock : result DT.datetime
}.

(** The [for task in self.job_tasks] loop of one sweep. The log entries are
    written as the loop goes; [active_tasks] is only returned when the loop
    runs to its end. *)
Fixpoint sweep_tasks (st : Task -> TaskState) (tasks active : list Task)
  (lg : list LogEntry) : list LogEntry * result (list Task) :=
  match tasks with
  | [] => (lg, Ok active)
  | t :: tasks' =>
      match st t with
      | Pending => sweep_tasks st tasks' (active ++ [t]) lg
      | Finished (Ok _) => sweep_tasks st tasks' active lg
      | Finished (Raise e) =>
          if is_Exception e
          then sweep_tasks st tasks' active (lg ++ [LogTaskError e])
          else (lg, Raise e)
      end
  end.

(** One iteration of the [while True] of [_cleanup_loop]. *)
Definition sweep (w : SweepWorld) (a : App) : App * result unit :=
  match sweep_sleep w with
  | Raise e => (a, Raise e)
  | Ok _ =>
      match sweep_tasks (sweep_task w) (job_tasks a) [] (log a) with
      | (lg, Raise e) =>
          (mkApp (jobs a) (job_tasks a) (client_calls a) (statuses a) lg
             (created a), Raise e)
      | (lg, Ok active) =>
          let a1 := mkApp (jobs a) active (client_calls a) (statuses a) lg
                      (created a) in
          match sweep_clock w with
          | Raise e => (a1, Raise e)
          | Ok now =>
              (mkApp (filter (fun j => DT.gtb (when j) now) (jobs a1))
                 (job_tasks a1) (client_calls a1) (statuses a1) (log a1)
                 (created a1), Ok tt)
          end
      end
  end.

(** How [_cleanup_loop] stands after the sweeps given to it: still inside
    its [while True], returned, or ended by an exception. *)
Inductive LoopEnd : Type :=
| StillRunning
| Returned
| Raised (e : exn).

(** [_cleanup_loop()], run against the worlds of its successive sweeps. *)
Fixpoint _cleanup_loop (ws : list SweepWorld) (a : App) : App * LoopEnd :=
  match ws with
  | [] => (a, StillRunning)
  | w :: ws' =>
      match sweep w a with
      | (a', Ok _) => _cleanup_loop ws' a'
      | (a', Raise CancelledError) => (a', Returned)
      | (a', Raise e) =>
          if is_Exception e
          then (log_error a' (LogCleanupError e), Raised e)
          else (a', Raised e)
      end
  end.

(** ** TopicPaginator: [get_all_forum_topics] *)

(** A topic object of a result page, attribute by attribute; [None] is an
    attribute that is absent or holds [None]. *)
Record RawTopic : Type := mkRawTopic {
  rt_id : option Z;
  rt_title : option string;
  rt_top_message : option Z;
  rt_unread_count : option Z;
  rt_pinned : option bool;
  rt_closed : option bool
}.

(** A message object of a result page; [rm_date] is [None] unless the
    attribute holds a [datetime]. *)
Record RawMessage : Type := mkRawMessage {
  rm_id : option Z;
  rm_date : option DT.datetime
}.

(** [GetForumTopicsRequest(peer, offset_date, offset_id, offset_topic,
    limit)] *)
Record Request : Type := mkRequest {
  req_peer : Entity;
  req_offset_date : option DT.datetime;
  req_offset_id : Z;
  req_offset_topic : Z;
  req_limit : Z
}.

Record Response : Type := mkResponse {
  res_topics : list RawTopic;
  res_messages : list RawMessage
}.

(** The three cursor variables of the loop. *)
Record Cursor : Type := mkCursor {
  offset_date : option DT.datetime;
  offset_id : Z;
  offset_topic : Z
}.

Definition initial_cursor : Cursor := mkCursor None 0 0.

(** [int(getattr(x, name, 0) or 0)] *)
Definition int_or_0 (x : option Z) : Z :=
  match x with
  | Some n => n
  | None => 0
  end.

(** [bool(getattr(x, name, False))] *)
Definition bool_or_false (x : option bool) : bool :=
  match x with
  | Some b => b
  | None => false
  end.

(** The [for t in topics] loop: one [TopicInfo] per topic whose title is
    neither absent nor empty. *)
Fixpoint collect (topics : list RawTopic) : list TopicInfo :=
  match topics with
  | [] => []
  | t :: topics' =>
      if truthy_str (rt_title t) then
        mkTopic (int_or_0 (rt_id t))
          (match rt_title t with Some s => s | None => EmptyString end)
          (int_or_0 (rt_unread_count t))
          (bool_or_false (rt_pinned t))
          (bool_or_false (rt_closed t))
        :: collect topics'
      else collect topics'
  end.

(** The [for m in messages] loop: the date of the first message whose id is
    [offset_id]; the loop breaks there. *)
Fixpoint last_msg_date (messages : list RawMessage) (oid : Z)
  : option DT.datetime :=
  match messages with
  | [] => None
  | m :: messages' =>
      match rm_id m with
      | Some i => if i =? oid then rm_date m else last_msg_date messages' oid
      | None => last_msg_date messages' oid
      end
  end.

(** [topics[-1]] of a list known to be non-empty. *)
Definition last_topic (topics : list RawTopic) : RawTopic :=
  List.last topics (mkRawTopic None None None None None None).

(** How one iteration of the [while True] ends: a [break], or the cursor of
    the next iteration; both with [all_topics] as it then stands. *)
Inductive PageStep : Type :=
| Break (all_topics : list TopicInfo)
| Continue (c : Cursor) (all_topics : list TopicInfo).

(** The body of the loop after the page has come back. *)
Definition process_page (limit : Z) (res : Response)
  (all_topics : list TopicInfo) : PageStep :=
  let topics := res_topics res in
  match topics with
  | [] => Break all_topics
  | _ :: _ =>
      let all_topics := all_topics ++ collect topics in
      if Z.of_nat (List.length topics) <? limit then Break all_topics
      else
        let last := last_topic topics in
        let o_topic := int_or_0 (rt_id last) in
        let o_id := int_or_0 (rt_top_message last) in
        Continue (mkCursor (last_msg_date (res_messages res) o_id) o_id o_topic)
          all_topics
  end.

(** The sort key [(not x.pinned, x.title.lower())] and its order: [False]
    before [True], then the strings code point by code point. *)
Definition sort_key (x : TopicInfo) : bool * string :=
  (negb (pinned x), lower (title x)).

Definition key_ltb (a b : bool * string) : bool :=
  match fst a, fst b with
  | false, true => true
  | true, false => false
  | _, _ => String.ltb (snd a) (snd b)
  end.

(** [list.sort(key=...)] is stable: an element goes after every element
    already placed that is not greater. *)
Fixpoint insert_sorted (x : TopicInfo) (l : list TopicInfo) : list TopicInfo :=
  match l with
  | [] => [x]
  | y :: l' =>
      if key_ltb (sort_key x) (sort_key y) then x :: l
      else y :: insert_sorted x l'
  end.

Definition sort_topics (l : list TopicInfo) : list TopicInfo :=
  fold_left (fun acc x => insert_sorted x acc) l [].

(** How a call of [get_all_forum_topics] ends. [OutOfFuel] is a run cut
    short by the bound on the number of iterations, not an end of the
    function. *)
Inductive Outcome : Type :=
| Returns (topics : list TopicInfo)
| Raises (e : exn)
| OutOfFuel.

(** One round-trip: the request and what came back. *)
Definition Exchange : Type := (Request * result Response)%type.

Section Paginator.

(** The paged topic-listing capability behind [await client(request)]: a
    state of its own and an answer to each request. *)
Variable Server : Type.
Variable call : Server -> Request -> Server * result Response.

Variable peer : Entity.
Variable limit : Z.

(** The request built from the cursor variables. *)
Definition request_of (c : Cursor) : Request :=
  mkRequest peer (offset_date c) (offset_id c) (offset_topic c) limit.

(** The [while True] loop, at most [fuel] iterations. The exchanges made
    are returned with the outcome, oldest first. *)
Fixpoint fetch_loop (fuel : nat) (srv : Server) (c : Cursor)
  (all_topics : list TopicInfo) (done : list Exchange)
  : Server * list Exchange * Outcome :=
  match fuel with
  | O => (srv, done, OutOfFuel)
  | S fuel' =>
      let rq := request_of c in
      match call srv rq with
      | (srv', Raise e) => (srv', done ++ [(rq, Raise e)], Raises e)
      | (srv', Ok res) =>
          let done' := done ++ [(rq, Ok res)] in
          match process_page limit res all_topics with
          | Break all' => (srv', done', Returns (sort_topics all'))
          | Continue c' all' => fetch_loop fuel' srv' c' all' done'
          end
      end
  end.

(** [get_all_forum_topics(client, peer, limit)] *)
Definition get_all_forum_topics (fuel : nat) (srv : Server)
  : Server * list Exchange * Outcome :=
  fetch_loop fuel srv initial_cursor [] [].

End Paginator.

(** The exchanges, the number of round-trips and the outcome of a run. *)
Definition exchanges {S : Type} (r : S * list Exchange * Outcome)
  : list Exchange := snd (fst r).
Definition round_trips {S : Type} (r : S * list Exchange * Outcome) : nat :=
  List.length (exchanges r).
Definition outcome {S : Type} (r : S * list Exchange * Outcome) : Outcome :=
  snd r.

(** Every topic object that came back in the exchanges, in order. *)
Fixpoint fetched (xs : list Exchange) : list RawTopic :=
  match xs with
  | [] => []
  | (_, Ok res) :: xs' => res_topics res ++ fetched xs'
  | (_, Raise _) :: xs' => fetched xs'
  end.

(** *** A forum served page by page

    A model of the external listing capability for a forum that holds the
    topics [forum], in the order it lists them: a request is answered with the
    topics that follow the topic whose id is [offset_topic] (from the start
    when [offset_topic] is 0), at most [limit] of them, and with the messages
    of [messages] that are top messages of the page. *)
Fixpoint after_topic (id : Z) (forum : list RawTopic) : list RawTopic :=
  match forum with
  | [] => []
  | t :: forum' =>
      match rt_id t with
      | Some i => if i =? id then forum' else after_topic id forum'
      | None => after_topic id forum'
      end
  end.

Definition is_top_message (page : list RawTopic) (m : RawMessage) : bool :=
  match rm_id m with
  | Some i =>
      existsb (fun t => match rt_top_message t with
                        | Some j => i =? j
                        | None => false
                        end) page
  | None => false
  end.

Definition forum_page (forum : list RawTopic) (messages : list RawMessage)
  (rq : Request) : Response :=
  let rest := if req_offset_topic rq =? 0 then forum
              else after_topic (req_offset_topic rq) forum in
  let page := firstn (Z.to_nat (req_limit rq)) rest in
  mkResponse page (filter (is_top_message page) messages).

Definition forum_server (forum : list RawTopic) (messages : list RawMessage)
  (srv : unit) (rq : Request) : unit * result Response :=
  (srv, Ok (forum_page forum messages rq)).

(** The forum is well formed: every topic has an id, no id is 0 and no two
    topics share one. *)
Definition forum_ok (forum : list RawTopic) : Prop :=
  (forall t, In t forum -> exists i, rt_id t = Some i /\ i <> 0) /\
  NoDup (map rt_id forum).

(** ** Texts of the form HH:MM *)

Definition digit_char (n : Z) : ascii := ascii_of_N (Z.to_N (48 + n)).

(** The two-digit, zero-padded decimal text of a number below 100. *)
Definition two_digits (n : Z) : string :=
  String (digit_char (n / 10)) (String (digit_char (n mod 10)) EmptyString).

Definition hhmm (h m : Z) : string :=
  (two_digits h ++ ":" ++ two_digits m)%string.

Definition upto100 : list Z := map Z.of_nat (seq 0 100).

Definition dated_formats : list (list Strptime.item) :=
  [Strptime.fmt_iso; Strptime.fmt_dotted].

(** The facts about one text HH:MM that do not depend on the day: stripping
    leaves it alone, it splits into its two fields, each field reads back as
    its number, and neither format with a date accepts it. *)
Definition hhmm_shape (h m : Z) : bool :=
  String.eqb (strip (hhmm h m)) (hhmm h m) &&
  match split ":" (hhmm h m) with
  | [a; b] => String.eqb a (two_digits h) && String.eqb b (two_digits m)
  | _ => false
  end &&
  match py_int (two_digits h), py_int (two_digits m) with
  | Ok x, Ok y => (x =? h) && (y =? m)
  | _, _ => false
  end &&
  match parse_dated (hhmm h m) dated_formats with
  | Ok None => true
  | _ => false
  end.

(** The least number of characters a format item matches. *)
Definition min_item (i : Strptime.item) : nat :=
  match i with
  | Strptime.DirY => 4
  | _ => 1
  end.

Definition min_len (fmt : list Strptime.item) : nat :=
  list_sum (map min_item fmt).

(** A sweep during which nothing is raised by the sweep itself: the interval
    sleep returns, the clock answers, and no unit is found cancelled; the
    units may have ended with any exception that derives from [Exception]. *)
Definition calm (w : SweepWorld) : Prop :=
  sweep_sleep w = Ok tt /\
  (exists now, sweep_clock w = Ok now) /\
  (forall t e, sweep_task w t = Finished (Raise e) -> is_Exception e = true).

(** ** The paginator, in the words of the design *)

(** The date of the message of the page whose id is [oid], [None] when there
    is no such message. *)
Definition date_of_message_with_id (messages : list RawMessage) (oid : Z)
  : option DT.datetime :=
  match find (fun m => match rm_id m with
                       | Some i => i =? oid
                       | None => false
                       end) messages with
  | Some m => rm_date m
  | None => None
  end.

(** A fetched topic has a title when the attribute holds a text that is not
    empty. *)
Definition has_title (t : RawTopic) : bool := truthy_str (rt_title t).

(** The entry made for a fetched topic. *)
Definition topic_info_of (t : RawTopic) : TopicInfo :=
  mkTopic (int_or_0 (rt_id t))
    (match rt_title t with Some s => s | None => EmptyString end)
    (int_or_0 (rt_unread_count t))
    (bool_or_false (rt_pinned t))
    (bool_or_false (rt_closed t)).

(** [x] may stand before [y]: a pinned topic before one that is not, and
    within a group the lower-cased titles in ascending order. *)
Definition topics_le (x y : TopicInfo) : Prop :=
  (pinned x = true /\ pinned y = false) \/
  (pinned x = pinned y /\
   String.leb (lower (title x)) (lower (title y)) = true).

(** [ceil(n / d)] *)
Definition ceil_div (n d : Z) : Z := (n + d - 1) / d.

(** The topics of the last page that came back. *)
Definition last_page (xs : list Exchange) : option (list RawTopic) :=
  match List.last xs (mkRequest 0 None 0 0 0, Raise ValueError) with
  | (_, Ok res) => Some (res_topics res)
  | (_, Raise _) => None
  end.

(** ** A small forum to run the paginator on *)

Definition raw_topic (id : Z) (name : option string) (top : Z) (pin : bool)
  : RawTopic :=
  mkRawTopic (Some id) name (Some top) (Some 0) (Some pin) (Some false).

Definition demo_forum : list RawTopic :=
  [raw_topic 11 (Some "beta"%string) 101 false;
   raw_topic 12 None 102 false;
   raw_topic 13 (Some "Alpha"%string) 103 false;
   raw_topic 14 (Some "zeta"%string) 104 true].

Definition demo_messages : list RawMessage :=
  [mkRawMessage (Some 101) (Some (DT.mkDT 2024 1 1 8 0 0 0));
   mkRawMessage (Some 102) (Some (DT.mkDT 2024 1 2 8 0 0 0));
   mkRawMessage (Some 103) None;
   mkRawMessage (Some 104) (Some (DT.mkDT 2024 1 4 8 0 0 0))].

(** Every field found so far is at most four characters long. *)
Definition short (f : Strptime.found) : bool :=
  (String.length (Strptime.fY f) <=? 4)%nat &&
  (String.length (Strptime.fm f) <=? 4)%nat &&
  (String.length (Strptime.fd f) <=? 4)%nat &&
  (String.length (Strptime.fH f) <=? 4)%nat &&
  (String.length (Strptime.fM f) <=? 4)%nat.

(** ** More texts *)

(** Every character is white space. *)
Fixpoint all_space (s : string) : bool :=
  match s with
  | EmptyString => true
  | String c r => is_space c && all_space r
  end.

(** No character is white space. *)
Fixpoint no_space (s : string) : bool :=
  match s with
  | EmptyString => true
  | String c r => negb (is_space c) && no_space r
  end.

(** The text HH:MM:SS of three numbers below 100. *)
Definition hhmmss (h m s : Z) : string :=
  (two_digits h ++ ":" ++ two_digits m ++ ":" ++ two_digits s)%string.

(** What holds of the two digits of every number below 100: neither is
    white space or a colon, and together they read back as the number. *)
Definition two_digits_shape (n : Z) : bool :=
  no_space (two_digits n) && negb (contains ":" (two_digits n)) &&
  match py_int (two_digits n) with
  | Ok x => x =? n
  | Raise _ => false
  end.

(** ** The pending jobs and the units, in the words of the code *)

(** A job as [schedule_message_from_ui] makes them: a message text that is
    trimmed and not empty, a due time that exists. *)
Definition job_ok (j : ScheduledJob) : Prop :=
  is_empty (text j) = false /\ strip (text j) = text j /\
  DT.valid (when j) = true.

(** [not task.done()] *)
Definition is_pending (st : Task -> TaskState) (t : Task) : bool :=
  match st t with
  | Pending => true
  | Finished _ => false
  end.

(** The log entries a sweep writes for the units that ended with an
    exception, in the order of the units. *)
Definition task_errors (st : Task -> TaskState) (tasks : list Task)
  : list LogEntry :=
  flat_map (fun t => match st t with
                     | Finished (Raise e) => [LogTaskError e]
                     | _ => []
                     end) tasks.

(** ** Exchanges and sort keys, in the words of the code *)

(** The server answered this request (it did not raise). *)
Definition answered (x : Exchange) : bool :=
  match snd x with
  | Ok _ => true
  | Raise _ => false
  end.

(** Two topics have the same sort key. *)
Definition same_key (x y : TopicInfo) : bool :=
  Bool.eqb (pinned x) (pinned y) &&
  String.eqb (lower (title x)) (lower (title y)).

(** ** Conversations: [load_dialogs] *)

(** The entity of a listed conversation, by the class the code tests for,
    with the attributes it reads. *)
Inductive EntityObj : Type :=
| UserEntity (id : Z) (bot : option bool)
| ChatEntity (id : Z)
| ChannelEntity (id : Z) (megagroup : option bool) (forum : option bool)
| OtherEntity.

(** One item of [client.iter_dialogs()]; [dlg_handle] is the entity object
    as the client takes it back. *)
Record Dialog : Type := mkDlg {
  dlg_id : Z;
  dlg_name : option string;
  dlg_entity : EntityObj;
  dlg_handle : Entity
}.

(** The stand-in title, as the bytes of the source literal. Its letters lie
    outside the alphabet of [ascii]: the bytes only name the text, and what
    [lower] and the order of strings make of them is not what the code makes
    of the title; a statement on the order of titles leaves it out. *)
Definition untitled : string := "Без названия".

(** The body of the loop of [load_dialogs]. *)
Definition dialog_info (dl : Dialog) : DialogInfo :=
  let title :=
    match dlg_name dl with
    | Some s => if is_empty s then untitled else s
    | None => untitled
    end in
  match dlg_entity dl with
  | UserEntity id bot =>
      mkDialog id title (if bool_or_false bot then "bot" else "private")
        false (dlg_handle dl)
  | ChatEntity id => mkDialog id title "group" false (dlg_handle dl)
  | ChannelEntity id megagroup forum =>
      if bool_or_false megagroup
      then mkDialog id title "group" (bool_or_false forum) (dlg_handle dl)
      else mkDialog id title "channel" false (dlg_handle dl)
  | OtherEntity => mkDialog (dlg_id dl) title "unknown" false (dlg_handle dl)
  end.

(** [load_dialogs(client)], on what [iter_dialogs] lists. *)
Definition load_dialogs (listing : list Dialog) : list DialogInfo :=
  map dialog_info listing.

(** ** The tree: [build_tree] *)

(** [sorted(l, key=...)] with a text key: stable, as [insert_sorted]. *)
Fixpoint insert_by {A : Type} (key : A -> string) (x : A) (l : list A)
  : list A :=
  match l with
  | [] => [x]
  | y :: l' =>
      if String.ltb (key x) (key y) then x :: l
      else y :: insert_by key x l'
  end.

Definition sorted_by {A : Type} (key : A -> string) (l : list A) : list A :=
  fold_left (fun acc x => insert_by key x acc) l [].

(** A node added for a conversation: its label, its data, whether it can be
    expanded. *)
Record TreeLeaf : Type := mkLeaf {
  leaf_label : string;
  leaf_data : DialogInfo;
  leaf_expandable : bool
}.

(** The children of the three category nodes and the leaves added to the
    root itself, each in the order of insertion. *)
Record Tree : Type := mkTree {
  node_private : list TreeLeaf;
  node_groups : list TreeLeaf;
  node_channels : list TreeLeaf;
  root_leaves : list TreeLeaf
}.

Definition bot_prefix : string := "🤖 ".
Definition forum_suffix : string := "  • темы".
Definition unknown_prefix : string := "(?) ".

(** [TreeNode.add] and [TreeNode.add_leaf] read the label as markup, as the
    status bar does its text, and raise [MarkupError] on a label that is not
    well formed; [label_ok] tells which labels the tree accepts. *)
Definition new_node (label_ok : string -> bool) (lbl : string)
  (d : DialogInfo) (allow_expand : bool) : result TreeLeaf :=
  if label_ok lbl then Ok (mkLeaf lbl d allow_expand)
  else Raise MarkupError.

(** The body of the loop of [build_tree]. *)
Definition add_dialog (label_ok : string -> bool) (t : Tree)
  (d : DialogInfo) : result Tree :=
  let label := dialog_title d in
  let label := if String.eqb (dialog_kind d) "bot"
               then (bot_prefix ++ label)%string else label in
  if String.eqb (dialog_kind d) "group" then
    if dialog_is_forum d then
      n <- new_node label_ok (label ++ forum_suffix)%string d true ;;
      Ok (mkTree (node_private t) (node_groups t ++ [n]) (node_channels t)
            (root_leaves t))
    else
      n <- new_node label_ok label d false ;;
      Ok (mkTree (node_private t) (node_groups t ++ [n]) (node_channels t)
            (root_leaves t))
  else if String.eqb (dialog_kind d) "private" then
    n <- new_node label_ok label d false ;;
    Ok (mkTree (node_private t ++ [n]) (node_groups t) (node_channels t)
          (root_leaves t))
  else if String.eqb (dialog_kind d) "channel" then
    n <- new_node label_ok label d false ;;
    Ok (mkTree (node_private t) (node_groups t) (node_channels t ++ [n])
          (root_leaves t))
  else if String.eqb (dialog_kind d) "bot" then
    n <- new_node label_ok label d false ;;
    Ok (mkTree (node_private t) (node_groups t) (node_channels t ++ [n])
          (root_leaves t))
  else
    n <- new_node label_ok (unknown_prefix ++ label)%string d false ;;
    Ok (mkTree (node_private t) (node_groups t) (node_channels t)
          (root_leaves t ++ [n])).

Definition title_key (d : DialogInfo) : string := lower (dialog_title d).

(** The [for d in sorted(...)] loop: it stops at the first label the tree
    does not accept, and the nodes added before it stay. *)
Fixpoint add_dialogs (label_ok : string -> bool) (ds : list DialogInfo)
  (t : Tree) : Tree * result unit :=
  match ds with
  | [] => (t, Ok tt)
  | d :: ds' =>
      match add_dialog label_ok t d with
      | Ok t' => add_dialogs label_ok ds' t'
      | Raise e => (t, Raise e)
      end
  end.

(** [build_tree()], on [self.dialogs]: the tree as the call leaves it, and
    how the call ends. *)
Definition build_tree (label_ok : string -> bool)
  (dialogs : list DialogInfo) : Tree * result unit :=
  add_dialogs label_ok (sorted_by title_key dialogs) (mkTree [] [] [] []).

(** ** Selecting a target and opening the dialog *)

(** The data of a tree node, by the class the handlers test for. *)
Inductive NodeData : Type :=
| DataDialog (d : DialogInfo)
| DataTopicNode (d : DialogInfo) (t : TopicInfo)
| DataTopic (t : TopicInfo)
| DataNone.

(** What the tree handlers call [set_status] with. *)
Inductive UiStatus : Type :=
| ChatSelected (chat : string)
| TopicSelected (chat topic : string)
| TopicWithoutGroup
| PickTargetFirst
| TreeReloaded.

(** The state of [TelegramTui] the tree handlers touch. [topics_loaded] is a
    set of ids, kept as a list without repetition; [ui_statuses] are the
    texts the status bar took. *)
Record Ui : Type := mkUi {
  topics_loaded : list Z;
  current_target : option SendTarget;
  ui_statuses : list UiStatus
}.

(** [data.kind in ("private", "group", "channel", "bot")] *)
Definition targetable_kind (k : string) : bool :=
  existsb (String.eqb k) ["private"; "group"; "channel"; "bot"]%string.

(** Whether the status bar takes the text of a status of the tree
    handlers: the fixed texts hold no square bracket and are always taken,
    a text that holds a title is left to [bar]. *)
Definition ui_status_accepted (bar : UiStatus -> bool) (s : UiStatus)
  : bool :=
  match s with
  | ChatSelected _ | TopicSelected _ _ => bar s
  | TopicWithoutGroup | PickTargetFirst | TreeReloaded => true
  end.

(** [set_status(text)], called from a tree handler. *)
Definition set_ui_status (bar : UiStatus -> bool) (ui : Ui) (s : UiStatus)
  : Ui * result unit :=
  if ui_status_accepted bar s
  then (mkUi (topics_loaded ui) (current_target ui) (ui_statuses ui ++ [s]),
        Ok tt)
  else (ui, Raise MarkupError).

(** [on_tree_node_highlighted(event)], on the data of the node.
    [current_target] is assigned before the status is set. *)
Definition on_tree_node_highlighted (bar : UiStatus -> bool) (ui : Ui)
  (data : NodeData) : Ui * result unit :=
  match data with
  | DataDialog d =>
      if targetable_kind (dialog_kind d) then
        set_ui_status bar
          (mkUi (topics_loaded ui) (Some (mkTarget d None None))
             (ui_statuses ui))
          (ChatSelected (dialog_title d))
      else (mkUi (topics_loaded ui) None (ui_statuses ui), Ok tt)
  | DataTopicNode d t =>
      set_ui_status bar
        (mkUi (topics_loaded ui)
           (Some (mkTarget d (Some (topic_id_of t)) (Some (title t))))
           (ui_statuses ui))
        (TopicSelected (dialog_title d) (title t))
  | DataTopic _ => set_ui_status bar ui TopicWithoutGroup
  | DataNone => (ui, Ok tt)
  end.

(** [action_timer()]: the target the schedule dialog is opened for, if
    any. *)
Definition action_timer (ui : Ui) : Ui * option SendTarget :=
  match current_target ui with
  | None =>
      (mkUi (topics_loaded ui) (current_target ui)
         (ui_statuses ui ++ [PickTargetFirst]), None)
  | Some tgt => (ui, Some tgt)
  end.

(** [ScheduleScreen.on_button_pressed(event)], on the id of the button and
    the two input values: whether the screen was popped, and what became of
    the application. *)
Definition on_button_pressed (bar : Status -> bool) (today : DT.date)
  (clock : result DT.datetime)
  (a : App) (tgt : SendTarget) (button when_str txt : string)
  : bool * (App * result unit) :=
  if String.eqb button "cancel_btn" then (true, (a, Ok tt))
  else if String.eqb button "ok_btn" then
    (true, schedule_message_from_ui bar today clock a tgt when_str txt)
  else (false, (a, Ok tt)).

(** ** Expanding a forum: [on_tree_node_expanded] *)

(** A child of the expanded node. *)
Record Child : Type := mkChild {
  child_label : string;
  child_data : NodeData
}.

Definition loading_label : string := "Загрузка тем...".
Definition load_error_label : string := "Ошибка загрузки тем".
Definition no_topics_label : string := "Тем нет".
Definition pin_flag : string := "📌".
Definition lock_flag : string := "🔒".

(** [str(n)] for an [int]. *)
Definition str_int (n : Z) : string := NilZero.string_of_int (Z.to_int n).

(** The [flags] list of a topic. *)
Definition topic_flags (t : TopicInfo) : list string :=
  (if pinned t then [pin_flag] else []) ++
  (if closed t then [lock_flag] else []) ++
  (if negb (unread_count t =? 0)
   then [("(" ++ str_int (unread_count t) ++ ")")%string] else []).

(** [f"{t.title}{suffix}"] *)
Definition topic_label (t : TopicInfo) : string :=
  match topic_flags t with
  | [] => title t
  | flags => (title t ++ " " ++ String.concat " " flags)%string
  end.

Definition topic_child (d : DialogInfo) (t : TopicInfo) : Child :=
  mkChild (topic_label t) (DataTopicNode d t).

(** The [for t in topics] loop: one [add_leaf] per topic, until a label
    the tree does not accept. *)
Fixpoint add_topics (label_ok : string -> bool) (d : DialogInfo)
  (topics : list TopicInfo) (kids : list Child) : list Child * result unit :=
  match topics with
  | [] => (kids, Ok tt)
  | t :: topics' =>
      if label_ok (topic_label t)
      then add_topics label_ok d topics' (kids ++ [topic_child d t])
      else (kids, Raise MarkupError)
  end.

(** How the handler ends: it returned, an exception left it, or the run
    was cut short inside the fetch by the bound on iterations. *)
Inductive ExpandEnd : Type :=
| Expanded
| ExpandRaised (e : exn)
| ExpandCutShort.

(** The page size [get_all_forum_topics] is called with here: its
    default. *)
Definition default_limit : Z := 100.

Section Expand.

Variable Server : Type.
Variable call : Server -> Request -> Server * result Response.

(** [on_tree_node_expanded(event)], on the data and the children of the
    node: the exchanges made with the server, the new state and the new
    children. The loop that adds the topics runs outside the [try]: a label
    the tree does not accept ends the handler with the exception. *)
Definition on_tree_node_expanded (label_ok : string -> bool) (fuel : nat)
  (srv : Server) (ui : Ui)
  (data : NodeData) (children : list Child)
  : Server * list Exchange * Ui * list Child * ExpandEnd :=
  match data with
  | DataDialog d =>
      if negb (String.eqb (dialog_kind d) "group")
         || negb (dialog_is_forum d)
      then (srv, [], ui, children, Expanded)
      else if existsb (Z.eqb (dialog_id d)) (topics_loaded ui)
      then (srv, [], ui, children, Expanded)
      else
        let ui' := mkUi (dialog_id d :: topics_loaded ui)
                     (current_target ui) (ui_statuses ui) in
        match get_all_forum_topics Server call (raw_entity d) default_limit
                fuel srv with
        | (srv', xs, Returns topics) =>
            match topics with
            | [] => (srv', xs, ui', [mkChild no_topics_label DataNone],
                     Expanded)
            | _ :: _ =>
                match add_topics label_ok d topics [] with
                | (kids, Ok _) => (srv', xs, ui', kids, Expanded)
                | (kids, Raise e) => (srv', xs, ui', kids, ExpandRaised e)
                end
            end
        | (srv', xs, Raises e) =>
            if is_Exception e
            then (srv', xs, ui', [mkChild load_error_label DataNone],
                  Expanded)
            else (srv', xs, ui', [], ExpandRaised e)
        | (srv', xs, OutOfFuel) =>
            (srv', xs, ui', [mkChild loading_label DataNone], ExpandCutShort)
        end
  | _ => (srv, [], ui, children, Expanded)
  end.

End Expand.

(** [action_reload()], on what [iter_dialogs] lists: the new state, the new
    [self.dialogs], the rebuilt tree and how the call ends. The status is
    set only when [build_tree] returns. *)
Definition action_reload (label_ok : string -> bool) (ui : Ui)
  (listing : list Dialog) : Ui * list DialogInfo * Tree * result unit :=
  let dialogs := load_dialogs listing in
  match build_tree label_ok dialogs with
  | (t, Ok _) =>
      (mkUi [] None (ui_statuses ui ++ [TreeReloaded]), dialogs, t, Ok tt)
  | (t, Raise e) => (mkUi [] None (ui_statuses ui), dialogs, t, Raise e)
  end.

(** ** The settings file: [create_env_file] *)

Definition newline : string := String (ascii_of_nat 10) EmptyString.

Definition RuntimeError : exn := OtherError "RuntimeError".

(** The [while True] loop over [input()]: [inputs] are the lines the user
    enters; at the end of the input [input()] raises [EOFError], which the
    loop turns into a [RuntimeError]. *)
Fixpoint read_lines (inputs : list string) (lines : list string)
  : result (list string) :=
  match inputs with
  | [] => Raise RuntimeError
  | line :: inputs' =>
      if is_empty (strip line) then Ok lines
      else read_lines inputs' (lines ++ [line])
  end.

(** [create_env_file()]: [file_exists] is what [os.path.exists(".env")]
    answers; the result is the text written to the file, [None] when no
    file is written. *)
Definition create_env_file (file_exists : bool) (inputs : list string)
  : result (option string) :=
  if file_exists then Ok None
  else
    lines <- read_lines inputs [] ;;
    match lines with
    | [] => Raise RuntimeError
    | _ :: _ =>
        Ok (Some (String.concat EmptyString
                    (map (fun l => (l ++ newline)%string) lines)))
    end.

(** ** The tree, in the words of the code *)

(** The four places a conversation can be added to. *)
Inductive Bucket : Type := InPrivate | InGroups | InChannels | InRoot.

Definition bucket_eqb (a b : Bucket) : bool :=
  match a, b with
  | InPrivate, InPrivate | InGroups, InGroups
  | InChannels, InChannels | InRoot, InRoot => true
  | _, _ => false
  end.

(** The place of a conversation, by its kind. *)
Definition bucket_of (d : DialogInfo) : Bucket :=
  if String.eqb (dialog_kind d) "group" then InGroups
  else if String.eqb (dialog_kind d) "private" then InPrivate
  else if String.eqb (dialog_kind d) "channel" then InChannels
  else if String.eqb (dialog_kind d) "bot" then InChannels
  else InRoot.

Definition bucket (b : Bucket) (t : Tree) : list TreeLeaf :=
  match b with
  | InPrivate => node_private t
  | InGroups => node_groups t
  | InChannels => node_channels t
  | InRoot => root_leaves t
  end.

(** The label [build_tree] hands to the tree for a conversation, and the
    node it asks for. *)
Definition tree_label (d : DialogInfo) : string :=
  let label := if String.eqb (dialog_kind d) "bot"
               then (bot_prefix ++ dialog_title d)%string
               else dialog_title d in
  match bucket_of d with
  | InGroups =>
      if dialog_is_forum d then (label ++ forum_suffix)%string else label
  | InRoot => (unknown_prefix ++ label)%string
  | InPrivate | InChannels => label
  end.

Definition dialog_leaf (d : DialogInfo) : TreeLeaf :=
  mkLeaf (tree_label d) d
    (String.eqb (dialog_kind d) "group" && dialog_is_forum d).

(** The items of a list up to the first one that fails a test. *)
Fixpoint take_while {A : Type} (p : A -> bool) (l : list A) : list A :=
  match l with
  | [] => []
  | x :: l' => if p x then x :: take_while p l' else []
  end.

(** [x] may stand before [y]: its lower-cased title is not greater. *)
Definition title_le (x y : DialogInfo) : Prop :=
  String.leb (title_key x) (title_key y) = true.

(** A forum group: the conversations whose node can be expanded. *)
Definition is_forum_group (d : DialogInfo) : bool :=
  String.eqb (dialog_kind d) "group" && dialog_is_forum d.

(** A line of input that is not blank. *)
Definition not_blank (line : string) : bool := negb (all_space line).

(** The route of a message to a topic id. *)
Definition route_of (id : Z) : option Z :=
  if negb (id =? 0) && negb (id =? 1) then Some id else None.

(** A forum group to expand, served by [demo_forum]. *)
Definition demo_group : DialogInfo := mkDialog 7 "forum" "group" true 7.
Definition demo_ui : Ui := mkUi [] None [].

(** * Properties *)

(** ** The parser *)

Lemma upto100_spec (n : Z) : 0 <= n < 100 -> In n upto100.
Proof.
  intros H. unfold upto100.
  replace n with (Z.of_nat (Z.to_nat n)) by lia.
  apply in_map, in_seq. lia.
Qed.

Lemma hhmm_shape_all :
  forallb (fun h => forallb (hhmm_shape h) upto100) upto100 = true.
Proof. vm_compute. reflexivity. Qed.

Lemma hhmm_shape_ok (h m : Z) :
  0 <= h < 100 -> 0 <= m < 100 -> hhmm_shape h m = true.
Proof.
  intros Hh Hm.
  pose proof hhmm_shape_all as A.
  rewrite forallb_forall in A.
  specialize (A h (upto100_spec h Hh)).
  rewrite forallb_forall in A.
  exact (A m (upto100_spec m Hm)).
Qed.

Ltac bool_to_prop :=
  repeat match goal with
  | H : _ && _ = true |- _ => apply andb_true_iff in H; destruct H
  | H : (_ <=? _) = true |- _ => apply Z.leb_le in H
  | H : (_ <? _) = true |- _ => apply Z.ltb_lt in H
  | H : (_ =? _) = true |- _ => apply Z.eqb_eq in H
  | H : (_ <=? _) = false |- _ => apply Z.leb_gt in H
  | H : (_ <? _) = false |- _ => apply Z.ltb_ge in H
  | H : (_ =? _) = false |- _ => apply Z.eqb_neq in H
  end.

Lemma days_in_month_bounds (y m : Z) : 28 <= DT.days_in_month y m <= 31.
Proof.
  unfold DT.days_in_month.
  destruct (m =? 2); [destruct (DT.is_leap y); lia|].
  destruct ((m =? 4) || (m =? 6) || (m =? 9) || (m =? 11)); lia.
Qed.

Lemma datetime_new_ok (y m d hh mi ss : Z) :
  DT.valid_date y m d = true -> DT.valid_time hh mi ss 0 = true ->
  DT.datetime_new y m d hh mi ss = Ok (DT.mkDT y m d hh mi ss 0).
Proof.
  intros Hd Ht. unfold DT.datetime_new. rewrite Hd, Ht. simpl.
  pose proof (days_in_month_bounds y m) as B.
  unfold DT.valid_date, DT.valid_time in Hd, Ht. bool_to_prop.
  assert (F : forall n, -100 <= n <= 10000 -> DT.fits_c_int n = true).
  { intros n Hn. unfold DT.fits_c_int.
    apply andb_true_iff; split; apply Z.leb_le; lia. }
  rewrite !F by lia. reflexivity.
Qed.

Lemma datetime_new_bad_time (y m d hh mi ss : Z) :
  DT.valid_time hh mi ss 0 = false ->
  exists e, DT.datetime_new y m d hh mi ss = Raise e /\ is_Exception e = true.
Proof.
  intros Ht. unfold DT.datetime_new. rewrite Ht, andb_false_r.
  destruct (negb _); eexists; split; reflexivity.
Qed.

Lemma parse_time_only_hhmm (today : DT.date) (h m : Z) :
  0 <= h < 100 -> 0 <= m < 100 ->
  parse_time_only today (hhmm h m) =
  (dt <- DT.datetime_new (DT.d_year today) (DT.d_month today)
           (DT.d_day today) h m 0 ;; Ok (Some dt)).
Proof.
  intros Hh Hm. pose proof (hhmm_shape_ok h m Hh Hm) as S.
  unfold hhmm_shape in S.
  apply andb_true_iff in S; destruct S as [S Sd].
  apply andb_true_iff in S; destruct S as [S Si].
  apply andb_true_iff in S; destruct S as [_ Ss].
  unfold parse_time_only.
  destruct (split ":" (hhmm h m)) as [|a [|b [|c l]]]; try discriminate.
  apply andb_true_iff in Ss; destruct Ss as [Ea Eb].
  apply String.eqb_eq in Ea, Eb. subst a b.
  destruct (py_int (two_digits h)) as [x|]; [|discriminate].
  destruct (py_int (two_digits m)) as [z|]; [|discriminate].
  apply andb_true_iff in Si; destruct Si as [Ex Ez].
  apply Z.eqb_eq in Ex, Ez. subst x z. reflexivity.
Qed.

Lemma hhmm_strip (h m : Z) :
  0 <= h < 100 -> 0 <= m < 100 -> strip (hhmm h m) = hhmm h m.
Proof.
  intros Hh Hm. pose proof (hhmm_shape_ok h m Hh Hm) as S.
  unfold hhmm_shape in S.
  repeat (apply andb_true_iff in S; destruct S as [S _]).
  apply String.eqb_eq in S. exact S.
Qed.

Lemma hhmm_not_dated (h m : Z) :
  0 <= h < 100 -> 0 <= m < 100 ->
  parse_dated (hhmm h m) dated_formats = Ok None.
Proof.
  intros Hh Hm. pose proof (hhmm_shape_ok h m Hh Hm) as S.
  unfold hhmm_shape in S.
  apply andb_true_iff in S; destruct S as [_ S].
  destruct (parse_dated (hhmm h m) dated_formats) as [[d|]|]; try discriminate.
  reflexivity.
Qed.

(** C9. The ISO text and the dotted text of 15 January 2030, 09:30, parse to
    one and the same time: 2030-01-15 09:30:00. *)
Theorem parse_datetime_iso_dotted_agree (today : DT.date) :
  parse_datetime today "2030-01-15 09:30" =
    Ok (Some (DT.mkDT 2030 1 15 9 30 0 0)) /\
  parse_datetime today "15.01.2030 09:30" =
    Ok (Some (DT.mkDT 2030 1 15 9 30 0 0)) /\
  parse_datetime today "2030-01-15 09:30" =
    parse_datetime today "15.01.2030 09:30".
Proof. repeat split; vm_compute; reflexivity. Qed.

(** ** Calendar arithmetic *)

Lemma days_before_month_succ (y m : Z) :
  1 <= m ->
  DT.days_before_month y (m + 1) =
  DT.days_before_month y m + DT.days_in_month y m.
Proof.
  intros Hm. unfold DT.days_before_month.
  replace (Z.to_nat (m + 1 - 1)) with (S (Z.to_nat (m - 1))) by lia.
  cbn [DT.days_before_month_aux].
  replace (Z.of_nat (S (Z.to_nat (m - 1)))) with m by lia.
  reflexivity.
Qed.

Lemma days_before_december (y : Z) :
  DT.days_before_month y 12 = 334 + (if DT.is_leap y then 1 else 0).
Proof.
  unfold DT.days_before_month.
  change (Z.to_nat (12 - 1)) with 11%nat.
  unfold DT.days_before_month_aux, DT.days_in_month.
  destruct (DT.is_leap y); reflexivity.
Qed.

Lemma days_before_next_year (y : Z) :
  DT.days_before_year (y + 1) =
  DT.days_before_year y + 365 + (if DT.is_leap y then 1 else 0).
Proof.
  unfold DT.days_before_year, DT.is_leap.
  replace (y + 1 - 1) with y by lia.
  destruct (y mod 4 =? 0) eqn:E4; destruct (y mod 100 =? 0) eqn:E100;
    destruct (y mod 400 =? 0) eqn:E400; cbn [negb andb orb];
    bool_to_prop; Z.div_mod_to_equations; lia.
Qed.

(** Adding a day moves the ordinal of a valid date forward by exactly one
    and leaves the time of day alone; it only fails on 9999-12-31. *)
Lemma add_one_day_next (w : DT.datetime) :
  DT.valid w = true -> DT.is_last_day w = false ->
  exists w', DT.add_one_day w = Ok w' /\
    DT.toordinal w' = DT.toordinal w + 1 /\
    DT.hour w' = DT.hour w /\ DT.minute w' = DT.minute w /\
    DT.second w' = DT.second w /\ DT.microsecond w' = DT.microsecond w.
Proof.
  intros Hv Hl. destruct w as [y m d hh mi ss us].
  unfold DT.valid, DT.valid_date in Hv. cbn [DT.year DT.month DT.day] in Hv.
  apply andb_true_iff in Hv; destruct Hv as [Hd _]. bool_to_prop.
  unfold DT.add_one_day. cbn [DT.year DT.month DT.day DT.hour DT.minute
    DT.second DT.microsecond].
  destruct (d <? DT.days_in_month y m) eqn:E1.
  - eexists; split; [reflexivity|]. unfold DT.toordinal; cbn. lia.
  - destruct (m <? 12) eqn:E2.
    + eexists; split; [reflexivity|]. unfold DT.toordinal; cbn.
      rewrite days_before_month_succ by lia. bool_to_prop. lia.
    + destruct (y <? 9999) eqn:E3.
      * eexists; split; [reflexivity|]. unfold DT.toordinal; cbn.
        bool_to_prop. assert (m = 12) by lia. subst m.
        rewrite days_before_next_year, days_before_december.
        change (DT.days_before_month (y + 1) 1) with 0.
        change (DT.days_in_month y 12) with 31 in *. lia.
      * exfalso. bool_to_prop. assert (m = 12) by lia. subst m.
        change (DT.days_in_month y 12) with 31 in *.
        assert (y = 9999) by lia. assert (d = 31) by lia. subst y d.
        discriminate Hl.
Qed.

Lemma add_one_day_valid (w w' : DT.datetime) :
  DT.valid w = true -> DT.add_one_day w = Ok w' -> DT.valid w' = true.
Proof.
  destruct w as [y m d hh mi ss us]. unfold DT.valid, DT.add_one_day.
  cbn [DT.year DT.month DT.day DT.hour DT.minute DT.second DT.microsecond].
  intros V. apply andb_true_iff in V. destruct V as [Vd Vt].
  unfold DT.valid_date in Vd. bool_to_prop.
  destruct (d <? DT.days_in_month y m) eqn:E1;
    [|destruct (m <? 12) eqn:E2; [|destruct (y <? 9999) eqn:E3]];
    intros Hw; try discriminate Hw; injection Hw as <-;
    cbn [DT.year DT.month DT.day DT.hour DT.minute DT.second DT.microsecond];
    rewrite Vt, andb_true_r; unfold DT.valid_date; bool_to_prop.
  - repeat (apply andb_true_iff; split); apply Z.leb_le; lia.
  - pose proof (days_in_month_bounds y (m + 1)).
    repeat (apply andb_true_iff; split); apply Z.leb_le; lia.
  - pose proof (days_in_month_bounds (y + 1) 1).
    repeat (apply andb_true_iff; split); apply Z.leb_le; lia.
Qed.

(** On 9999-12-31 there is no next day. *)
Lemma add_one_day_last (w : DT.datetime) :
  DT.valid w = true -> DT.is_last_day w = true ->
  DT.add_one_day w = Raise OverflowError.
Proof.
  destruct w as [y m d hh mi ss us].
  unfold DT.valid, DT.valid_date, DT.is_last_day, DT.add_one_day.
  cbn [DT.year DT.month DT.day DT.hour DT.minute DT.second DT.microsecond].
  intros _ Hl. bool_to_prop. subst y m d. reflexivity.
Qed.

(** ** What the parser returns *)

Lemma datetime_new_valid (y m d hh mi ss : Z) (w : DT.datetime) :
  DT.datetime_new y m d hh mi ss = Ok w -> DT.valid w = true.
Proof.
  unfold DT.datetime_new. destruct (negb _); [discriminate|].
  destruct (DT.valid_date y m d && DT.valid_time hh mi ss 0) eqn:E;
    [|discriminate].
  intros H; injection H as <-. exact E.
Qed.

Lemma bind_ok {A B : Type} (c : result A) (k : A -> result B) (b : B) :
  Py.bind c k = Ok b -> exists a, c = Ok a /\ k a = Ok b.
Proof. destruct c as [a|e]; simpl; [eauto | discriminate]. Qed.

Ltac binds H :=
  repeat (let x := fresh "x" in let E := fresh "E" in
          apply bind_ok in H; destruct H as [x [E H]]).

Lemma parse_time_only_valid (today : DT.date) (s : string) (w : DT.datetime) :
  parse_time_only today s = Ok (Some w) -> DT.valid w = true.
Proof.
  unfold parse_time_only.
  destruct (split ":" s) as [|a [|b [|c [|? ?]]]]; try discriminate.
  - intros H. binds H. injection H as <-.
    eapply datetime_new_valid; eassumption.
  - destruct (negb (contains " " s)); [|discriminate].
    intros H. binds H. injection H as <-.
    eapply datetime_new_valid; eassumption.
Qed.

Lemma strptime_valid (s : string) (fmt : list Strptime.item) (w : DT.datetime) :
  Strptime.strptime s fmt = Ok w -> DT.valid w = true.
Proof.
  unfold Strptime.strptime.
  destruct (Strptime.match_items _ _ _) as [[f rest]|]; [|discriminate].
  destruct (negb (is_empty rest)); [discriminate|].
  intros H. binds H. eapply datetime_new_valid; eassumption.
Qed.

Lemma parse_dated_inv (s : string) (fmts : list (list Strptime.item))
  (w : DT.datetime) :
  parse_dated s fmts = Ok (Some w) ->
  exists fmt, In fmt fmts /\ Strptime.strptime s fmt = Ok w.
Proof.
  induction fmts as [|fmt fmts IH]; simpl; [discriminate|].
  destruct (Strptime.strptime s fmt) as [dt|e] eqn:E.
  - intros H; injection H as <-. eauto.
  - destruct e; try discriminate.
    intros H. destruct (IH H) as [f [Hin Hf]]. eauto.
Qed.

Lemma parse_datetime_inv (today : DT.date) (s : string) (w : DT.datetime) :
  parse_datetime today s = Ok (Some w) ->
  parse_time_only today (strip s) = Ok (Some w) \/
  parse_dated (strip s) dated_formats = Ok (Some w).
Proof.
  unfold parse_datetime. fold dated_formats.
  destruct (parse_time_only today (strip s)) as [[dt|]|e]; auto.
  destruct (is_Exception e); [auto | discriminate].
Qed.

Lemma parse_datetime_valid (today : DT.date) (s : string) (w : DT.datetime) :
  parse_datetime today s = Ok (Some w) -> DT.valid w = true.
Proof.
  intros H. apply parse_datetime_inv in H. destruct H as [H|H].
  - eapply parse_time_only_valid; eassumption.
  - apply parse_dated_inv in H. destruct H as [fmt [_ H]].
    eapply strptime_valid; eassumption.
Qed.

(** ** A text with a date is longer than any time-only text *)

Lemma first_some_inv {A B : Type} (f : A -> option B) (l : list A) (y : B) :
  Strptime.first_some f l = Some y -> exists x, In x l /\ f x = Some y.
Proof.
  induction l as [|x l IH]; simpl; [discriminate|].
  destruct (f x) as [z|] eqn:E.
  - intros H; injection H as <-. eauto.
  - intros H. destruct (IH H) as [x' [Hin Hx]]. eauto.
Qed.

Lemma match_alt_length (a : Strptime.alt) (s txt rest : string) :
  Strptime.match_alt a s = Some (txt, rest) ->
  String.length s = (List.length a + String.length rest)%nat /\
  String.length txt = List.length a.
Proof.
  revert s txt rest. induction a as [|p a IH]; intros s txt rest; simpl.
  - intros H; injection H as <- <-. auto.
  - destruct s as [|c r]; [discriminate|].
    destruct (p c); [|discriminate].
    destruct (Strptime.match_alt a r) as [[m rest']|] eqn:E; [|discriminate].
    intros H; injection H as <- <-.
    destruct (IH _ _ _ E) as [L1 L2]. simpl. lia.
Qed.

Lemma space_rests_length (s r : string) :
  In r (Strptime.space_rests s) ->
  (1 + String.length r <= String.length s)%nat.
Proof.
  revert r. induction s as [|c s IH]; intros r; simpl; [tauto|].
  destruct (is_space c); [|simpl; tauto].
  rewrite in_app_iff. intros [H|[H|[]]].
  - specialize (IH r H). lia.
  - subst r. lia.
Qed.

Lemma alts_min_length (i : Strptime.item) (a : Strptime.alt) :
  In a (Strptime.alts i) -> (min_item i <= List.length a)%nat.
Proof.
  destruct i; simpl; intros H;
    repeat (destruct H as [H|H]; [subst a; simpl; lia|]); destruct H.
Qed.

Lemma match_items_length (fmt : list Strptime.item) :
  forall (s : string) (f f' : Strptime.found) (rest : string),
  Strptime.match_items fmt s f = Some (f', rest) ->
  (min_len fmt + String.length rest <= String.length s)%nat.
Proof.
  induction fmt as [|i fmt IH]; intros s f f' rest H.
  - simpl in H. injection H as <- <-. unfold min_len. simpl. lia.
  - assert (D : (exists r, In r (Strptime.space_rests s) /\
                   i = Strptime.Spaces /\
                   Strptime.match_items fmt r f = Some (f', rest)) \/
                (exists a txt r, In a (Strptime.alts i) /\
                   Strptime.match_alt a s = Some (txt, r) /\
                   Strptime.match_items fmt r (Strptime.store i txt f)
                   = Some (f', rest))).
    { destruct i; cbn [Strptime.match_items] in H;
        try (right; apply first_some_inv in H; destruct H as [a [Hin Ha]];
             destruct (Strptime.match_alt a s) as [[txt r]|] eqn:E;
             [|discriminate]; exists a, txt, r; auto).
      left. apply first_some_inv in H. destruct H as [r [Hin Hr]]. eauto. }
    unfold min_len in *. cbn [map list_sum].
    destruct D as [[r [Hin [-> Hr]]] | [a [txt [r [Hin [Ha Hr]]]]]].
    + apply space_rests_length in Hin. apply IH in Hr. simpl. lia.
    + apply alts_min_length in Hin. apply match_alt_length in Ha.
      destruct Ha as [Ha _]. apply IH in Hr. simpl. lia.
Qed.

Lemma dated_text_length (s : string) (w : DT.datetime) :
  parse_dated s dated_formats = Ok (Some w) -> (12 <= String.length s)%nat.
Proof.
  intros H. apply parse_dated_inv in H. destruct H as [fmt [Hin H]].
  unfold Strptime.strptime in H.
  destruct (Strptime.match_items fmt s _) as [[f rest]|] eqn:E;
    [|discriminate].
  apply match_items_length in E.
  destruct Hin as [<-|[<-|[]]]; unfold min_len in E; simpl in E; lia.
Qed.

(** *** The parser never raises *)

Lemma lstrip_length (s : string) :
  (String.length (lstrip s) <= String.length s)%nat.
Proof.
  induction s as [|c s IH]; simpl; [lia|].
  destruct (is_space c); simpl; lia.
Qed.

Lemma rstrip_length (s : string) :
  (String.length (rstrip s) <= String.length s)%nat.
Proof.
  induction s as [|c s IH]; simpl; [lia|].
  destruct (is_space c && is_empty (rstrip s)); simpl; lia.
Qed.

Lemma strip_length (s : string) :
  (String.length (strip s) <= String.length s)%nat.
Proof.
  unfold strip. pose proof (rstrip_length (lstrip s)).
  pose proof (lstrip_length s). lia.
Qed.

Lemma int_strip_length (s : string) :
  (String.length (int_strip s) <= String.length s)%nat.
Proof.
  assert (L : forall t, (String.length (int_lstrip t) <= String.length t)%nat).
  { induction t as [|c t IH]; simpl; [lia|].
    destruct (is_int_space c); simpl; lia. }
  assert (R : forall t, (String.length (int_rstrip t) <= String.length t)%nat).
  { induction t as [|c t IH]; simpl; [lia|].
    destruct (is_int_space c && is_empty (int_rstrip t)); simpl; lia. }
  unfold int_strip. pose proof (R (int_lstrip s)). pose proof (L s). lia.
Qed.

Lemma int_digits_bound (s : string) :
  forall acc seen n, 0 <= acc -> int_digits s acc seen = Some n ->
  0 <= n < (acc + 1) * 10 ^ Z.of_nat (String.length s).
Proof.
  induction s as [|c s IH]; intros acc seen n Hacc; simpl String.length.
  - simpl. destruct seen; [|discriminate]. intros H; injection H as <-.
    simpl. lia.
  - rewrite Nat2Z.inj_succ, Z.pow_succ_r by lia.
    pose proof (Z.pow_pos_nonneg 10 (Z.of_nat (String.length s))
                  ltac:(lia) ltac:(lia)) as P.
    set (p := 10 ^ Z.of_nat (String.length s)) in *.
    cbn [int_digits]. destruct (is_digit c) eqn:D.
    + unfold is_digit, in_range in D. bool_to_prop.
      intros Hres. apply IH in Hres; [|lia].
      assert ((10 * acc + (code c - 48) + 1) * p <= (10 * acc + 10) * p)
        by (apply Z.mul_le_mono_nonneg_r; lia).
      lia.
    + destruct (Ascii.eqb c "_" && seen); [|discriminate].
      intros H. apply IH in H; [|exact Hacc].
      assert ((acc + 1) * p <= (acc + 1) * (10 * p))
        by (apply Z.mul_le_mono_nonneg_l; lia).
      lia.
Qed.

Lemma py_int_bound (s : string) (n : Z) :
  py_int s = Ok n -> Z.abs n < 10 ^ Z.of_nat (String.length s).
Proof.
  unfold py_int. pose proof (int_strip_length s) as L.
  assert (M : forall k, (k <= String.length s)%nat ->
            10 ^ Z.of_nat k <= 10 ^ Z.of_nat (String.length s)).
  { intros k Hk. apply Z.pow_le_mono_r; lia. }
  destruct (int_strip s) as [|c r] eqn:E; [discriminate|].
  simpl in L.
  destruct (Ascii.eqb c "-").
  - destruct (int_digits r 0 false) as [m|] eqn:Hm; [|discriminate].
    simpl. intros H; injection H as <-.
    apply int_digits_bound in Hm; [|lia].
    specialize (M (String.length r) ltac:(lia)). lia.
  - destruct (Ascii.eqb c "+").
    + destruct (int_digits r 0 false) as [m|] eqn:Hm; [|discriminate].
      intros H; injection H as <-.
      apply int_digits_bound in Hm; [|lia].
      specialize (M (String.length r) ltac:(lia)). lia.
    + destruct (int_digits (String c r) 0 false) as [m|] eqn:Hm;
        [|discriminate].
      intros H; injection H as <-.
      apply int_digits_bound in Hm; [|lia].
      specialize (M (String.length (String c r)) ltac:(simpl; lia)). lia.
Qed.

Lemma py_int_raises (s : string) (e : exn) :
  py_int s = Raise e -> e = ValueError.
Proof.
  unfold py_int.
  destruct (match int_strip s with EmptyString => _ | String _ _ => _ end);
    [discriminate|]. intros H; injection H as <-. reflexivity.
Qed.

Lemma datetime_new_raises (y m d hh mi ss : Z) (e : exn) :
  DT.datetime_new y m d hh mi ss = Raise e ->
  is_Exception e = true /\
  (forallb DT.fits_c_int [y; m; d; hh; mi; ss] = true -> e = ValueError).
Proof.
  unfold DT.datetime_new.
  destruct (forallb DT.fits_c_int [y; m; d; hh; mi; ss]); simpl.
  - destruct (DT.valid_date y m d && DT.valid_time hh mi ss 0);
      [discriminate|]. intros H; injection H as <-. auto.
  - intros H; injection H as <-. split; [reflexivity | discriminate].
Qed.

Lemma parse_time_only_raises (today : DT.date) (s : string) (e : exn) :
  parse_time_only today s = Raise e -> is_Exception e = true.
Proof.
  assert (B : forall (c : result Z) (k : Z -> result (option DT.datetime)),
            (forall e', c = Raise e' -> is_Exception e' = true) ->
            (forall x, k x = Raise e -> is_Exception e = true) ->
            Py.bind c k = Raise e -> is_Exception e = true).
  { intros c k Hc Hk. destruct c as [x|e']; simpl; [apply Hk|].
    intros H; injection H as <-. apply (Hc e'). reflexivity. }
  assert (I : forall t e', py_int t = Raise e' -> is_Exception e' = true).
  { intros t e' H. apply py_int_raises in H. subst e'. reflexivity. }
  assert (D : forall y m d hh mi ss,
            (dt <- DT.datetime_new y m d hh mi ss ;; Ok (Some dt)) = Raise e ->
            is_Exception e = true).
  { intros y m d hh mi ss.
    destruct (DT.datetime_new y m d hh mi ss) as [dt|e'] eqn:E; simpl;
      [discriminate|].
    intros H; injection H as <-. apply datetime_new_raises in E. apply E. }
  unfold parse_time_only.
  destruct (split ":" s) as [|a [|b [|c [|? ?]]]]; try discriminate.
  - apply B; [apply I|]. intros x. apply B; [apply I|]. intros z. apply D.
  - destruct (negb (contains " " s)); [|discriminate].
    apply B; [apply I|]. intros x. apply B; [apply I|]. intros z.
    apply B; [apply I|]. intros u. apply D.
Qed.

(** Every field [match_items] has found is at most four characters long. *)
Lemma match_items_short (fmt : list Strptime.item) :
  forall (s : string) (f f' : Strptime.found) (rest : string),
  short f = true ->
  Strptime.match_items fmt s f = Some (f', rest) -> short f' = true.
Proof.
  induction fmt as [|i fmt IH]; intros s f f' rest Hf H.
  - simpl in H. injection H as <- _. exact Hf.
  - assert (Alt : forall a txt r,
              In a (Strptime.alts i) ->
              Strptime.match_alt a s = Some (txt, r) ->
              short (Strptime.store i txt f) = true).
    { intros a txt r Hin Ha. apply match_alt_length in Ha.
      destruct Ha as [_ Ha].
      assert (Hl : (String.length txt <= 4)%nat).
      { rewrite Ha. clear -Hin. destruct i; simpl in Hin;
          repeat (destruct Hin as [<-|Hin]; [simpl; lia|]); destruct Hin. }
      unfold short in *. apply andb_true_iff in Hf; destruct Hf as [Hf H5].
      apply andb_true_iff in Hf; destruct Hf as [Hf H4].
      apply andb_true_iff in Hf; destruct Hf as [Hf H3].
      apply andb_true_iff in Hf; destruct Hf as [H1 H2].
      apply Nat.leb_le in Hl.
      destruct i; simpl; rewrite ?H1, ?H2, ?H3, ?H4, ?H5, ?Hl; reflexivity. }
    destruct i; cbn [Strptime.match_items] in H;
      try (apply first_some_inv in H; destruct H as [a [Hin Ha]];
           destruct (Strptime.match_alt a s) as [[txt r]|] eqn:E;
           [|discriminate];
           apply (IH _ _ _ _ (Alt a txt r Hin E) Ha)).
    apply first_some_inv in H. destruct H as [r [_ Hr]].
    apply (IH _ _ _ _ Hf Hr).
Qed.

Lemma strptime_raises (s : string) (fmt : list Strptime.item) (e : exn) :
  Strptime.strptime s fmt = Raise e -> e = ValueError.
Proof.
  unfold Strptime.strptime.
  destruct (Strptime.match_items fmt s _) as [[f rest]|] eqn:E;
    [|intros H; injection H as <-; reflexivity].
  apply match_items_short in E; [|reflexivity].
  destruct (negb (is_empty rest)); [intros H; injection H as <-; reflexivity|].
  unfold short in E. apply andb_true_iff in E; destruct E as [E H5].
  apply andb_true_iff in E; destruct E as [E H4].
  apply andb_true_iff in E; destruct E as [E H3].
  apply andb_true_iff in E; destruct E as [H1 H2].
  apply Nat.leb_le in H1, H2, H3, H4, H5.
  assert (F : forall t n, (String.length t <= 4)%nat -> py_int t = Ok n ->
            DT.fits_c_int n = true).
  { intros t n Ht Hn. apply py_int_bound in Hn.
    assert (10 ^ Z.of_nat (String.length t) <= 10 ^ 4)
      by (apply Z.pow_le_mono_r; lia).
    unfold DT.fits_c_int. apply andb_true_iff; split; apply Z.leb_le; lia. }
  destruct (py_int (Strptime.fY f)) as [y|e1] eqn:Ey;
    [|simpl; intros H; injection H as <-; eapply py_int_raises; eassumption].
  destruct (py_int (Strptime.fm f)) as [m|e1] eqn:Em;
    [|simpl; intros H; injection H as <-; eapply py_int_raises; eassumption].
  destruct (py_int (Strptime.fd f)) as [d|e1] eqn:Ed;
    [|simpl; intros H; injection H as <-; eapply py_int_raises; eassumption].
  destruct (py_int (Strptime.fH f)) as [hh|e1] eqn:Eh;
    [|simpl; intros H; injection H as <-; eapply py_int_raises; eassumption].
  destruct (py_int (Strptime.fM f)) as [mi|e1] eqn:Ei;
    [|simpl; intros H; injection H as <-; eapply py_int_raises; eassumption].
  simpl. intros H. apply datetime_new_raises in H. apply H.
  simpl. rewrite (F _ _ H1 Ey), (F _ _ H2 Em), (F _ _ H3 Ed),
    (F _ _ H4 Eh), (F _ _ H5 Ei). reflexivity.
Qed.

Lemma parse_dated_never_raises (s : string)
  (fmts : list (list Strptime.item)) :
  exists r, parse_dated s fmts = Ok r.
Proof.
  induction fmts as [|fmt fmts IH]; simpl; [eauto|].
  destruct (Strptime.strptime s fmt) as [dt|e] eqn:E; [eauto|].
  apply strptime_raises in E. subst e. exact IH.
Qed.

Lemma parse_datetime_never_raises (today : DT.date) (user_text : string) :
  exists r, parse_datetime today user_text = Ok r.
Proof.
  unfold parse_datetime.
  destruct (parse_dated_never_raises (strip user_text)
              [Strptime.fmt_iso; Strptime.fmt_dotted]) as [r Hr].
  destruct (parse_time_only today (strip user_text)) as [[dt|]|e] eqn:E;
    eauto.
  rewrite (parse_time_only_raises _ _ _ E). eauto.
Qed.

(** C6. For every hour 0..23 and minute 0..59 the text HH:MM parses to
    today's date at that hour and minute, zero seconds; a text HH:MM whose
    hour is 24..99 or whose minute is 60..99 (24:00, 12:60) parses to no
    result, [Ok None]; and no text at all makes [parse_datetime] raise. *)
Theorem parse_datetime_hhmm (today : DT.date) (h m : Z) :
  DT.valid_date (DT.d_year today) (DT.d_month today) (DT.d_day today) = true ->
  0 <= h < 100 -> 0 <= m < 100 ->
  (h <= 23 -> m <= 59 ->
   parse_datetime today (hhmm h m) =
   Ok (Some (DT.mkDT (DT.d_year today) (DT.d_month today) (DT.d_day today)
               h m 0 0))) /\
  (24 <= h \/ 60 <= m -> parse_datetime today (hhmm h m) = Ok None) /\
  parse_datetime today "24:00" = Ok None /\
  parse_datetime today "12:60" = Ok None /\
  (forall user_text, exists r, parse_datetime today user_text = Ok r).
Proof.
  intros Hv Hh Hm.
  assert (G : forall h m, 0 <= h < 100 -> 0 <= m < 100 ->
              24 <= h \/ 60 <= m -> parse_datetime today (hhmm h m) = Ok None).
  { clear h m Hh Hm. intros h m Hh Hm Hbad. unfold parse_datetime.
    rewrite hhmm_strip, parse_time_only_hhmm by assumption.
    fold dated_formats. rewrite hhmm_not_dated by assumption.
    destruct (datetime_new_bad_time (DT.d_year today) (DT.d_month today)
                (DT.d_day today) h m 0) as [e [E1 E2]].
    - unfold DT.valid_time.
      destruct Hbad.
      + replace (h <=? 23) with false by (symmetry; apply Z.leb_gt; lia).
        rewrite andb_false_r. reflexivity.
      + replace (m <=? 59) with false by (symmetry; apply Z.leb_gt; lia).
        rewrite !andb_false_r. reflexivity.
    - rewrite E1. simpl. rewrite E2. reflexivity. }
  split; [|split; [|split; [|split]]].
  - intros H23 H59. unfold parse_datetime.
    rewrite hhmm_strip, parse_time_only_hhmm by assumption.
    rewrite datetime_new_ok; [reflexivity | exact Hv |].
    unfold DT.valid_time.
    repeat (apply andb_true_iff; split); apply Z.leb_le; lia.
  - apply G; assumption.
  - apply (G 24 0); lia.
  - apply (G 12 60); lia.
  - apply parse_datetime_never_raises.
Qed.

Lemma parse_datetime_hhmm_witness :
  parse_datetime (DT.mkDate 2024 1 1) "09:05" =
    Ok (Some (DT.mkDT 2024 1 1 9 5 0 0)) /\
  parse_datetime (DT.mkDate 2024 1 1) "24:00" = Ok None.
Proof.
  pose proof (parse_datetime_hhmm (DT.mkDate 2024 1 1) 9 5) as H.
  destruct H as [H1 [_ [H2 _]]]; [reflexivity | lia | lia |].
  split; [apply H1; lia | exact H2].
Defined.

(** ** Scheduling from the dialog *)

Lemma dated_text_not_time_only (when_str : string) (w0 : DT.datetime) :
  parse_dated (strip when_str) dated_formats = Ok (Some w0) ->
  is_time_only when_str = false.
Proof.
  intros H. apply dated_text_length in H. unfold is_time_only.
  replace (Z.of_nat (String.length (strip when_str)) <=? 8) with false
    by (symmetry; apply Z.leb_gt; lia).
  apply andb_false_r.
Qed.

(** Setting the status touches nothing but the list of statuses. *)
Lemma set_status_frame (bar : Status -> bool) (a : App) (s : Status) :
  jobs (fst (set_status bar a s)) = jobs a /\
  job_tasks (fst (set_status bar a s)) = job_tasks a /\
  client_calls (fst (set_status bar a s)) = client_calls a /\
  log (fst (set_status bar a s)) = log a /\
  created (fst (set_status bar a s)) = created a.
Proof.
  unfold set_status. destruct (status_accepted bar s); repeat split.
Qed.

Lemma set_status_jobs (bar : Status -> bool) (a : App) (s : Status) :
  jobs (fst (set_status bar a s)) = jobs a.
Proof. apply set_status_frame. Qed.

Lemma set_status_calls (bar : Status -> bool) (a : App) (s : Status) :
  client_calls (fst (set_status bar a s)) = client_calls a.
Proof. apply set_status_frame. Qed.

Lemma set_status_ends (bar : Status -> bool) (a : App) (s : Status) :
  (status_accepted bar s = true ->
   set_status bar a s = (show_status a s, Ok tt)) /\
  (status_accepted bar s = false ->
   set_status bar a s = (a, Raise MarkupError)).
Proof.
  unfold set_status. split; intros ->; reflexivity.
Qed.

Lemma schedule_unfold (bar : Status -> bool) (today : DT.date)
  (now : DT.datetime) (a : App)
  (tgt : SendTarget) (when_str txt : string) (w w' : DT.datetime) :
  is_empty (strip txt) = false ->
  parse_datetime today when_str = Ok (Some w) ->
  (if is_time_only when_str && DT.leb w now
   then DT.add_one_day w else Ok w) = Ok w' ->
  schedule_message_from_ui bar today (Ok now) a tgt when_str txt =
  set_status bar
    (mkApp (jobs a ++ [mkJob tgt (strip txt) w'])
       (job_tasks a ++ [mkTask (created a) (mkJob tgt (strip txt) w')])
       (client_calls a) (statuses a) (log a) (S (created a)))
    (StatusScheduled (label tgt) w').
Proof.
  intros Ht Hp Hr. unfold schedule_message_from_ui.
  rewrite Ht, Hp, Hr. reflexivity.
Qed.

Lemma schedule_unfold_jobs (bar : Status -> bool) (today : DT.date)
  (now : DT.datetime) (a : App)
  (tgt : SendTarget) (when_str txt : string) (w w' : DT.datetime) :
  is_empty (strip txt) = false ->
  parse_datetime today when_str = Ok (Some w) ->
  (if is_time_only when_str && DT.leb w now
   then DT.add_one_day w else Ok w) = Ok w' ->
  jobs (fst (schedule_message_from_ui bar today (Ok now) a tgt when_str txt))
  = jobs a ++ [mkJob tgt (strip txt) w'].
Proof.
  intros Ht Hp Hr.
  rewrite (schedule_unfold bar today now a tgt when_str txt w w' Ht Hp Hr).
  exact (set_status_jobs _ _ _).
Qed.

(** C3, as the code has it. For a raw time text that parses to [w] (and a
    message text that is not blank), whatever the status bar makes of the
    label: when the raw text contains a colon, contains no space and is at
    most 8 characters long once trimmed, and [w] is not after corrected-now,
    the job is appended with a due time one calendar day after [w], at the
    same time of day, itself a date of the calendar, unless [w] falls on
    9999-12-31: then the addition raises [OverflowError] and nothing is
    appended or changed. In every other case the job is appended with [w]
    itself, and a text that parses under one of the two grammars with a date
    is always such a case. *)
Theorem schedule_time_only_rollover (bar : Status -> bool) (today : DT.date)
  (now : DT.datetime)
  (a : App) (tgt : SendTarget) (when_str txt : string) (w : DT.datetime) :
  is_empty (strip txt) = false ->
  parse_datetime today when_str = Ok (Some w) ->
  let r := schedule_message_from_ui bar today (Ok now) a tgt when_str txt in
  (contains ":" when_str = true -> contains " " when_str = false ->
   (String.length (strip when_str) <= 8)%nat ->
   DT.leb w now = true ->
   (DT.is_last_day w = false ->
    exists w', DT.add_one_day w = Ok w' /\ DT.valid w' = true /\
      DT.toordinal w' = DT.toordinal w + 1 /\
      DT.hour w' = DT.hour w /\ DT.minute w' = DT.minute w /\
      DT.second w' = DT.second w /\ DT.microsecond w' = DT.microsecond w /\
      jobs (fst r) = jobs a ++ [mkJob tgt (strip txt) w']) /\
   (DT.is_last_day w = true -> r = (a, Raise OverflowError))) /\
  (is_time_only when_str = false \/ DT.leb w now = false ->
   jobs (fst r) = jobs a ++ [mkJob tgt (strip txt) w]) /\
  (forall w0, parse_dated (strip when_str) dated_formats = Ok (Some w0) ->
   is_time_only when_str = false /\
   jobs (fst r) = jobs a ++ [mkJob tgt (strip txt) w]).
Proof.
  intros Ht Hp r.
  pose proof (parse_datetime_valid _ _ _ Hp) as Hv.
  assert (Same : is_time_only when_str = false \/ DT.leb w now = false ->
            jobs (fst r) = jobs a ++ [mkJob tgt (strip txt) w]).
  { intros Hc. subst r.
    apply (schedule_unfold_jobs bar today now a tgt when_str txt w w Ht Hp).
    destruct Hc as [Hc|Hc]; rewrite Hc; [|rewrite andb_false_r];
      reflexivity. }
  split; [|split].
  - intros Hcolon Hspace Hlen Hle.
    assert (Hto : is_time_only when_str && DT.leb w now = true).
    { unfold is_time_only. rewrite Hcolon, Hspace, Hle.
      replace (Z.of_nat (String.length (strip when_str)) <=? 8) with true
        by (symmetry; apply Z.leb_le; lia).
      reflexivity. }
    split.
    + intros Hlast.
      destruct (add_one_day_next w Hv Hlast)
        as [w' [Ha [Ho [H1 [H2 [H3 H4]]]]]].
      exists w'. split; [exact Ha|].
      split; [exact (add_one_day_valid w w' Hv Ha)|].
      repeat (split; [assumption|]).
      subst r.
      apply (schedule_unfold_jobs bar today now a tgt when_str txt w w' Ht Hp).
      rewrite Hto. exact Ha.
    + intros Hlast. subst r. unfold schedule_message_from_ui.
      rewrite Ht, Hp, Hto, (add_one_day_last w Hv Hlast). reflexivity.
  - exact Same.
  - intros w0 Hd. pose proof (dated_text_not_time_only _ _ Hd) as Hn.
    split; [exact Hn | apply Same; left; exact Hn].
Qed.

(** With corrected-now 2024-01-01 10:00:00, "09:00" is scheduled for
    2024-01-02 09:00:00 and "11:00" for 2024-01-01 11:00:00. *)
Lemma schedule_time_only_rollover_witness :
  let bar := fun _ : Status => true in
  let today := DT.mkDate 2024 1 1 in
  let now := DT.mkDT 2024 1 1 10 0 0 0 in
  let a := mkApp [] [] [] [] [] 0 in
  let tgt := mkTarget (mkDialog 7 "chat" "private" false 7) None None in
  jobs (fst (schedule_message_from_ui bar today (Ok now) a tgt "09:00"
               "hello")) =
    [mkJob tgt "hello" (DT.mkDT 2024 1 2 9 0 0 0)] /\
  jobs (fst (schedule_message_from_ui bar today (Ok now) a tgt "11:00"
               "hello")) =
    [mkJob tgt "hello" (DT.mkDT 2024 1 1 11 0 0 0)].
Proof.
  intros bar today now a tgt. split.
  - destruct (schedule_time_only_rollover bar today now a tgt "09:00" "hello"
                (DT.mkDT 2024 1 1 9 0 0 0) eq_refl eq_refl) as [H _].
    assert (L : (String.length (strip "09:00") <= 8)%nat) by (simpl; lia).
    destruct (H eq_refl eq_refl L eq_refl) as [H1 _].
    destruct (H1 eq_refl) as [w' [Ha [_ [_ [_ [_ [_ [_ Hj]]]]]]]].
    vm_compute in Ha. injection Ha as <-. exact Hj.
  - destruct (schedule_time_only_rollover bar today now a tgt "11:00" "hello"
                (DT.mkDT 2024 1 1 11 0 0 0) eq_refl eq_refl) as [_ [H _]].
    apply H. right. reflexivity.
Defined.

(** C3 as stated fails on the last day of the calendar. On 9999-12-31 at
    10:00:00 the text "09:00" parses to 09:00:00 of that day; it is
    time-only and not after corrected-now, but the due time cannot be
    advanced by a day: the call raises [OverflowError] and schedules
    nothing. *)
Lemma schedule_last_day_not_advanced :
  let bar := fun _ : Status => true in
  let today := DT.mkDate 9999 12 31 in
  let now := DT.mkDT 9999 12 31 10 0 0 0 in
  let a := mkApp [] [] [] [] [] 0 in
  let tgt := mkTarget (mkDialog 7 "chat" "private" false 7) None None in
  parse_datetime today "09:00" = Ok (Some (DT.mkDT 9999 12 31 9 0 0 0)) /\
  is_time_only "09:00" = true /\
  DT.leb (DT.mkDT 9999 12 31 9 0 0 0) now = true /\
  schedule_message_from_ui bar today (Ok now) a tgt "09:00" "hello" =
    (a, Raise OverflowError) /\
  jobs (fst (schedule_message_from_ui bar today (Ok now) a tgt "09:00"
               "hello")) = [].
Proof.
  cbv zeta. repeat split; vm_compute; reflexivity.
Qed.

(** ** Delivery *)

(** C4, as the code has it. Every call of [send_text_to_target] issues
    exactly one [send_message], to the parent conversation and with the text
    given, and ends as that call ends. The send carries the topic id as its
    reply target when the id is present and is neither 0 nor 1; it carries no
    reply target when the id is absent, 0 or 1, so that a target with id 1
    and a target with no id route alike. *)
Theorem send_text_to_target_routes (client : SendCall -> result unit)
  (tgt : SendTarget) (txt : string) :
  (exists c, send_text_to_target client tgt txt = ([c], client c) /\
     to_entity c = raw_entity (dialog tgt) /\ body c = txt /\
     (forall i, topic_id tgt = Some i -> i <> 0 -> i <> 1 ->
        reply_to c = Some i) /\
     (topic_id tgt = None \/ topic_id tgt = Some 0 \/ topic_id tgt = Some 1 ->
        reply_to c = None)) /\
  (forall title1 title2,
     send_text_to_target client (mkTarget (dialog tgt) (Some 1) title1) txt =
     send_text_to_target client (mkTarget (dialog tgt) None title2) txt).
Proof.
  split; [|reflexivity].
  unfold send_text_to_target.
  destruct (topic_id tgt) as [i|] eqn:E.
  - unfold truthy_int, differs_from_1.
    destruct (i =? 0) eqn:E0; destruct (i =? 1) eqn:E1; cbn [negb andb];
      bool_to_prop; eexists; (split; [reflexivity|]); cbn;
      repeat split; try congruence;
      try (intros j Hj; injection Hj as <-; congruence);
      try (intros [H|[H|H]]; congruence).
  - eexists; split; [reflexivity|]. cbn.
    repeat split; try congruence.
Qed.

(** C4 as stated fails: the id 0 is present and is not 1, and the send is
    a plain one all the same. *)
Lemma send_text_to_target_id_0_plain :
  let d := mkDialog 7 "forum" "group" true 7 in
  let tgt := mkTarget d (Some 0) None in
  topic_id tgt = Some 0 /\ 0 <> 1 /\
  fst (send_text_to_target (fun _ => Ok tt) tgt "hi") = [mkSend 7 "hi" None] /\
  fst (send_text_to_target (fun _ => Ok tt) tgt "hi")
    <> [mkSend 7 "hi" (Some 0)].
Proof.
  cbv zeta. repeat split; try reflexivity; try lia.
  intros H. discriminate H.
Qed.

(** ** Execution units and the cleanup sweep *)

(** C8. A unit whose due time is still ahead sleeps; when it is cancelled
    during that sleep it returns normally and leaves the application as it
    found it: no [send_message] call, no status, no exception. *)
Theorem run_job_cancelled_while_suspended (w : JobWorld) (a : App)
  (job : ScheduledJob) (now : DT.datetime) :
  job_clock w = Ok now ->
  DT.to_us now < DT.to_us (when job) ->
  job_sleep w (DT.to_us (when job) - DT.to_us now) = Raise CancelledError ->
  _run_job w a job = (a, Ok tt) /\
  client_calls (fst (_run_job w a job)) = client_calls a /\
  statuses (fst (_run_job w a job)) = statuses a /\
  snd (_run_job w a job) = Ok tt.
Proof.
  intros Hc Hd Hs.
  assert (E : _run_job w a job = (a, Ok tt)).
  { unfold _run_job. rewrite Hc.
    replace (0 <? DT.to_us (when job) - DT.to_us now) with true
      by (symmetry; apply Z.ltb_lt; lia).
    rewrite Hs. reflexivity. }
  rewrite E. repeat split.
Qed.

Lemma run_job_cancelled_while_suspended_witness :
  let tgt := mkTarget (mkDialog 7 "chat" "private" false 7) None None in
  let job := mkJob tgt "hello" (DT.mkDT 2024 1 1 11 0 0 0) in
  let w := mkJobWorld (Ok (DT.mkDT 2024 1 1 10 0 0 0))
             (fun _ => Raise CancelledError) (fun _ => Ok tt)
             (fun _ => true) in
  let a := mkApp [job] [mkTask 0 job] [] [] [] 1 in
  _run_job w a job = (a, Ok tt).
Proof.
  intros tgt job w a.
  refine (proj1 (run_job_cancelled_while_suspended w a job
                   (DT.mkDT 2024 1 1 10 0 0 0) eq_refl _ eq_refl)).
  vm_compute. reflexivity.
Defined.

Lemma run_job_keeps_jobs (w : JobWorld) (a : App) (job : ScheduledJob) :
  jobs (fst (_run_job w a job)) = jobs a.
Proof.
  unfold _run_job.
  destruct (job_clock w) as [now|e]; [|reflexivity].
  destruct (if 0 <? _ then _ else _) as [u|e].
  - unfold send_text_to_target.
    destruct (truthy_int _ && differs_from_1 _);
      match goal with
      | |- context [job_client w ?c] => destruct (job_client w c) as [u'|e]
      end;
      first [exact (set_status_jobs _ _ _)
            | destruct (is_Exception e);
              [exact (set_status_jobs _ _ _) | reflexivity]].
  - destruct e; reflexivity.
Qed.

(** *** The sweep loop and exceptions *)

Section SweepTasks.

Variable st : Task -> TaskState.
Hypothesis only_exceptions :
  forall t e, st t = Finished (Raise e) -> is_Exception e = true.

Lemma sweep_tasks_runs (tasks active : list Task) (lg : list LogEntry) :
  exists lg' active', sweep_tasks st tasks active lg = (lg', Ok active').
Proof.
  revert active lg. induction tasks as [|t tasks IH]; intros active lg.
  - simpl. eauto.
  - simpl. destruct (st t) as [|[u|e]] eqn:E; try apply IH.
    rewrite (only_exceptions t e E). apply IH.
Qed.

Lemma sweep_tasks_keeps_log (tasks active : list Task) (lg : list LogEntry)
  (x : LogEntry) :
  In x lg -> In x (fst (sweep_tasks st tasks active lg)).
Proof.
  revert active lg. induction tasks as [|t tasks IH]; intros active lg Hx.
  - exact Hx.
  - simpl. destruct (st t) as [|[u|e]] eqn:E; try (apply IH; exact Hx).
    rewrite (only_exceptions t e E). apply IH.
    apply in_or_app. left. exact Hx.
Qed.

Lemma sweep_tasks_logs (tasks active : list Task) (lg : list LogEntry)
  (t : Task) (e : exn) :
  In t tasks -> st t = Finished (Raise e) ->
  In (LogTaskError e) (fst (sweep_tasks st tasks active lg)).
Proof.
  revert active lg. induction tasks as [|t' tasks IH]; intros active lg Hin Hst.
  - destruct Hin.
  - destruct Hin as [->|Hin].
    + simpl. rewrite Hst, (only_exceptions t e Hst).
      apply sweep_tasks_keeps_log. apply in_or_app. right. left. reflexivity.
    + simpl. destruct (st t') as [|[u|e']] eqn:E; try (apply IH; assumption).
      rewrite (only_exceptions t' e' E). apply IH; assumption.
Qed.

End SweepTasks.

Lemma sweep_calm (w : SweepWorld) (a : App) :
  calm w -> snd (sweep w a) = Ok tt.
Proof.
  intros [Hs [[now Hc] Ht]]. unfold sweep. rewrite Hs.
  destruct (sweep_tasks_runs (sweep_task w) Ht (job_tasks a) [] (log a))
    as [lg [active E]].
  rewrite E, Hc. reflexivity.
Qed.

Lemma sweep_calm_logs (w : SweepWorld) (a : App) (t : Task) (e : exn) :
  calm w -> In t (job_tasks a) -> sweep_task w t = Finished (Raise e) ->
  In (LogTaskError e) (log (fst (sweep w a))).
Proof.
  intros [Hs [[now Hc] Ht]] Hin Hst. unfold sweep. rewrite Hs.
  pose proof (sweep_tasks_logs (sweep_task w) Ht (job_tasks a) [] (log a)
                t e Hin Hst) as L.
  destruct (sweep_tasks (sweep_task w) (job_tasks a) [] (log a))
    as [lg [active|e']]; rewrite ?Hc; exact L.
Qed.

(** C10. [_run_job] leaves the list of pending jobs as it is, however it
    ends: after a delivery, after a failed delivery, after a cancellation.
    [schedule_message_from_ui] only appends to the list. A sweep that runs to
    its end keeps exactly the jobs that are due strictly after corrected-now,
    in their order; a sweep that is cut short leaves the list as it is. A
    calm sweep, one whose sleep returns, whose clock answers and that finds
    no unit cancelled, does run to its end, so it leaves exactly the jobs
    due after the reading of its clock. *)
Theorem jobs_removed_only_by_sweep :
  (forall w a job, jobs (fst (_run_job w a job)) = jobs a) /\
  (forall bar today clock a tgt when_str txt,
     exists added,
       jobs (fst (schedule_message_from_ui bar today clock a tgt when_str
                    txt)) =
       jobs a ++ added) /\
  (forall w a,
     jobs (fst (sweep w a)) =
     match snd (sweep w a), sweep_clock w with
     | Ok _, Ok now => filter (fun j => DT.gtb (when j) now) (jobs a)
     | _, _ => jobs a
     end) /\
  (forall w a now j,
     snd (sweep w a) = Ok tt -> sweep_clock w = Ok now ->
     (In j (jobs (fst (sweep w a))) <->
      In j (jobs a) /\ DT.compare (when j) now = Gt)) /\
  (forall w a now,
     calm w -> sweep_clock w = Ok now ->
     snd (sweep w a) = Ok tt /\
     jobs (fst (sweep w a)) = filter (fun j => DT.gtb (when j) now) (jobs a)).
Proof.
  assert (S : forall w a,
     jobs (fst (sweep w a)) =
     match snd (sweep w a), sweep_clock w with
     | Ok _, Ok now => filter (fun j => DT.gtb (when j) now) (jobs a)
     | _, _ => jobs a
     end).
  { intros w a. unfold sweep.
    destruct (sweep_sleep w) as [u|e]; [|reflexivity].
    destruct (sweep_tasks _ _ _ _) as [lg [active|e]]; [|reflexivity].
    destruct (sweep_clock w) as [now|e]; reflexivity. }
  split; [exact run_job_keeps_jobs|].
  split; [|split; [exact S|split]].
  - intros bar today clock a tgt when_str txt.
    unfold schedule_message_from_ui.
    destruct (is_empty (strip txt)).
    { exists []. rewrite app_nil_r. exact (set_status_jobs _ _ _). }
    destruct (parse_datetime today when_str) as [[w|]|e];
      try (exists []; rewrite app_nil_r; first
             [exact (set_status_jobs _ _ _) | reflexivity]).
    destruct clock as [now|e];
      try (exists []; rewrite app_nil_r; reflexivity).
    destruct (is_time_only when_str && DT.leb w now);
      [destruct (DT.add_one_day w) as [w'|e]|];
      try (exists []; rewrite app_nil_r; reflexivity);
      eexists; exact (set_status_jobs _ _ _).
  - intros w a now j Hok Hclock. rewrite S, Hok, Hclock.
    rewrite filter_In. unfold DT.gtb.
    destruct (DT.compare (when j) now); intuition congruence.
  - intros w a now Hcalm Hclock.
    pose proof (sweep_calm w a Hcalm) as Hok.
    split; [exact Hok|]. rewrite S, Hok, Hclock. reflexivity.
Qed.

(** A calm sweep at 10:00:00 drops the job that was due at 09:00:00 and
    keeps the one due at 11:00:00. *)
Lemma jobs_removed_only_by_sweep_witness :
  let tgt := mkTarget (mkDialog 7 "chat" "private" false 7) None None in
  let due := mkJob tgt "first" (DT.mkDT 2024 1 1 9 0 0 0) in
  let ahead := mkJob tgt "second" (DT.mkDT 2024 1 1 11 0 0 0) in
  let a := mkApp [due; ahead] [mkTask 0 due; mkTask 1 ahead] [] [] [] 2 in
  let w := mkSweepWorld (Ok tt) (fun _ => Pending)
             (Ok (DT.mkDT 2024 1 1 10 0 0 0)) in
  calm w /\ snd (sweep w a) = Ok tt /\ jobs (fst (sweep w a)) = [ahead].
Proof.
  intros tgt due ahead a w.
  assert (C : calm w).
  { split; [reflexivity|]. split; [eexists; reflexivity|].
    intros t e H. discriminate H. }
  split; [exact C|].
  destruct jobs_removed_only_by_sweep as [_ [_ [_ [_ H]]]].
  exact (H w a (DT.mkDT 2024 1 1 10 0 0 0) C eq_refl).
Defined.

Lemma cleanup_loop_app (ws1 ws2 : list SweepWorld) (a : App) :
  Forall calm ws1 ->
  snd (_cleanup_loop ws1 a) = StillRunning /\
  _cleanup_loop (ws1 ++ ws2) a = _cleanup_loop ws2 (fst (_cleanup_loop ws1 a)).
Proof.
  intros H. revert a. induction H as [|w ws1 Hw _ IH]; intros a.
  - split; reflexivity.
  - pose proof (sweep_calm w a Hw) as E. simpl.
    destruct (sweep w a) as [a' r]. simpl in E. subst r. apply IH.
Qed.

(** C2, as the code has it. While no sweep raises, the loop stays in its
    [while True] ([ws1]); the exception a finished unit ended with is logged
    by the sweep that awaits it and does not end the sweep. An exception
    raised inside a sweep ([w]) is logged and raised again: the loop ends
    with it and the sweeps that would follow ([ws2]) never run. A
    cancellation ends the loop by a plain return, with nothing logged. *)
Theorem cleanup_loop_exception_ends_loop (ws1 ws2 : list SweepWorld)
  (w : SweepWorld) (a : App) :
  Forall calm ws1 ->
  let a1 := fst (_cleanup_loop ws1 a) in
  let r := _cleanup_loop (ws1 ++ w :: ws2) a in
  snd (_cleanup_loop ws1 a) = StillRunning /\
  (forall w0 a0 t e0,
     calm w0 -> In t (job_tasks a0) ->
     sweep_task w0 t = Finished (Raise e0) ->
     In (LogTaskError e0) (log (fst (sweep w0 a0))) /\
     snd (sweep w0 a0) = Ok tt) /\
  (forall e, snd (sweep w a1) = Raise e -> is_Exception e = true ->
     snd r = Raised e /\
     log (fst r) = log (fst (sweep w a1)) ++ [LogCleanupError e] /\
     jobs (fst r) = jobs (fst (sweep w a1)) /\
     r = _cleanup_loop (ws1 ++ [w]) a) /\
  (snd (sweep w a1) = Raise CancelledError ->
     snd r = Returned /\ fst r = fst (sweep w a1)).
Proof.
  intros Hcalm a1 r.
  destruct (cleanup_loop_app ws1 (w :: ws2) a Hcalm) as [Hrun E2].
  destruct (cleanup_loop_app ws1 [w] a Hcalm) as [_ E1].
  split; [exact Hrun|]. split; [|split].
  - intros w0 a0 t e0 Hc Hin Hst. split.
    + apply sweep_calm_logs with (t := t); assumption.
    + apply sweep_calm; assumption.
  - intros e He Hexc. subst r. rewrite E2, E1. fold a1. simpl.
    destruct (sweep w a1) as [a' res]. simpl in He. subst res.
    destruct e; try discriminate Hexc; simpl; repeat split; reflexivity.
  - intros He. subst r. rewrite E2. fold a1. simpl.
    destruct (sweep w a1) as [a' res]. simpl in He. subst res.
    split; reflexivity.
Qed.

Lemma cleanup_loop_exception_ends_loop_witness :
  let tgt := mkTarget (mkDialog 7 "chat" "private" false 7) None None in
  let job := mkJob tgt "hello" (DT.mkDT 2024 1 1 9 0 0 0) in
  let a := mkApp [job] [mkTask 0 job] [] [] [] 1 in
  let w1 := mkSweepWorld (Ok tt)
              (fun _ => Finished (Raise (OtherError "RPCError")))
              (Ok (DT.mkDT 2024 1 1 8 0 0 0)) in
  let w2 := mkSweepWorld (Ok tt) (fun _ => Pending) (Raise OverflowError) in
  let w3 := mkSweepWorld (Ok tt) (fun _ => Pending)
              (Ok (DT.mkDT 2024 1 1 10 0 0 0)) in
  Forall calm [w1] /\
  snd (_cleanup_loop [w1] a) = StillRunning /\
  snd (_cleanup_loop ([w1] ++ w2 :: [w3]) a) = Raised OverflowError.
Proof.
  intros tgt job a w1 w2 w3.
  assert (C : Forall calm [w1]).
  { constructor; [|constructor]. split; [reflexivity|]. split.
    - eexists. reflexivity.
    - intros t e H. injection H as <-. reflexivity. }
  split; [exact C|].
  destruct (cleanup_loop_exception_ends_loop [w1] [w3] w2 a C)
    as [H1 [_ [H2 _]]].
  split; [exact H1|].
  exact (proj1 (H2 OverflowError eq_refl eq_refl)).
Defined.

(** C2 as stated fails. No world here cancels the loop; the clock fails once,
    in the first sweep; the loop ends with that exception, and the second
    sweep, which would have dropped the job that is overdue, never runs. *)
Lemma cleanup_loop_stops_after_exception :
  let tgt := mkTarget (mkDialog 7 "chat" "private" false 7) None None in
  let job := mkJob tgt "hello" (DT.mkDT 2024 1 1 9 0 0 0) in
  let a := mkApp [job] [] [] [] [] 1 in
  let failing :=
    mkSweepWorld (Ok tt) (fun _ => Pending) (Raise OverflowError) in
  let later := mkSweepWorld (Ok tt) (fun _ => Pending)
                 (Ok (DT.mkDT 2024 1 1 10 0 0 0)) in
  sweep_sleep failing = Ok tt /\ sweep_sleep later = Ok tt /\
  _cleanup_loop [failing; later] a =
    (log_error a (LogCleanupError OverflowError), Raised OverflowError) /\
  snd (_cleanup_loop [failing; later] a) <> StillRunning /\
  jobs (fst (_cleanup_loop [failing; later] a)) = [job] /\
  jobs (fst (_cleanup_loop [later] a)) = [].
Proof.
  cbv zeta. repeat split; try reflexivity.
  intros H. discriminate H.
Qed.

(** ** The order of the returned topics *)

Lemma ascii_compare_lt_trans (x y z : ascii) :
  Ascii.compare x y = Lt -> Ascii.compare y z = Lt -> Ascii.compare x z = Lt.
Proof.
  unfold Ascii.compare. rewrite !N.compare_lt_iff. lia.
Qed.

Lemma string_compare_lt_trans (a b c : string) :
  String.compare a b = Lt -> String.compare b c = Lt -> String.compare a c = Lt.
Proof.
  revert b c. induction a as [|x a IH]; intros [|y b] [|z c]; simpl;
    try congruence.
  destruct (Ascii.compare x y) eqn:Exy; try discriminate;
    destruct (Ascii.compare y z) eqn:Eyz; try discriminate; intros H1 H2.
  - apply Ascii.compare_eq_iff in Exy, Eyz. subst y z.
    replace (Ascii.compare x x) with Eq
      by (symmetry; unfold Ascii.compare; apply N.compare_refl).
    eapply IH; eassumption.
  - apply Ascii.compare_eq_iff in Exy. subst y. rewrite Eyz. reflexivity.
  - apply Ascii.compare_eq_iff in Eyz. subst z. rewrite Exy. reflexivity.
  - rewrite (ascii_compare_lt_trans x y z Exy Eyz). reflexivity.
Qed.

Lemma string_ltb_false_leb (a b : string) :
  String.ltb b a = false <-> String.leb a b = true.
Proof.
  unfold String.ltb, String.leb. rewrite (String.compare_antisym b a).
  destruct (String.compare a b); simpl; split; congruence.
Qed.

Lemma string_compare_refl (a : string) : String.compare a a = Eq.
Proof.
  induction a as [|x a IH]; simpl; [reflexivity|].
  replace (Ascii.compare x x) with Eq
    by (symmetry; unfold Ascii.compare; apply N.compare_refl).
  exact IH.
Qed.

Lemma string_leb_trans (a b c : string) :
  String.leb a b = true -> String.leb b c = true -> String.leb a c = true.
Proof.
  unfold String.leb.
  destruct (String.compare a b) eqn:Eab; try discriminate;
    destruct (String.compare b c) eqn:Ebc; try discriminate; intros _ _.
  - apply String.compare_eq_iff in Eab, Ebc. rewrite Eab, Ebc.
    rewrite string_compare_refl. reflexivity.
  - apply String.compare_eq_iff in Eab. rewrite Eab, Ebc. reflexivity.
  - apply String.compare_eq_iff in Ebc. rewrite <- Ebc, Eab. reflexivity.
  - rewrite (string_compare_lt_trans a b c Eab Ebc). reflexivity.
Qed.

(** The comparison the sort makes, [key y < key x] being false, is the
    order of the design. *)
Lemma key_ltb_false (x y : TopicInfo) :
  key_ltb (sort_key y) (sort_key x) = false <-> topics_le x y.
Proof.
  unfold key_ltb, sort_key, topics_le. cbn [fst snd].
  rewrite <- string_ltb_false_leb.
  destruct (pinned x), (pinned y); cbn [negb]; intuition congruence.
Qed.

Lemma key_ltb_true (x y : TopicInfo) :
  key_ltb (sort_key x) (sort_key y) = true -> topics_le x y.
Proof.
  unfold key_ltb, sort_key, topics_le. cbn [fst snd].
  destruct (pinned x), (pinned y); cbn [negb]; try discriminate; auto;
    intros H; right; (split; [reflexivity|]);
    unfold String.ltb in H; unfold String.leb;
    destruct (String.compare _ _); congruence.
Qed.

Lemma topics_le_trans (x y z : TopicInfo) :
  topics_le x y -> topics_le y z -> topics_le x z.
Proof.
  unfold topics_le.
  intros [[H1 H2]|[H1 H2]] [[H3 H4]|[H3 H4]]; try congruence.
  - left. split; congruence.
  - left. split; congruence.
  - right. split; [congruence|]. eapply string_leb_trans; eassumption.
Qed.

Lemma insert_sorted_perm (x : TopicInfo) (l : list TopicInfo) :
  Permutation (insert_sorted x l) (x :: l).
Proof.
  induction l as [|y l IH]; simpl; [reflexivity|].
  destruct (key_ltb (sort_key x) (sort_key y)); [reflexivity|].
  rewrite IH. apply perm_swap.
Qed.

Lemma insert_sorted_sorted (x : TopicInfo) (l : list TopicInfo) :
  StronglySorted topics_le l -> StronglySorted topics_le (insert_sorted x l).
Proof.
  induction 1 as [|y l Hs IH Hall]; simpl.
  - constructor; constructor.
  - destruct (key_ltb (sort_key x) (sort_key y)) eqn:E.
    + apply key_ltb_true in E.
      constructor; [constructor; assumption|].
      constructor; [exact E|].
      eapply Forall_impl; [|exact Hall].
      intros z Hz. eapply topics_le_trans; eassumption.
    + apply key_ltb_false in E.
      constructor; [exact IH|].
      eapply Permutation_Forall; [symmetry; apply insert_sorted_perm|].
      constructor; assumption.
Qed.

Lemma sort_topics_from (l acc : list TopicInfo) :
  StronglySorted topics_le acc ->
  StronglySorted topics_le (fold_left (fun a x => insert_sorted x a) l acc) /\
  Permutation (fold_left (fun a x => insert_sorted x a) l acc) (acc ++ l).
Proof.
  revert acc. induction l as [|x l IH]; intros acc Hs; simpl.
  - rewrite app_nil_r. split; [exact Hs | reflexivity].
  - destruct (IH (insert_sorted x acc) (insert_sorted_sorted x acc Hs))
      as [H1 H2].
    split; [exact H1|]. rewrite H2, insert_sorted_perm.
    simpl. apply Permutation_middle.
Qed.

Lemma sort_topics_spec (l : list TopicInfo) :
  StronglySorted topics_le (sort_topics l) /\ Permutation (sort_topics l) l.
Proof.
  destruct (sort_topics_from l [] (SSorted_nil _)) as [H1 H2].
  split; assumption.
Qed.

(** ** The pagination loop *)

Lemma collect_spec (l : list RawTopic) :
  collect l = map topic_info_of (filter has_title l).
Proof.
  induction l as [|t l IH]; simpl; [reflexivity|].
  unfold has_title. destruct (truthy_str (rt_title t)); simpl; rewrite IH;
    reflexivity.
Qed.

Lemma collect_app (l1 l2 : list RawTopic) :
  collect (l1 ++ l2) = collect l1 ++ collect l2.
Proof.
  rewrite !collect_spec, filter_app, map_app. reflexivity.
Qed.

Lemma fetched_app (xs ys : list Exchange) :
  fetched (xs ++ ys) = fetched xs ++ fetched ys.
Proof.
  induction xs as [|[rq [res|e]] xs IH]; simpl; rewrite ?IH, ?app_assoc;
    reflexivity.
Qed.

Lemma last_msg_date_spec (messages : list RawMessage) (oid : Z) :
  last_msg_date messages oid = date_of_message_with_id messages oid.
Proof.
  unfold date_of_message_with_id.
  induction messages as [|m messages IH]; simpl; [reflexivity|].
  destruct (rm_id m) as [i|]; [destruct (i =? oid)|];
    try reflexivity; exact IH.
Qed.

Lemma process_page_collects (limit : Z) (res : Response)
  (all_topics : list TopicInfo) :
  match process_page limit res all_topics with
  | Break all' => all' = all_topics ++ collect (res_topics res)
  | Continue _ all' => all' = all_topics ++ collect (res_topics res)
  end.
Proof.
  unfold process_page. destruct (res_topics res) as [|t l] eqn:E.
  - simpl. symmetry. apply app_nil_r.
  - destruct (Z.of_nat (List.length (t :: l)) <? limit); reflexivity.
Qed.

Lemma last_topic_is_last (topics : list RawTopic) :
  topics <> [] -> exists before, topics = before ++ [last_topic topics].
Proof.
  intros H. destruct (exists_last H) as [before [x E]].
  exists before. unfold last_topic. rewrite E at 2.
  rewrite last_last. exact E.
Qed.

Section PaginatorFacts.

Variable Server : Type.
Variable call : Server -> Request -> Server * result Response.
Variable peer : Entity.
Variable limit : Z.


Lemma fetch_loop_extends (fuel : nat) :
  forall srv c acc done,
  exists more,
    exchanges (fetch_loop Server call peer limit fuel srv c acc done)
    = done ++ more.
Proof.
  induction fuel as [|fuel IH]; intros srv c acc done.
  - exists []. simpl. symmetry. apply app_nil_r.
  - simpl.
    destruct (call srv (request_of peer limit c)) as [srv' [res|e]].
    + destruct (process_page limit res acc) as [all'|c' all'].
      * eexists. reflexivity.
      * destruct (IH srv' c' all' (done ++ [(request_of peer limit c, Ok res)]))
          as [more E].
        exists ((request_of peer limit c, Ok res) :: more).
        rewrite E, <- app_assoc. reflexivity.
    + eexists. reflexivity.
Qed.

Lemma fetch_loop_first (fuel : nat) (srv : Server) (c : Cursor)
  (acc : list TopicInfo) (done : list Exchange) :
  nth_error
    (exchanges (fetch_loop Server call peer limit (S fuel) srv c acc done))
    (List.length done) =
  Some (request_of peer limit c, snd (call srv (request_of peer limit c))).
Proof.
  simpl.
  destruct (call srv (request_of peer limit c)) as [srv' [res|e]]; simpl.
  - destruct (process_page limit res acc) as [all'|c' all'].
    + unfold exchanges. simpl. rewrite nth_error_app2 by lia.
      rewrite Nat.sub_diag. reflexivity.
    + destruct (fetch_loop_extends fuel srv' c' all'
                  (done ++ [(request_of peer limit c, Ok res)])) as [more E].
      rewrite E, <- app_assoc.
      rewrite nth_error_app2 by lia. rewrite Nat.sub_diag. reflexivity.
  - unfold exchanges. simpl. rewrite nth_error_app2 by lia.
    rewrite Nat.sub_diag. reflexivity.
Qed.

Lemma fetch_loop_returns (fuel : nat) :
  forall srv c acc done srv' xs topics,
  fetch_loop Server call peer limit fuel srv c acc done
    = (srv', xs, Returns topics) ->
  acc = collect (fetched done) ->
  topics = sort_topics (collect (fetched xs)).
Proof.
  induction fuel as [|fuel IH]; intros srv c acc done srv' xs topics H Hacc.
  - discriminate H.
  - simpl in H.
    destruct (call srv (request_of peer limit c)) as [srv1 [res|e]];
      [|discriminate H].
    pose proof (process_page_collects limit res acc) as P.
    assert (F : acc ++ collect (res_topics res) =
                collect
                  (fetched (done ++ [(request_of peer limit c, Ok res)]))).
    { rewrite fetched_app, collect_app. simpl.
      rewrite app_nil_r, Hacc. reflexivity. }
    destruct (process_page limit res acc) as [all'|c' all'].
    + injection H as _ <- <-. rewrite P, F. reflexivity.
    + apply (IH _ _ _ _ _ _ _ H). rewrite P. exact F.
Qed.

End PaginatorFacts.

Lemma sorted_positions {A : Type} (R : A -> A -> Prop) (l : list A) :
  StronglySorted R l ->
  forall i j x y, (i < j)%nat ->
    nth_error l i = Some x -> nth_error l j = Some y -> R x y.
Proof.
  induction 1 as [|a l Hs IH Hall]; intros i j x y Hij Hx Hy.
  - destruct i; discriminate Hx.
  - destruct j as [|j]; [lia|]. simpl in Hy.
    destruct i as [|i]; simpl in Hx.
    + injection Hx as <-. rewrite Forall_forall in Hall.
      apply Hall. eapply nth_error_In. exact Hy.
    + apply (IH i j); [lia | assumption | assumption].
Qed.

(** C7. When [get_all_forum_topics] returns, the list it returns holds one
    entry for every fetched topic that has a title and none for the others
    (it is a permutation of those entries, so it has as many), and it is
    sorted: of two entries the earlier one is pinned and the later one not,
    or both are in the same group and the lower-cased title of the earlier
    one is not greater. *)
Theorem returned_topics_sorted (Server : Type)
  (call : Server -> Request -> Server * result Response)
  (peer : Entity) (limit : Z) (fuel : nat) (srv srv' : Server)
  (xs : list Exchange) (topics : list TopicInfo) :
  get_all_forum_topics Server call peer limit fuel srv
    = (srv', xs, Returns topics) ->
  Permutation topics (map topic_info_of (filter has_title (fetched xs))) /\
  List.length topics = List.length (filter has_title (fetched xs)) /\
  StronglySorted topics_le topics /\
  (forall i j x y, (i < j)%nat ->
     nth_error topics i = Some x -> nth_error topics j = Some y ->
     (pinned y = true -> pinned x = true) /\
     (pinned x = pinned y ->
      String.leb (lower (title x)) (lower (title y)) = true)).
Proof.
  intros H. unfold get_all_forum_topics in H.
  apply fetch_loop_returns in H; [|reflexivity]. subst topics.
  destruct (sort_topics_spec (collect (fetched xs))) as [Hs Hp].
  split; [rewrite <- collect_spec; exact Hp|]. split; [|split; [exact Hs|]].
  - rewrite (Permutation_length Hp), collect_spec. apply length_map.
  - intros i j x y Hij Hx Hy.
    pose proof (sorted_positions topics_le _ Hs i j x y Hij Hx Hy) as L.
    unfold topics_le in L. split.
    + intros Hy1. destruct L as [[L1 L2]|[L1 L2]]; congruence.
    + intros He. destruct L as [[L1 L2]|[L1 L2]]; congruence.
Qed.

Lemma returned_topics_sorted_witness :
  exists xs topics,
    get_all_forum_topics unit (forum_server demo_forum demo_messages) 7 3 5 tt
      = (tt, xs, Returns topics) /\
    map title topics = ["zeta"; "Alpha"; "beta"]%string /\
    StronglySorted topics_le topics /\
    List.length topics = List.length (filter has_title (fetched xs)).
Proof.
  eassert (H : get_all_forum_topics unit
                 (forum_server demo_forum demo_messages) 7 3 5 tt
               = (tt, _, Returns _)) by (vm_compute; reflexivity).
  destruct (returned_topics_sorted _ _ _ _ _ _ _ _ _ H) as [_ [HL [HS _]]].
  eexists. eexists. split; [exact H|].
  split; [reflexivity|]. split; [exact HS | exact HL].
Defined.

(** C5. After a full page (as many topics as the page size, which is
    positive) the loop goes on with a cursor taken from the last topic of the
    page: [offset_topic] is its id and [offset_id] its top message id (0 when
    the attribute is absent), [offset_date] is the date of the message of the
    page whose id is [offset_id], [None] when there is none; the next request
    carries that cursor. After a page with fewer topics than the page size
    the loop stops: no cursor is made and no further request is sent. *)
Theorem next_cursor_from_last_topic (Server : Type)
  (call : Server -> Request -> Server * result Response)
  (peer : Entity) (limit : Z) (fuel : nat) (srv srv' : Server) (c : Cursor)
  (res : Response) (all_topics : list TopicInfo) (done : list Exchange) :
  0 < limit ->
  call srv (request_of peer limit c) = (srv', Ok res) ->
  let topics := res_topics res in
  let last := last_topic topics in
  let o_id := int_or_0 (rt_top_message last) in
  let next := mkCursor (date_of_message_with_id (res_messages res) o_id)
                o_id (int_or_0 (rt_id last)) in
  let done' := done ++ [(request_of peer limit c, Ok res)] in
  (Z.of_nat (List.length topics) = limit ->
     (exists before, topics = before ++ [last]) /\
     process_page limit res all_topics =
       Continue next (all_topics ++ collect topics) /\
     fetch_loop Server call peer limit (S fuel) srv c all_topics done =
       fetch_loop Server call peer limit fuel srv' next
         (all_topics ++ collect topics) done' /\
     nth_error
       (exchanges (fetch_loop Server call peer limit (S (S fuel)) srv c
                     all_topics done))
       (S (List.length done)) =
     Some (mkRequest peer (offset_date next) (offset_id next)
             (offset_topic next) limit,
           snd (call srv' (request_of peer limit next)))) /\
  (Z.of_nat (List.length topics) < limit ->
     (exists all', process_page limit res all_topics = Break all') /\
     forall fuel',
       exchanges (fetch_loop Server call peer limit (S fuel') srv c
                    all_topics done) = done' /\
       exists result,
         outcome (fetch_loop Server call peer limit (S fuel') srv c
                    all_topics done) = Returns result).
Proof.
  intros Hpos Hcall topics last o_id next done'.
  assert (Full : Z.of_nat (List.length topics) = limit ->
            process_page limit res all_topics =
            Continue next (all_topics ++ collect topics)).
  { intros Hlen. unfold process_page. fold topics.
    destruct topics as [|t l] eqn:E; [simpl in Hlen; lia|].
    rewrite <- E.
    replace (Z.of_nat (List.length topics) <? limit) with false
      by (symmetry; apply Z.ltb_ge; rewrite E; lia).
    rewrite last_msg_date_spec. subst next o_id last. rewrite E.
    reflexivity. }
  assert (Short : Z.of_nat (List.length topics) < limit ->
            exists all', process_page limit res all_topics = Break all').
  { intros Hlen. unfold process_page. fold topics.
    destruct topics as [|t l] eqn:E; [eexists; reflexivity|].
    replace (Z.of_nat (List.length (t :: l)) <? limit) with true
      by (symmetry; apply Z.ltb_lt; exact Hlen).
    eexists. reflexivity. }
  split.
  - intros Hlen. specialize (Full Hlen).
    assert (Step : forall f,
              fetch_loop Server call peer limit (S f) srv c all_topics done =
              fetch_loop Server call peer limit f srv' next
                (all_topics ++ collect topics) done').
    { intros f. simpl. rewrite Hcall, Full. reflexivity. }
    split; [|split; [exact Full | split; [apply Step|]]].
    + apply last_topic_is_last. intros E. subst topics.
      rewrite E in Hlen. simpl in Hlen. lia.
    + rewrite Step.
      replace (S (List.length done)) with (List.length done')
        by (subst done'; rewrite length_app; simpl; lia).
      apply fetch_loop_first.
  - intros Hlen. destruct (Short Hlen) as [all' Hb].
    split; [exists all'; exact Hb|].
    intros fuel'. simpl. rewrite Hcall, Hb.
    split; [reflexivity | eexists; reflexivity].
Qed.

Lemma next_cursor_from_last_topic_witness :
  let server := forum_server demo_forum demo_messages in
  let page2 := forum_page demo_forum demo_messages
                 (request_of 7 2 initial_cursor) in
  let page5 := forum_page demo_forum demo_messages
                 (request_of 7 5 initial_cursor) in
  process_page 2 page2 [] =
    Continue (mkCursor (Some (DT.mkDT 2024 1 2 8 0 0 0)) 102 12)
      (collect (res_topics page2)) /\
  exchanges (fetch_loop unit server 7 5 9 tt initial_cursor [] []) =
    [(request_of 7 5 initial_cursor, Ok page5)].
Proof.
  intros server page2 page5. split.
  - destruct (next_cursor_from_last_topic unit server 7 2 0 tt tt
                initial_cursor page2 [] []) as [Hfull _];
      [lia | reflexivity |].
    destruct (Hfull eq_refl) as [_ [Hp _]]. exact Hp.
  - destruct (next_cursor_from_last_topic unit server 7 5 0 tt tt
                initial_cursor page5 [] []) as [_ Hshort];
      [lia | reflexivity |].
    assert (L : Z.of_nat (List.length (res_topics page5)) < 5)
      by (vm_compute; reflexivity).
    destruct (Hshort L) as [_ Hstop].
    exact (proj1 (Hstop 8%nat)).
Defined.

(** ** Round-trips against a forum of N topics *)

Lemma forum_ok_tail (t : RawTopic) (forum : list RawTopic) :
  forum_ok (t :: forum) -> forum_ok forum.
Proof.
  intros [Hid Hnd]. split.
  - intros x Hx. apply Hid. right. exact Hx.
  - simpl in Hnd. inversion Hnd. assumption.
Qed.

Lemma after_topic_split (l1 l2 : list RawTopic) (t : RawTopic) (id : Z) :
  forum_ok (l1 ++ t :: l2) -> rt_id t = Some id ->
  after_topic id (l1 ++ t :: l2) = l2.
Proof.
  intros Hok Ht. induction l1 as [|t0 l1 IH]; simpl.
  - rewrite Ht, Z.eqb_refl. reflexivity.
  - destruct Hok as [Hid Hnd].
    destruct (Hid t0 (or_introl eq_refl)) as [i0 [E0 _]].
    rewrite E0.
    assert (Hne : i0 <> id).
    { intros ->. simpl in Hnd. inversion Hnd as [|? ? Hnot _]. apply Hnot.
      rewrite E0, <- Ht. apply in_map. apply in_or_app. right. left.
      reflexivity. }
    apply Z.eqb_neq in Hne. rewrite Hne.
    apply IH. apply (forum_ok_tail t0). split; assumption.
Qed.

Lemma div_mod_step (n L : nat) :
  (0 < L <= n)%nat ->
  ((n - L) / L = n / L - 1 /\ (n - L) mod L = n mod L /\ 1 <= n / L)%nat.
Proof.
  intros H.
  assert (E : n = ((n - L) + 1 * L)%nat) by lia.
  assert (D : (n / L = (n - L) / L + 1)%nat).
  { rewrite E at 1. apply Nat.div_add. lia. }
  assert (M : (n mod L = (n - L) mod L)%nat).
  { rewrite E at 1. apply Nat.Div0.mod_add. }
  lia.
Qed.

Section ForumRun.

Variable forum : list RawTopic.
Variable messages : list RawMessage.
Variable peer : Entity.
Variable limit : Z.

Hypothesis forum_well_formed : forum_ok forum.
Hypothesis limit_positive : 0 < limit.

Lemma forum_loop (fuel : nat) :
  forall pre rest c acc done,
  forum = pre ++ rest ->
  (if offset_topic c =? 0 then forum
   else after_topic (offset_topic c) forum) = rest ->
  (List.length rest / Z.to_nat limit < fuel)%nat ->
  let r := fetch_loop unit (forum_server forum messages) peer limit fuel tt
             c acc done in
  (exists topics, outcome r = Returns topics) /\
  round_trips r =
    (List.length done + List.length rest / Z.to_nat limit + 1)%nat /\
  exists page, last_page (exchanges r) = Some page /\
    List.length page = (List.length rest mod Z.to_nat limit)%nat.
Proof.
  induction fuel as [|fuel IH]; intros pre rest c acc done Hsplit Hserved Hfuel;
    [lia|].
  set (L := Z.to_nat limit) in *.
  set (res := forum_page forum messages (request_of peer limit c)).
  assert (Htopics : res_topics res = firstn L rest).
  { subst res. unfold forum_page.
    cbn [res_topics req_offset_topic req_limit request_of].
    rewrite Hserved. reflexivity. }
  assert (Hstep :
    fetch_loop unit (forum_server forum messages) peer limit (S fuel) tt
      c acc done =
    match process_page limit res acc with
    | Break all' =>
        (tt, done ++ [(request_of peer limit c, Ok res)],
         Returns (sort_topics all'))
    | Continue c' all' =>
        fetch_loop unit (forum_server forum messages) peer limit fuel tt
          c' all' (done ++ [(request_of peer limit c, Ok res)])
    end) by reflexivity.
  cbv zeta. rewrite Hstep. clearbody res. clear Hstep.
  assert (HL : (0 < L)%nat) by (subst L; lia).
  destruct (Nat.lt_ge_cases (List.length rest) L) as [Hshort|Hfull].
  - assert (Hb : exists all', process_page limit res acc = Break all').
    { unfold process_page. rewrite Htopics.
      rewrite firstn_all2 by lia.
      destruct rest as [|t l] eqn:E; [eexists; reflexivity|].
      replace (Z.of_nat (List.length (t :: l)) <? limit) with true
        by (symmetry; apply Z.ltb_lt; subst L; lia).
      eexists. reflexivity. }
    destruct Hb as [all' Hb]. rewrite Hb.
    unfold outcome, round_trips, exchanges, last_page. cbn [fst snd].
    rewrite length_app, last_last. cbn [List.length].
    rewrite Nat.div_small, Nat.mod_small by lia.
    split; [eexists; reflexivity|]. split; [lia|].
    exists (res_topics res). split; [reflexivity|].
    rewrite Htopics, firstn_all2 by lia. reflexivity.
  - assert (Hlen : List.length (firstn L rest) = L)
      by (rewrite length_firstn; lia).
    assert (Hne : firstn L rest <> []).
    { intros E. rewrite E in Hlen. simpl in Hlen. lia. }
    destruct (last_topic_is_last _ Hne) as [before Hbefore].
    set (last := last_topic (firstn L rest)) in *.
    assert (Hforum : forum = (pre ++ before) ++ last :: skipn L rest).
    { rewrite Hsplit. rewrite <- (firstn_skipn L rest) at 1.
      rewrite Hbefore, <- !app_assoc. reflexivity. }
    destruct (proj1 forum_well_formed last) as [id [Hid Hid0]].
    { rewrite Hforum. apply in_or_app. right. left. reflexivity. }
    assert (Hc : process_page limit res acc =
              Continue (mkCursor
                          (last_msg_date (res_messages res)
                             (int_or_0 (rt_top_message last)))
                          (int_or_0 (rt_top_message last)) id)
                (acc ++ collect (firstn L rest))).
    { unfold process_page. rewrite Htopics.
      destruct (firstn L rest) as [|t l] eqn:E; [congruence|].
      replace (Z.of_nat (List.length (t :: l)) <? limit) with false
        by (symmetry; apply Z.ltb_ge; rewrite Hlen; subst L; lia).
      fold last. rewrite Hid. reflexivity. }
    rewrite Hc.
    destruct (div_mod_step (List.length rest) L (conj HL Hfull))
      as [Hdiv [Hmod Hone]].
    destruct (IH (pre ++ firstn L rest) (skipn L rest)
                (mkCursor (last_msg_date (res_messages res)
                             (int_or_0 (rt_top_message last)))
                   (int_or_0 (rt_top_message last)) id)
                (acc ++ collect (firstn L rest))
                (done ++ [(request_of peer limit c, Ok res)]))
      as [Hret [Htrips Hlast]].
    + rewrite <- app_assoc, firstn_skipn. exact Hsplit.
    + cbn [offset_topic]. apply Z.eqb_neq in Hid0. rewrite Hid0.
      rewrite Hforum. apply after_topic_split; [|exact Hid].
      rewrite <- Hforum. exact forum_well_formed.
    + rewrite length_skipn. fold L. lia.
    + rewrite length_skipn in Htrips, Hlast. fold L in Htrips, Hlast.
      rewrite Hdiv in Htrips. rewrite Hmod in Hlast.
      rewrite length_app in Htrips. cbn [List.length] in Htrips.
      split; [exact Hret|]. split; [lia | exact Hlast].
Qed.

End ForumRun.

Lemma ceil_div_not_multiple (n d : Z) :
  0 <= n -> 0 < d -> n mod d <> 0 -> ceil_div n d = n / d + 1.
Proof.
  intros Hn Hd Hm. unfold ceil_div. symmetry.
  pose proof (Z.mod_pos_bound n d Hd) as B.
  pose proof (Z.div_mod n d ltac:(lia)) as E.
  apply Z.div_unique with (r := n mod d - 1); [lia|].
  rewrite Z.mul_add_distr_l. lia.
Qed.

(** C1, as the code has it. Against a forum of N topics served in pages of
    [limit] topics, [get_all_forum_topics] returns after floor(N / limit) + 1
    round-trips. That is ceil(N / limit) when N is not a multiple of the page
    size; when it is one, the count is N / limit + 1: every page so far was
    full, and the loop ends on one more request whose page is empty. *)
Theorem round_trips_of_forum (forum : list RawTopic)
  (messages : list RawMessage) (peer : Entity) (limit : Z) (fuel : nat) :
  forum_ok forum -> 0 < limit ->
  let N := Z.of_nat (List.length forum) in
  N / limit < Z.of_nat fuel ->
  let r := get_all_forum_topics unit (forum_server forum messages) peer limit
             fuel tt in
  (exists topics, outcome r = Returns topics) /\
  Z.of_nat (round_trips r) = N / limit + 1 /\
  (N mod limit <> 0 -> Z.of_nat (round_trips r) = ceil_div N limit) /\
  (N mod limit = 0 ->
   Z.of_nat (round_trips r) = N / limit + 1 /\
   last_page (exchanges r) = Some []).
Proof.
  intros Hok Hpos N Hfuel r.
  assert (HN : N / limit = Z.of_nat (List.length forum / Z.to_nat limit)).
  { rewrite Nat2Z.inj_div. subst N. rewrite Z2Nat.id by lia. reflexivity. }
  assert (HM : N mod limit = Z.of_nat (List.length forum mod Z.to_nat limit)).
  { rewrite Nat2Z.inj_mod. subst N. rewrite Z2Nat.id by lia. reflexivity. }
  destruct (forum_loop forum messages peer limit Hok Hpos fuel [] forum
              initial_cursor [] []) as [Hret [Htrips [page [Hlast Hpage]]]];
    [reflexivity | reflexivity | lia |].
  fold (get_all_forum_topics unit (forum_server forum messages) peer limit
          fuel tt) in Hret, Htrips, Hlast. fold r in Hret, Htrips, Hlast.
  assert (T : Z.of_nat (round_trips r) = N / limit + 1).
  { rewrite Htrips, HN. simpl. lia. }
  split; [exact Hret|]. split; [exact T|]. split.
  - intros Hm. rewrite T. symmetry.
    apply ceil_div_not_multiple; [subst N; lia | exact Hpos | exact Hm].
  - intros Hm. split; [exact T|]. rewrite Hlast.
    destruct page; [reflexivity|]. simpl in Hpage. lia.
Qed.

Lemma demo_forum_ok : forum_ok demo_forum.
Proof.
  split.
  - intros t Ht. simpl in Ht.
    repeat (destruct Ht as [<-|Ht]; [eexists; split; [reflexivity|lia]|]).
    destruct Ht.
  - simpl. repeat constructor; simpl; intuition discriminate.
Qed.

Lemma round_trips_of_forum_witness :
  forum_ok demo_forum /\
  Z.of_nat (List.length demo_forum) mod 3 <> 0 /\
  Z.of_nat
    (round_trips
       (get_all_forum_topics unit (forum_server demo_forum demo_messages)
          7 3 5 tt)) = ceil_div 4 3.
Proof.
  split; [exact demo_forum_ok|]. split; [discriminate|].
  destruct (round_trips_of_forum demo_forum demo_messages 7 3 5
              demo_forum_ok) as [_ [_ [H _]]]; [lia | reflexivity |].
  apply H. discriminate.
Defined.

(** C1 as stated fails on an exact multiple: four topics in pages of two
    take three round-trips, not 4 / 2, and the third page is empty. *)
Lemma round_trips_exact_multiple :
  let r := get_all_forum_topics unit (forum_server demo_forum demo_messages)
             7 2 5 tt in
  forum_ok demo_forum /\
  Z.of_nat (List.length demo_forum) mod 2 = 0 /\
  (exists topics, outcome r = Returns topics) /\
  Z.of_nat (round_trips r) = 3 /\
  Z.of_nat (round_trips r) <> Z.of_nat (List.length demo_forum) / 2 /\
  last_page (exchanges r) = Some [].
Proof.
  cbv zeta. split; [exact demo_forum_ok|].
  split; [reflexivity|]. split; [eexists; vm_compute; reflexivity|].
  split; [reflexivity|]. split; [discriminate | reflexivity].
Qed.

(** * Further properties of the code *)

(** ** The parser and white space *)

Lemma lstrip_all_space (s : string) :
  all_space s = true -> lstrip s = EmptyString.
Proof.
  induction s as [|c s IH]; simpl; [reflexivity|].
  intros H. apply andb_true_iff in H. destruct H as [Hc Hs].
  rewrite Hc. apply IH, Hs.
Qed.

Lemma rstrip_all_space (s : string) :
  all_space s = true -> rstrip s = EmptyString.
Proof.
  induction s as [|c s IH]; simpl; [reflexivity|].
  intros H. apply andb_true_iff in H. destruct H as [Hc Hs].
  rewrite (IH Hs), Hc. reflexivity.
Qed.

Lemma lstrip_app_spaces (pre s : string) :
  all_space pre = true -> lstrip (pre ++ s) = lstrip s.
Proof.
  induction pre as [|c pre IH]; simpl; [reflexivity|].
  intros H. apply andb_true_iff in H. destruct H as [Hc Hs].
  rewrite Hc. apply IH, Hs.
Qed.

Lemma rstrip_app_spaces (s post : string) :
  all_space post = true -> rstrip (s ++ post) = rstrip s.
Proof.
  intros H. induction s as [|c s IH]; simpl.
  - apply rstrip_all_space, H.
  - rewrite IH. reflexivity.
Qed.

Lemma strip_app_spaces (s post : string) :
  all_space post = true -> strip (s ++ post) = strip s.
Proof.
  intros H. unfold strip. induction s as [|c s IH].
  - simpl. rewrite (lstrip_all_space post H). reflexivity.
  - simpl. destruct (is_space c); [exact IH|].
    apply (rstrip_app_spaces (String c s) post H).
Qed.

Lemma strip_padded (pre s post : string) :
  all_space pre = true -> all_space post = true ->
  strip (pre ++ s ++ post) = strip s.
Proof.
  intros Hpre Hpost. unfold strip at 1.
  rewrite (lstrip_app_spaces pre _ Hpre).
  apply (strip_app_spaces s post Hpost).
Qed.

(** X1. White space around the text does not change what [parse_datetime]
    returns. *)
Theorem parse_datetime_ignores_padding (today : DT.date)
  (pre s post : string) :
  all_space pre = true -> all_space post = true ->
  parse_datetime today (pre ++ s ++ post) = parse_datetime today s.
Proof.
  intros Hpre Hpost. unfold parse_datetime.
  rewrite (strip_padded pre s post Hpre Hpost). reflexivity.
Qed.

Lemma parse_datetime_ignores_padding_witness :
  parse_datetime (DT.mkDate 2024 1 1) "  09:05 " =
  parse_datetime (DT.mkDate 2024 1 1) "09:05".
Proof.
  exact (parse_datetime_ignores_padding (DT.mkDate 2024 1 1)
           "  " "09:05" " " eq_refl eq_refl).
Defined.

(** ** What a parsed time looks like *)

Lemma datetime_new_fields (y m d hh mi ss : Z) (w : DT.datetime) :
  DT.datetime_new y m d hh mi ss = Ok w -> w = DT.mkDT y m d hh mi ss 0.
Proof.
  unfold DT.datetime_new. destruct (negb _); [discriminate|].
  destruct (DT.valid_date y m d && DT.valid_time hh mi ss 0);
    [|discriminate].
  intros H; injection H as <-. reflexivity.
Qed.

Lemma parse_time_only_today (today : DT.date) (s : string) (w : DT.datetime) :
  parse_time_only today s = Ok (Some w) ->
  DT.year w = DT.d_year today /\ DT.month w = DT.d_month today /\
  DT.day w = DT.d_day today /\ DT.microsecond w = 0.
Proof.
  unfold parse_time_only.
  destruct (split ":" s) as [|a [|b [|c [|? ?]]]]; try discriminate.
  - intros H. binds H. injection H as <-.
    match goal with
    | E : DT.datetime_new _ _ _ _ _ _ = Ok _ |- _ =>
        apply datetime_new_fields in E; rewrite E
    end. repeat split.
  - destruct (negb (contains " " s)); [|discriminate].
    intros H. binds H. injection H as <-.
    match goal with
    | E : DT.datetime_new _ _ _ _ _ _ = Ok _ |- _ =>
        apply datetime_new_fields in E; rewrite E
    end. repeat split.
Qed.

Lemma strptime_fields (s : string) (fmt : list Strptime.item)
  (w : DT.datetime) :
  Strptime.strptime s fmt = Ok w ->
  DT.second w = 0 /\ DT.microsecond w = 0.
Proof.
  unfold Strptime.strptime.
  destruct (Strptime.match_items _ _ _) as [[f rest]|]; [|discriminate].
  destruct (negb (is_empty rest)); [discriminate|].
  intros H. binds H. apply datetime_new_fields in H. rewrite H.
  split; reflexivity.
Qed.

(** X2. Whatever [parse_datetime] returns is a time that exists: the date
    is a day of the calendar between the years 1 and 9999 (the day within
    the length of its month, leap years counted), the time of day is within
    range, and the microseconds are zero. *)
Theorem parsed_time_exists (today : DT.date) (user_text : string)
  (w : DT.datetime) :
  parse_datetime today user_text = Ok (Some w) ->
  1 <= DT.year w <= 9999 /\ 1 <= DT.month w <= 12 /\
  1 <= DT.day w <= DT.days_in_month (DT.year w) (DT.month w) /\
  0 <= DT.hour w <= 23 /\ 0 <= DT.minute w <= 59 /\
  0 <= DT.second w <= 59 /\ DT.microsecond w = 0.
Proof.
  intros H. pose proof (parse_datetime_valid _ _ _ H) as V.
  assert (U : DT.microsecond w = 0).
  { apply parse_datetime_inv in H. destruct H as [H|H].
    - apply parse_time_only_today in H. apply H.
    - apply parse_dated_inv in H. destruct H as [fmt [_ H]].
      apply strptime_fields in H. apply H. }
  unfold DT.valid, DT.valid_date, DT.valid_time in V. bool_to_prop.
  repeat split; try assumption.
Qed.

Lemma parsed_time_exists_witness :
  let w := DT.mkDT 2028 2 29 9 30 0 0 in
  1 <= DT.year w <= 9999 /\ 1 <= DT.month w <= 12 /\
  1 <= DT.day w <= DT.days_in_month (DT.year w) (DT.month w) /\
  0 <= DT.hour w <= 23 /\ 0 <= DT.minute w <= 59 /\
  0 <= DT.second w <= 59 /\ DT.microsecond w = 0.
Proof.
  exact (parsed_time_exists (DT.mkDate 2024 1 1) "29.02.2028 09:30"
           (DT.mkDT 2028 2 29 9 30 0 0) eq_refl).
Defined.

(** X3. A text too short to hold a date (fewer than 12 characters once
    trimmed) that parses at all is read as a time of today: the result
    carries today's year, month and day. *)
Theorem short_text_is_today (today : DT.date) (user_text : string)
  (w : DT.datetime) :
  parse_datetime today user_text = Ok (Some w) ->
  (String.length (strip user_text) < 12)%nat ->
  DT.year w = DT.d_year today /\ DT.month w = DT.d_month today /\
  DT.day w = DT.d_day today.
Proof.
  intros H Hlen. apply parse_datetime_inv in H. destruct H as [H|H].
  - apply parse_time_only_today in H. tauto.
  - apply dated_text_length in H. lia.
Qed.

Lemma short_text_is_today_witness :
  DT.year (DT.mkDT 2024 3 9 23 59 58 0) = 2024 /\
  DT.month (DT.mkDT 2024 3 9 23 59 58 0) = 3 /\
  DT.day (DT.mkDT 2024 3 9 23 59 58 0) = 9.
Proof.
  assert (L : (String.length (strip "23:59:58") < 12)%nat) by (simpl; lia).
  exact (short_text_is_today (DT.mkDate 2024 3 9) "23:59:58"
           (DT.mkDT 2024 3 9 23 59 58 0) eq_refl L).
Defined.

(** ** Texts of the form HH:MM:SS *)

Lemma no_space_app (a b : string) :
  no_space (a ++ b) = no_space a && no_space b.
Proof.
  induction a as [|c a IH]; simpl; [reflexivity|].
  rewrite IH, andb_assoc. reflexivity.
Qed.

Lemma no_space_strip (s : string) : no_space s = true -> strip s = s.
Proof.
  intros H. unfold strip.
  assert (L : lstrip s = s).
  { destruct s as [|c r]; [reflexivity|]. simpl in *.
    apply andb_true_iff in H. destruct H as [Hc _].
    apply negb_true_iff in Hc. rewrite Hc. reflexivity. }
  rewrite L. clear L. induction s as [|c r IH]; [reflexivity|].
  simpl in *. apply andb_true_iff in H. destruct H as [Hc Hr].
  apply negb_true_iff in Hc. rewrite Hc, (IH Hr). reflexivity.
Qed.

Lemma no_space_no_blank (s : string) :
  no_space s = true -> contains " " s = false.
Proof.
  induction s as [|c r IH]; cbn [contains no_space]; [reflexivity|].
  intros H. apply andb_true_iff in H. destruct H as [Hc Hr].
  rewrite (IH Hr), orb_false_r.
  destruct (Ascii.eqb " " c) eqn:E; [|reflexivity].
  apply Ascii.eqb_eq in E. subst c. discriminate Hc.
Qed.

Lemma split_no_sep (sep : ascii) (a : string) :
  contains sep a = false -> split sep a = [a].
Proof.
  induction a as [|c a IH]; cbn [contains split]; [reflexivity|].
  intros H. apply orb_false_iff in H. destruct H as [Hc Ha].
  rewrite Ascii.eqb_sym, Hc, (IH Ha). reflexivity.
Qed.

Lemma split_app_sep (sep : ascii) (a b : string) :
  contains sep a = false ->
  split sep (a ++ String sep b) = a :: split sep b.
Proof.
  induction a as [|c a IH]; cbn [contains split String.append].
  - intros _. rewrite Ascii.eqb_refl. reflexivity.
  - intros H. apply orb_false_iff in H. destruct H as [Hc Ha].
    rewrite Ascii.eqb_sym, Hc, (IH Ha). reflexivity.
Qed.

Lemma two_digits_shape_all : forallb two_digits_shape upto100 = true.
Proof. vm_compute. reflexivity. Qed.

Lemma two_digits_ok (n : Z) :
  0 <= n < 100 ->
  no_space (two_digits n) = true /\ contains ":" (two_digits n) = false /\
  py_int (two_digits n) = Ok n.
Proof.
  intros Hn. pose proof two_digits_shape_all as A.
  rewrite forallb_forall in A. specialize (A n (upto100_spec n Hn)).
  unfold two_digits_shape in A.
  apply andb_true_iff in A. destruct A as [A P].
  apply andb_true_iff in A. destruct A as [S C].
  apply negb_true_iff in C.
  destruct (py_int (two_digits n)) as [x|]; [|discriminate].
  apply Z.eqb_eq in P. subst x. auto.
Qed.

Lemma two_digits_colon_not_dated (rest : string) :
  forallb (fun h => match parse_dated (two_digits h ++ String ":" rest)
                            dated_formats with
                    | Ok None => true
                    | _ => false
                    end) upto100 = true.
Proof. vm_compute. reflexivity. Qed.

Lemma hhmmss_facts (h m s : Z) :
  0 <= h < 100 -> 0 <= m < 100 -> 0 <= s < 100 ->
  strip (hhmmss h m s) = hhmmss h m s /\
  contains " " (hhmmss h m s) = false /\
  split ":" (hhmmss h m s) = [two_digits h; two_digits m; two_digits s] /\
  parse_dated (hhmmss h m s) dated_formats = Ok None.
Proof.
  intros Hh Hm Hs.
  destruct (two_digits_ok h Hh) as [Sh [Ch _]].
  destruct (two_digits_ok m Hm) as [Sm [Cm _]].
  destruct (two_digits_ok s Hs) as [Ss [Cs _]].
  assert (N : no_space (hhmmss h m s) = true).
  { unfold hhmmss. rewrite !no_space_app, Sh, Sm, Ss. reflexivity. }
  split; [apply no_space_strip, N|]. split; [apply no_space_no_blank, N|].
  split.
  - unfold hhmmss. change (":" ++ ?x)%string with (String ":" x).
    rewrite (split_app_sep ":" _ _ Ch).
    change (":" ++ ?x)%string with (String ":" x).
    rewrite (split_app_sep ":" _ _ Cm), (split_no_sep ":" _ Cs).
    reflexivity.
  - pose proof (two_digits_colon_not_dated
                  (two_digits m ++ ":" ++ two_digits s)) as A.
    rewrite forallb_forall in A. specialize (A h (upto100_spec h Hh)).
    unfold hhmmss. change (":" ++ ?x)%string with (String ":" x) in *.
    destruct (parse_dated _ dated_formats) as [[d|]|]; try discriminate.
    reflexivity.
Qed.

(** X4. For every hour 0..23, minute 0..59 and second 0..59 the text
    HH:MM:SS parses to today's date at that time; when one of the three
    two-digit numbers is out of range (24:00:00, 12:00:60) the text parses to
    no result. *)
Theorem parse_datetime_hhmmss (today : DT.date) (h m s : Z) :
  DT.valid_date (DT.d_year today) (DT.d_month today) (DT.d_day today) = true ->
  0 <= h < 100 -> 0 <= m < 100 -> 0 <= s < 100 ->
  (h <= 23 -> m <= 59 -> s <= 59 ->
   parse_datetime today (hhmmss h m s) =
   Ok (Some (DT.mkDT (DT.d_year today) (DT.d_month today) (DT.d_day today)
               h m s 0))) /\
  (24 <= h \/ 60 <= m \/ 60 <= s ->
   parse_datetime today (hhmmss h m s) = Ok None).
Proof.
  intros Hv Hh Hm Hs.
  destruct (hhmmss_facts h m s Hh Hm Hs) as [Fs [Fb [Fp Fd]]].
  destruct (two_digits_ok h Hh) as [_ [_ Ih]].
  destruct (two_digits_ok m Hm) as [_ [_ Im]].
  destruct (two_digits_ok s Hs) as [_ [_ Is]].
  assert (P : parse_time_only today (hhmmss h m s) =
              (dt <- DT.datetime_new (DT.d_year today) (DT.d_month today)
                       (DT.d_day today) h m s ;; Ok (Some dt))).
  { unfold parse_time_only. rewrite Fp, Fb, Ih, Im, Is. reflexivity. }
  split.
  - intros H23 H59 S59. unfold parse_datetime. rewrite Fs, P.
    rewrite datetime_new_ok; [reflexivity | exact Hv |].
    unfold DT.valid_time.
    repeat (apply andb_true_iff; split); apply Z.leb_le; lia.
  - intros Hbad. unfold parse_datetime. rewrite Fs, P.
    fold dated_formats. rewrite Fd.
    destruct (datetime_new_bad_time (DT.d_year today) (DT.d_month today)
                (DT.d_day today) h m s) as [e [E1 E2]].
    + unfold DT.valid_time.
      destruct Hbad as [Hb|[Hb|Hb]].
      * replace (h <=? 23) with false by (symmetry; apply Z.leb_gt; lia).
        rewrite andb_false_r. reflexivity.
      * replace (m <=? 59) with false by (symmetry; apply Z.leb_gt; lia).
        rewrite !andb_false_r. reflexivity.
      * replace (s <=? 59) with false by (symmetry; apply Z.leb_gt; lia).
        rewrite !andb_false_r. reflexivity.
    + rewrite E1. simpl. rewrite E2. reflexivity.
Qed.

Lemma parse_datetime_hhmmss_witness :
  parse_datetime (DT.mkDate 2024 1 1) "23:59:58" =
    Ok (Some (DT.mkDT 2024 1 1 23 59 58 0)) /\
  parse_datetime (DT.mkDate 2024 1 1) "12:00:60" = Ok None.
Proof.
  destruct (parse_datetime_hhmmss (DT.mkDate 2024 1 1) 23 59 58)
    as [H1 _]; [reflexivity | lia | lia | lia |].
  destruct (parse_datetime_hhmmss (DT.mkDate 2024 1 1) 12 0 60)
    as [_ H2]; [reflexivity | lia | lia | lia |].
  split; [apply H1; lia | apply H2; lia].
Defined.

(** ** Scheduling: rejected input *)

Lemma strip_empty_iff_blank (s : string) : is_empty (strip s) = all_space s.
Proof.
  unfold strip. induction s as [|c r IH]; simpl; [reflexivity|].
  destruct (is_space c) eqn:E; [exact IH|].
  simpl. rewrite E. reflexivity.
Qed.

(** X5. A message text that is blank (empty or white space only) is
    rejected with the empty-text status, whatever the time text; a message
    text that is not blank with a time text that does not parse is rejected
    with the bad-time status. In both cases the clock is not read and
    nothing else changes: no job, no unit, no send. *)
Theorem schedule_rejects_bad_input (bar : Status -> bool) (today : DT.date)
  (clock : result DT.datetime) (a : App) (tgt : SendTarget)
  (when_str txt : string) :
  (all_space txt = true ->
   schedule_message_from_ui bar today clock a tgt when_str txt =
   (show_status a StatusEmptyText, Ok tt)) /\
  (all_space txt = false -> parse_datetime today when_str = Ok None ->
   schedule_message_from_ui bar today clock a tgt when_str txt =
   (show_status a StatusBadTime, Ok tt)) /\
  jobs (show_status a StatusEmptyText) = jobs a /\
  job_tasks (show_status a StatusBadTime) = job_tasks a.
Proof.
  unfold schedule_message_from_ui. rewrite strip_empty_iff_blank.
  split; [|split; [|split; reflexivity]].
  - intros ->. reflexivity.
  - intros -> ->. reflexivity.
Qed.

(** ** Scheduling: what the list of jobs holds *)

Lemma lstrip_head (s : string) :
  match lstrip s with
  | EmptyString => True
  | String c _ => is_space c = false
  end.
Proof.
  induction s as [|c r IH]; simpl; [exact I|].
  destruct (is_space c) eqn:E; [exact IH | exact E].
Qed.

Lemma rstrip_idem (s : string) : rstrip (rstrip s) = rstrip s.
Proof.
  induction s as [|c r IH]; simpl; [reflexivity|].
  destruct (is_space c && is_empty (rstrip r)) eqn:E; [reflexivity|].
  simpl. rewrite IH, E. reflexivity.
Qed.

Lemma strip_idem (s : string) : strip (strip s) = strip s.
Proof.
  unfold strip. pose proof (lstrip_head s) as H.
  destruct (lstrip s) as [|c r]; [reflexivity|].
  assert (L : lstrip (rstrip (String c r)) = rstrip (String c r)).
  { simpl. rewrite H. simpl. rewrite H. reflexivity. }
  rewrite L. apply rstrip_idem.
Qed.

Lemma schedule_keeps_jobs_ok (bar : Status -> bool) (today : DT.date)
  (clock : result DT.datetime)
  (a : App) (tgt : SendTarget) (when_str txt : string) :
  Forall job_ok (jobs a) ->
  Forall job_ok
    (jobs (fst (schedule_message_from_ui bar today clock a tgt when_str
                  txt))).
Proof.
  intros H. unfold schedule_message_from_ui.
  destruct (is_empty (strip txt)) eqn:Et; [exact H|].
  destruct (parse_datetime today when_str) as [[w|]|e] eqn:Ep;
    try exact H.
  destruct clock as [now|e]; [|exact H].
  pose proof (parse_datetime_valid _ _ _ Ep) as V.
  destruct (is_time_only when_str && DT.leb w now).
  - destruct (DT.add_one_day w) as [w'|e] eqn:Ea; [|exact H].
    rewrite set_status_jobs.
    cbn. apply Forall_app. split; [exact H|]. constructor; [|constructor].
    repeat split; cbn; [exact Et | apply strip_idem |].
    eapply add_one_day_valid; eassumption.
  - rewrite set_status_jobs.
    cbn. apply Forall_app. split; [exact H|]. constructor; [|constructor].
    repeat split; cbn; [exact Et | apply strip_idem | exact V].
Qed.

Lemma sweep_jobs_filtered (w : SweepWorld) (a : App) :
  exists keep, jobs (fst (sweep w a)) = filter keep (jobs a).
Proof.
  unfold sweep.
  assert (Same : exists keep, jobs a = filter keep (jobs a)).
  { exists (fun _ => true). clear. induction (jobs a) as [|j l IH];
      simpl; congruence. }
  destruct (sweep_sleep w) as [u|e]; [|exact Same].
  destruct (sweep_tasks _ _ _ _) as [lg [active|e]]; [|exact Same].
  destruct (sweep_clock w) as [now|e]; [|exact Same].
  eexists. reflexivity.
Qed.

Lemma filter_filter {A : Type} (p q : A -> bool) (l : list A) :
  filter p (filter q l) = filter (fun x => q x && p x) l.
Proof.
  induction l as [|x l IH]; simpl; [reflexivity|].
  destruct (q x); simpl; [destruct (p x)|]; rewrite IH; reflexivity.
Qed.

Lemma cleanup_loop_jobs_filtered (ws : list SweepWorld) (a : App) :
  exists keep, jobs (fst (_cleanup_loop ws a)) = filter keep (jobs a).
Proof.
  revert a. induction ws as [|w ws IH]; intros a.
  - exists (fun _ => true). simpl. induction (jobs a) as [|j l IHl];
      simpl; congruence.
  - simpl. destruct (sweep_jobs_filtered w a) as [k Hk].
    destruct (sweep w a) as [a' [u|e]]; simpl in Hk.
    + destruct (IH a') as [k' Hk']. rewrite Hk', Hk, filter_filter.
      eexists. reflexivity.
    + destruct e; simpl; eauto.
Qed.

(** X6. Every job in the list is well formed and stays so: its message
    text is trimmed and not empty and its due time exists. Scheduling,
    running a unit, a sweep and the whole cleanup loop keep this. *)
Theorem jobs_stay_well_formed (a : App) :
  Forall job_ok (jobs a) ->
  (forall bar today clock tgt when_str txt,
     Forall job_ok
       (jobs (fst (schedule_message_from_ui bar today clock a tgt when_str
                     txt))))
  /\
  (forall w job, Forall job_ok (jobs (fst (_run_job w a job)))) /\
  (forall w, Forall job_ok (jobs (fst (sweep w a)))) /\
  (forall ws, Forall job_ok (jobs (fst (_cleanup_loop ws a)))).
Proof.
  intros H.
  assert (F : forall keep, Forall job_ok (filter keep (jobs a))).
  { intros keep. rewrite Forall_forall in *. intros j Hj.
    apply filter_In in Hj. apply H, Hj. }
  split; [|split; [|split]].
  - intros. apply schedule_keeps_jobs_ok, H.
  - intros w job. rewrite run_job_keeps_jobs. exact H.
  - intros w. destruct (sweep_jobs_filtered w a) as [k ->]. apply F.
  - intros ws. destruct (cleanup_loop_jobs_filtered ws a) as [k ->]. apply F.
Qed.

Lemma jobs_stay_well_formed_witness :
  let tgt := mkTarget (mkDialog 7 "chat" "private" false 7) None None in
  let a := mkApp [] [] [] [] [] 0 in
  Forall job_ok
    (jobs (fst (schedule_message_from_ui (fun _ => true) (DT.mkDate 2024 1 1)
                  (Ok (DT.mkDT 2024 1 1 10 0 0 0)) a tgt "09:00" " hi "))).
Proof.
  intros tgt a.
  exact (proj1 (jobs_stay_well_formed a (Forall_nil _)) (fun _ => true)
           (DT.mkDate 2024 1 1)
           (Ok (DT.mkDT 2024 1 1 10 0 0 0)) tgt "09:00"%string
           " hi "%string).
Defined.

(** ** Scheduling: a time-only entry never fires at once *)

Lemma next_day_is_later (w w' now : DT.datetime) :
  DT.add_one_day w = Ok w' ->
  DT.year now = DT.year w -> DT.month now = DT.month w ->
  DT.day now = DT.day w ->
  DT.gtb w' now = true.
Proof.
  destruct w as [y m d hh mi ss us], now as [y0 m0 d0 h0 i0 s0 u0].
  unfold DT.add_one_day.
  cbn [DT.year DT.month DT.day DT.hour DT.minute DT.second DT.microsecond].
  intros Ha -> -> ->.
  assert (G : forall a b, b < a -> (a ?= b) = Gt)
    by (intros; apply Z.compare_gt_iff; assumption).
  unfold DT.gtb, DT.compare, DT.fields.
  destruct (d <? DT.days_in_month y m);
    [|destruct (m <? 12); [|destruct (y <? 9999); [|discriminate Ha]]];
    injection Ha as <-;
    cbn [DT.year DT.month DT.day DT.hour DT.minute DT.second DT.microsecond
         DT.lex_compare].
  - rewrite !Z.compare_refl, (G (d + 1) d) by lia. reflexivity.
  - rewrite Z.compare_refl, (G (m + 1) m) by lia. reflexivity.
  - rewrite (G (y + 1) y) by lia. reflexivity.
Qed.

Lemma time_only_text_is_short (when_str : string) :
  is_time_only when_str = true ->
  (String.length (strip when_str) <= 8)%nat.
Proof.
  unfold is_time_only. intros H.
  apply andb_true_iff in H. destruct H as [_ H].
  apply Z.leb_le in H. lia.
Qed.

(** X7. When corrected-now falls on today's date, the job appended for a
    time-only text is due strictly after corrected-now, whatever the status
    bar makes of the label: at the parsed time when that is after
    corrected-now, one day after the parsed time otherwise (9999-12-31 has
    no next day). *)
Theorem time_only_is_scheduled_ahead (bar : Status -> bool)
  (today : DT.date) (now : DT.datetime)
  (a : App) (tgt : SendTarget) (when_str txt : string) (w : DT.datetime) :
  is_empty (strip txt) = false ->
  parse_datetime today when_str = Ok (Some w) ->
  is_time_only when_str = true ->
  DT.year now = DT.d_year today -> DT.month now = DT.d_month today ->
  DT.day now = DT.d_day today ->
  DT.is_last_day w = false ->
  exists due,
    jobs (fst (schedule_message_from_ui bar today (Ok now) a tgt when_str
                 txt)) = jobs a ++ [mkJob tgt (strip txt) due] /\
    DT.gtb due now = true /\
    (DT.leb w now = false -> due = w) /\
    (DT.leb w now = true -> DT.add_one_day w = Ok due).
Proof.
  intros Ht Hp Hto Hy Hm Hd Hl.
  assert (Today : DT.year w = DT.d_year today /\
                  DT.month w = DT.d_month today /\
                  DT.day w = DT.d_day today).
  { pose proof (time_only_text_is_short _ Hto) as Hs.
    pose proof Hp as Hp'. apply parse_datetime_inv in Hp'.
    destruct Hp' as [H|H].
    - apply parse_time_only_today in H. tauto.
    - apply dated_text_length in H. lia. }
  destruct Today as [Ty [Tm Td]].
  destruct (DT.leb w now) eqn:Hle.
  - destruct (add_one_day_next w (parse_datetime_valid _ _ _ Hp) Hl)
      as [w' [Ha _]].
    exists w'. split; [|split; [|split]].
    + apply (schedule_unfold_jobs bar today now a tgt when_str txt w w' Ht Hp).
      rewrite Hto, Hle. exact Ha.
    + apply (next_day_is_later w w' now Ha); congruence.
    + discriminate.
    + intros _. exact Ha.
  - exists w. split; [|split; [|split]].
    + apply (schedule_unfold_jobs bar today now a tgt when_str txt w w Ht Hp).
      rewrite Hto, Hle. reflexivity.
    + unfold DT.leb in Hle. unfold DT.gtb.
      destruct (DT.compare w now); congruence.
    + reflexivity.
    + discriminate.
Qed.

(** On 2024-12-31 at 10:00:00, "09:00" is due on 2025-01-01 at 09:00:00. *)
Lemma time_only_is_scheduled_ahead_witness :
  let tgt := mkTarget (mkDialog 7 "chat" "private" false 7) None None in
  let a := mkApp [] [] [] [] [] 0 in
  let now := DT.mkDT 2024 12 31 10 0 0 0 in
  jobs (fst (schedule_message_from_ui (fun _ => true) (DT.mkDate 2024 12 31)
               (Ok now) a tgt "09:00" "hello")) =
    [mkJob tgt "hello" (DT.mkDT 2025 1 1 9 0 0 0)] /\
  DT.gtb (DT.mkDT 2025 1 1 9 0 0 0) now = true.
Proof.
  intros tgt a now.
  destruct (time_only_is_scheduled_ahead (fun _ => true)
              (DT.mkDate 2024 12 31) now a tgt
              "09:00" "hello" (DT.mkDT 2024 12 31 9 0 0 0)
              eq_refl eq_refl eq_refl eq_refl eq_refl eq_refl eq_refl)
    as [due [E [G [_ D]]]].
  specialize (D eq_refl). vm_compute in D. injection D as <-.
  split; [exact E | exact G].
Defined.

(** ** An execution unit that is not interrupted *)

(** X8. A unit whose clock answers and whose sleep, if it sleeps at all,
    runs to its end, issues exactly one send: the message of the job to the
    conversation of its target. It never sends a second time. When the send
    returns, the unit sets the delivery status; when it raises an exception
    that derives from [Exception], the unit sets the failure status with
    that exception. The unit returns normally when the status bar takes that
    text; when the bar rejects it, the status stays as it was and the unit
    ends with [MarkupError], after the send. An exception of the send that
    does not derive from [Exception] leaves the unit as it is. A job that is
    due or overdue is sent without sleeping. *)
Theorem run_job_delivers_once (w : JobWorld) (a : App) (job : ScheduledJob)
  (now : DT.datetime) :
  job_clock w = Ok now ->
  DT.to_us (when job) - DT.to_us now <= 0 \/
  job_sleep w (DT.to_us (when job) - DT.to_us now) = Ok tt ->
  exists c,
    fst (send_text_to_target (job_client w) (target job) (text job)) = [c] /\
    to_entity c = raw_entity (dialog (target job)) /\ body c = text job /\
    client_calls (fst (_run_job w a job)) = client_calls a ++ [c] /\
    let report :=
      match job_client w c with
      | Ok _ => Some (StatusSent (label (target job)))
      | Raise e =>
          if is_Exception e
          then Some (StatusSendError (label (target job)) e) else None
      end in
    match report with
    | Some s =>
        if job_bar w s then
          statuses (fst (_run_job w a job)) = statuses a ++ [s] /\
          snd (_run_job w a job) = Ok tt
        else
          statuses (fst (_run_job w a job)) = statuses a /\
          snd (_run_job w a job) = Raise MarkupError
    | None =>
        statuses (fst (_run_job w a job)) = statuses a /\
        snd (_run_job w a job) = job_client w c
    end.
Proof.
  intros Hc Hs. unfold _run_job. rewrite Hc.
  assert (S : (if 0 <? DT.to_us (when job) - DT.to_us now
               then job_sleep w (DT.to_us (when job) - DT.to_us now)
               else Ok tt) = Ok tt).
  { destruct (0 <? DT.to_us (when job) - DT.to_us now) eqn:E;
      [|reflexivity].
    destruct Hs as [Hs|Hs]; [apply Z.ltb_lt in E; lia | exact Hs]. }
  rewrite S. unfold send_text_to_target, set_status.
  destruct (truthy_int (topic_id (target job)) &&
            differs_from_1 (topic_id (target job)));
    eexists; (split; [reflexivity|]); cbn [to_entity body fst snd];
    (split; [reflexivity|]); (split; [reflexivity|]);
    match goal with
    | |- context [job_client w ?c] =>
        destruct (job_client w c) as [u|e]; [|destruct (is_Exception e)]
    end;
    cbn [status_accepted];
    try match goal with
    | |- context [job_bar w ?s] => destruct (job_bar w s)
    end;
    repeat split; reflexivity.
Qed.

(** A due job for topic 5 whose send fails: one send, as a reply to the
    topic; the failure is shown when the bar takes the text, and the unit
    ends with [MarkupError] when it does not. *)
Lemma run_job_delivers_once_witness :
  let tgt := mkTarget (mkDialog 7 "forum" "group" true 7) (Some 5) None in
  let job := mkJob tgt "hello" (DT.mkDT 2024 1 1 9 0 0 0) in
  let world bar :=
    mkJobWorld (Ok (DT.mkDT 2024 1 1 10 0 0 0))
      (fun _ => Raise CancelledError)
      (fun _ => Raise (OtherError "FloodWaitError")) bar in
  let a := mkApp [job] [mkTask 0 job] [] [] [] 1 in
  (client_calls (fst (_run_job (world (fun _ => true)) a job)) =
     [mkSend 7 "hello" (Some 5)] /\
   statuses (fst (_run_job (world (fun _ => true)) a job)) =
     [StatusSendError "forum / Тема" (OtherError "FloodWaitError")] /\
   snd (_run_job (world (fun _ => true)) a job) = Ok tt) /\
  (client_calls (fst (_run_job (world (fun _ => false)) a job)) =
     [mkSend 7 "hello" (Some 5)] /\
   statuses (fst (_run_job (world (fun _ => false)) a job)) = [] /\
   snd (_run_job (world (fun _ => false)) a job) = Raise MarkupError).
Proof.
  intros tgt job world a. split.
  - destruct (run_job_delivers_once (world (fun _ => true)) a job
                (DT.mkDT 2024 1 1 10 0 0 0) eq_refl)
      as [c [Hc [_ [_ [Hcalls Hst]]]]].
    + left. vm_compute. discriminate.
    + injection Hc as <-. cbn in Hst. destruct Hst as [H1 H2].
      split; [exact Hcalls|]. split; [exact H1 | exact H2].
  - destruct (run_job_delivers_once (world (fun _ => false)) a job
                (DT.mkDT 2024 1 1 10 0 0 0) eq_refl)
      as [c [Hc [_ [_ [Hcalls Hst]]]]].
    + left. vm_compute. discriminate.
    + injection Hc as <-. cbn in Hst. destruct Hst as [H1 H2].
      split; [exact Hcalls|]. split; [exact H1 | exact H2].
Defined.

(** ** What a sweep does to the units *)

Lemma sweep_tasks_result (st : Task -> TaskState)
  (tasks active : list Task) (lg lg' : list LogEntry) (active' : list Task) :
  sweep_tasks st tasks active lg = (lg', Ok active') ->
  active' = active ++ filter (is_pending st) tasks /\
  lg' = lg ++ task_errors st tasks.
Proof.
  revert active lg. induction tasks as [|t tasks IH]; intros active lg.
  - simpl. intros H; injection H as <- <-. rewrite !app_nil_r. auto.
  - cbn [sweep_tasks filter task_errors flat_map]. unfold is_pending.
    destruct (st t) as [|[u|e]].
    + intros H. apply IH in H. rewrite <- app_assoc in H. exact H.
    + intros H. apply IH in H. exact H.
    + destruct (is_Exception e); [|discriminate].
      intros H. apply IH in H. rewrite <- app_assoc in H. exact H.
Qed.

(** X9. A sweep during which nothing is raised keeps exactly the units
    that are not done, in their order, and writes one log entry for every
    unit that ended with an exception, in the order of the units, after what
    the log held. *)
Theorem sweep_prunes_finished_units (w : SweepWorld) (a : App) :
  calm w ->
  snd (sweep w a) = Ok tt /\
  job_tasks (fst (sweep w a)) =
    filter (is_pending (sweep_task w)) (job_tasks a) /\
  log (fst (sweep w a)) = log a ++ task_errors (sweep_task w) (job_tasks a).
Proof.
  intros Hc. split; [apply sweep_calm, Hc|].
  destruct Hc as [Hs [[now Hn] Ht]]. unfold sweep. rewrite Hs.
  destruct (sweep_tasks_runs (sweep_task w) Ht (job_tasks a) [] (log a))
    as [lg [active E]].
  rewrite E, Hn. apply sweep_tasks_result in E. destruct E as [-> ->].
  split; reflexivity.
Qed.

Lemma sweep_prunes_finished_units_witness :
  let tgt := mkTarget (mkDialog 7 "chat" "private" false 7) None None in
  let job := mkJob tgt "hello" (DT.mkDT 2024 1 1 9 0 0 0) in
  let t0 := mkTask 0 job in
  let t1 := mkTask 1 job in
  let t2 := mkTask 2 job in
  let a := mkApp [] [t0; t1; t2] [] [] [] 3 in
  let w := mkSweepWorld (Ok tt)
             (fun t => match task_no t with
                       | O => Finished (Raise ValueError)
                       | S O => Pending
                       | _ => Finished (Ok tt)
                       end)
             (Ok (DT.mkDT 2024 1 1 8 0 0 0)) in
  job_tasks (fst (sweep w a)) = [t1] /\
  log (fst (sweep w a)) = [LogTaskError ValueError].
Proof.
  intros tgt job t0 t1 t2 a w.
  assert (C : calm w).
  { split; [reflexivity|]. split; [eexists; reflexivity|].
    intros t e. unfold w. cbn [sweep_task].
    destruct (task_no t) as [|[|n]]; intros H; try discriminate H.
    - injection H as <-. reflexivity. }
  destruct (sweep_prunes_finished_units w a C) as [_ [H1 H2]].
  split; [exact H1 | exact H2].
Defined.

(** ** A unit found cancelled *)

Lemma sweep_tasks_cancelled (st : Task -> TaskState) (t : Task)
  (tasks active : list Task) (lg : list LogEntry) :
  In t tasks -> st t = Finished (Raise CancelledError) ->
  snd (sweep_tasks st tasks active lg) = Raise CancelledError.
Proof.
  revert active lg. induction tasks as [|t' tasks IH]; intros active lg Hin Hst.
  - destruct Hin.
  - cbn [sweep_tasks]. destruct Hin as [->|Hin].
    + rewrite Hst. reflexivity.
    + destruct (st t') as [|[u|e]]; try (apply IH; assumption).
      destruct e; cbn [is_Exception]; try (apply IH; assumption).
      reflexivity.
Qed.

(** X10. When a sweep meets a unit that ended cancelled, awaiting it
    raises [CancelledError] inside the sweep and the cleanup loop takes this
    for its own cancellation: it returns, the sweeps that would follow never
    run, and neither list has been pruned. *)
Theorem cancelled_unit_ends_cleanup (w : SweepWorld) (ws : list SweepWorld)
  (a : App) (t : Task) :
  sweep_sleep w = Ok tt ->
  In t (job_tasks a) ->
  sweep_task w t = Finished (Raise CancelledError) ->
  snd (_cleanup_loop (w :: ws) a) = Returned /\
  jobs (fst (_cleanup_loop (w :: ws) a)) = jobs a /\
  job_tasks (fst (_cleanup_loop (w :: ws) a)) = job_tasks a.
Proof.
  intros Hs Hin Hst. cbn [_cleanup_loop]. unfold sweep. rewrite Hs.
  pose proof (sweep_tasks_cancelled (sweep_task w) t (job_tasks a) []
                (log a) Hin Hst) as E.
  destruct (sweep_tasks (sweep_task w) (job_tasks a) [] (log a))
    as [lg r]. simpl in E. subst r. repeat split.
Qed.

Lemma cancelled_unit_ends_cleanup_witness :
  let tgt := mkTarget (mkDialog 7 "chat" "private" false 7) None None in
  let job := mkJob tgt "hello" (DT.mkDT 2024 1 1 9 0 0 0) in
  let a := mkApp [job] [mkTask 0 job] [] [] [] 1 in
  let w := mkSweepWorld (Ok tt) (fun _ => Finished (Raise CancelledError))
             (Ok (DT.mkDT 2024 1 1 10 0 0 0)) in
  snd (_cleanup_loop [w; w] a) = Returned /\
  jobs (fst (_cleanup_loop [w; w] a)) = [job].
Proof.
  intros tgt job a w.
  destruct (cancelled_unit_ends_cleanup w [w] a (mkTask 0 job) eq_refl
              (or_introl eq_refl) eq_refl) as [H1 [H2 _]].
  split; [exact H1 | exact H2].
Defined.

(** ** What the cleanup loop leaves alone *)

Lemma sweep_tasks_log_grows (st : Task -> TaskState)
  (tasks active : list Task) (lg : list LogEntry) :
  exists more, fst (sweep_tasks st tasks active lg) = lg ++ more.
Proof.
  revert active lg. induction tasks as [|t tasks IH]; intros active lg.
  - exists []. simpl. symmetry. apply app_nil_r.
  - cbn [sweep_tasks]. destruct (st t) as [|[u|e]]; try apply IH.
    destruct (is_Exception e).
    + destruct (IH active (lg ++ [LogTaskError e])) as [more E].
      rewrite E, <- app_assoc. eexists. reflexivity.
    + exists []. simpl. symmetry. apply app_nil_r.
Qed.

Lemma sweep_frame (w : SweepWorld) (a : App) :
  client_calls (fst (sweep w a)) = client_calls a /\
  statuses (fst (sweep w a)) = statuses a /\
  (exists keep, job_tasks (fst (sweep w a)) = filter keep (job_tasks a)) /\
  (exists more, log (fst (sweep w a)) = log a ++ more).
Proof.
  assert (Same : forall (l : list Task), exists keep, l = filter keep l).
  { intros l. exists (fun _ => true). induction l; simpl; congruence. }
  unfold sweep. destruct (sweep_sleep w) as [u|e].
  - pose proof (sweep_tasks_log_grows (sweep_task w) (job_tasks a) []
                  (log a)) as G.
    destruct (sweep_tasks (sweep_task w) (job_tasks a) [] (log a))
      as [lg [active|e]] eqn:E; simpl in G.
    + apply sweep_tasks_result in E. destruct E as [Ea _].
      destruct (sweep_clock w) as [now|e]; cbn;
        (split; [reflexivity|]); (split; [reflexivity|]);
        (split; [exists (is_pending (sweep_task w)); exact Ea | exact G]).
    + cbn. repeat split; [apply Same | exact G].
  - cbn. repeat split; [apply Same|]. exists []. symmetry. apply app_nil_r.
Qed.

(** X11. The cleanup loop, however many sweeps it runs and however it
    ends, sends nothing and reports no status; it only drops entries from
    the list of jobs and from the list of units (what is left keeps its
    order) and only adds to the log. *)
Theorem cleanup_loop_only_prunes (ws : list SweepWorld) (a : App) :
  client_calls (fst (_cleanup_loop ws a)) = client_calls a /\
  statuses (fst (_cleanup_loop ws a)) = statuses a /\
  (exists keep, jobs (fst (_cleanup_loop ws a)) = filter keep (jobs a)) /\
  (exists keep,
     job_tasks (fst (_cleanup_loop ws a)) = filter keep (job_tasks a)) /\
  (exists more, log (fst (_cleanup_loop ws a)) = log a ++ more).
Proof.
  split; [|split; [|split; [apply cleanup_loop_jobs_filtered|]]];
    revert a; induction ws as [|w ws IH]; intros a;
    try (cbn [_cleanup_loop]; destruct (sweep_frame w a) as [Fc [Fs [Ft Fl]]];
         destruct (sweep w a) as [a' [u|e]]; cbn [fst] in *).
  - reflexivity.
  - rewrite IH. exact Fc.
  - destruct e; exact Fc.
  - reflexivity.
  - rewrite IH. exact Fs.
  - destruct e; exact Fs.
  - split.
    + exists (fun _ => true). cbn. induction (job_tasks a); simpl; congruence.
    + exists []. symmetry. apply app_nil_r.
  - destruct (IH a') as [[k Hk] [m Hm]]. destruct Ft as [k0 Hk0].
    destruct Fl as [m0 Hm0]. split.
    + rewrite Hk, Hk0, filter_filter. eexists. reflexivity.
    + rewrite Hm, Hm0, <- app_assoc. eexists. reflexivity.
  - destruct Fl as [m0 Hm0].
    destruct e; cbn; (split; [exact Ft|]); rewrite Hm0;
      try (rewrite <- app_assoc); eexists; reflexivity.
Qed.

(** ** The label and the route *)

Lemma string_length_app (a b : string) :
  String.length (a ++ b) = (String.length a + String.length b)%nat.
Proof. induction a as [|c a IH]; simpl; [reflexivity | rewrite IH; lia]. Qed.

(** X12. The label of a target tells how a message to it is routed: the
    label is the bare title of the conversation exactly when the send carries
    no reply target; otherwise it is the title, " / " and the name of the
    topic (the stand-in name when the topic has none), and the send replies
    to the topic id. *)
Theorem label_tells_the_route (client : SendCall -> result unit)
  (tgt : SendTarget) (txt : string) :
  exists c,
    fst (send_text_to_target client tgt txt) = [c] /\
    (reply_to c = None <-> label tgt = dialog_title (dialog tgt)) /\
    (forall i, reply_to c = Some i ->
       topic_id tgt = Some i /\
       exists name, name <> EmptyString /\
         label tgt = (dialog_title (dialog tgt) ++ " / " ++ name)%string).
Proof.
  unfold send_text_to_target, label.
  destruct (truthy_int (topic_id tgt) && differs_from_1 (topic_id tgt)) eqn:G.
  - eexists. split; [reflexivity|]. cbn [reply_to].
    assert (T : exists i, topic_id tgt = Some i).
    { destruct (topic_id tgt) as [i|]; [eauto | discriminate G]. }
    destruct T as [i Hi].
    set (name := match topic_title tgt with
                 | Some s => if is_empty s then default_topic_title else s
                 | None => default_topic_title
                 end).
    assert (Hname : name <> EmptyString).
    { subst name. destruct (topic_title tgt) as [[|c s]|]; discriminate. }
    split; [split|].
    + rewrite Hi. discriminate.
    + intros E. exfalso.
      apply (f_equal String.length) in E.
      rewrite !string_length_app in E. simpl in E. lia.
    + intros j Hj. split; [exact Hj|]. exists name. split; [exact Hname|].
      reflexivity.
  - eexists. split; [reflexivity|]. cbn [reply_to].
    split; [split; reflexivity|]. discriminate.
Qed.

(** ** A failed fetch *)

Lemma forallb_app_single {A : Type} (p : A -> bool) (l : list A) (x : A) :
  forallb p l = true -> p x = true -> forallb p (l ++ [x]) = true.
Proof.
  intros Hl Hx. rewrite forallb_app, Hl. simpl. rewrite Hx. reflexivity.
Qed.

Lemma fetch_loop_trace (Server : Type)
  (call : Server -> Request -> Server * result Response)
  (peer : Entity) (limit : Z) (fuel : nat) :
  forall srv c acc done,
  forallb answered done = true ->
  match outcome (fetch_loop Server call peer limit fuel srv c acc done) with
  | Raises e =>
      exists pre rq,
        exchanges (fetch_loop Server call peer limit fuel srv c acc done)
        = pre ++ [(rq, Raise e)] /\
        forallb answered pre = true
  | _ =>
      forallb answered
        (exchanges (fetch_loop Server call peer limit fuel srv c acc done))
      = true
  end.
Proof.
  induction fuel as [|fuel IH]; intros srv c acc done Hd.
  - exact Hd.
  - cbn [fetch_loop].
    destruct (call srv (request_of peer limit c)) as [srv' [res|e]].
    + destruct (process_page limit res acc) as [all'|c' all'].
      * apply forallb_app_single; [exact Hd | reflexivity].
      * apply IH. apply forallb_app_single; [exact Hd | reflexivity].
    + cbn. exists done. eexists. split; [reflexivity | exact Hd].
Qed.

(** X13. A request that the server answers with an error ends
    [get_all_forum_topics] at once with that error: the failed request is
    the last one made and every request before it was answered; no list of
    topics comes back. A call that returns has met no error. *)
Theorem fetch_failure_propagates (Server : Type)
  (call : Server -> Request -> Server * result Response)
  (peer : Entity) (limit : Z) (fuel : nat) (srv : Server) :
  match outcome (get_all_forum_topics Server call peer limit fuel srv) with
  | Raises e =>
      exists pre rq,
        exchanges (get_all_forum_topics Server call peer limit fuel srv)
        = pre ++ [(rq, Raise e)] /\
        forallb answered pre = true
  | _ =>
      forallb answered
        (exchanges (get_all_forum_topics Server call peer limit fuel srv))
      = true
  end.
Proof.
  unfold get_all_forum_topics. apply fetch_loop_trace. reflexivity.
Qed.

(** ** The returned list, for any server *)

Lemma returned_topics_order (Server : Type)
  (call : Server -> Request -> Server * result Response)
  (peer : Entity) (limit : Z) (fuel : nat) (srv srv' : Server)
  (xs : list Exchange) (topics : list TopicInfo) :
  get_all_forum_topics Server call peer limit fuel srv
    = (srv', xs, Returns topics) ->
  Permutation topics (map topic_info_of (filter has_title (fetched xs))) /\
  StronglySorted topics_le topics.
Proof.
  intros H. unfold get_all_forum_topics in H.
  apply fetch_loop_returns in H; [|reflexivity]. subst topics.
  destruct (sort_topics_spec (collect (fetched xs))) as [Hs Hp].
  split; [rewrite <- collect_spec; exact Hp | exact Hs].
Qed.

(** ** Every topic of the forum, once *)

Section ForumFetched.

Variable forum : list RawTopic.
Variable messages : list RawMessage.
Variable peer : Entity.
Variable limit : Z.

Hypothesis forum_well_formed : forum_ok forum.
Hypothesis limit_positive : 0 < limit.

Lemma forum_loop_fetched (fuel : nat) :
  forall pre rest c acc done,
  forum = pre ++ rest ->
  (if offset_topic c =? 0 then forum
   else after_topic (offset_topic c) forum) = rest ->
  (List.length rest / Z.to_nat limit < fuel)%nat ->
  fetched
    (exchanges (fetch_loop unit (forum_server forum messages) peer limit fuel
                  tt c acc done))
  = fetched done ++ rest.
Proof.
  induction fuel as [|fuel IH]; intros pre rest c acc done Hsplit Hserved Hfuel;
    [lia|].
  set (L := Z.to_nat limit) in *.
  set (res := forum_page forum messages (request_of peer limit c)).
  assert (Htopics : res_topics res = firstn L rest).
  { subst res. unfold forum_page.
    cbn [res_topics req_offset_topic req_limit request_of].
    rewrite Hserved. reflexivity. }
  assert (Hstep :
    fetch_loop unit (forum_server forum messages) peer limit (S fuel) tt
      c acc done =
    match process_page limit res acc with
    | Break all' =>
        (tt, done ++ [(request_of peer limit c, Ok res)],
         Returns (sort_topics all'))
    | Continue c' all' =>
        fetch_loop unit (forum_server forum messages) peer limit fuel tt
          c' all' (done ++ [(request_of peer limit c, Ok res)])
    end) by reflexivity.
  rewrite Hstep. clearbody res. clear Hstep.
  assert (HL : (0 < L)%nat) by (subst L; lia).
  assert (Hdone : fetched (done ++ [(request_of peer limit c, Ok res)]) =
                  fetched done ++ firstn L rest).
  { rewrite fetched_app. simpl. rewrite app_nil_r, Htopics. reflexivity. }
  destruct (Nat.lt_ge_cases (List.length rest) L) as [Hshort|Hfull].
  - assert (Hb : exists all', process_page limit res acc = Break all').
    { unfold process_page. rewrite Htopics.
      rewrite firstn_all2 by lia.
      destruct rest as [|t l] eqn:E; [eexists; reflexivity|].
      replace (Z.of_nat (List.length (t :: l)) <? limit) with true
        by (symmetry; apply Z.ltb_lt; subst L; lia).
      eexists. reflexivity. }
    destruct Hb as [all' Hb]. rewrite Hb. unfold exchanges. cbn [fst snd].
    rewrite Hdone, firstn_all2 by lia. reflexivity.
  - assert (Hlen : List.length (firstn L rest) = L)
      by (rewrite length_firstn; lia).
    assert (Hne : firstn L rest <> []).
    { intros E. rewrite E in Hlen. simpl in Hlen. lia. }
    destruct (last_topic_is_last _ Hne) as [before Hbefore].
    set (last := last_topic (firstn L rest)) in *.
    assert (Hforum : forum = (pre ++ before) ++ last :: skipn L rest).
    { rewrite Hsplit. rewrite <- (firstn_skipn L rest) at 1.
      rewrite Hbefore, <- !app_assoc. reflexivity. }
    destruct (proj1 forum_well_formed last) as [id [Hid Hid0]].
    { rewrite Hforum. apply in_or_app. right. left. reflexivity. }
    assert (Hc : process_page limit res acc =
              Continue (mkCursor
                          (last_msg_date (res_messages res)
                             (int_or_0 (rt_top_message last)))
                          (int_or_0 (rt_top_message last)) id)
                (acc ++ collect (firstn L rest))).
    { unfold process_page. rewrite Htopics.
      destruct (firstn L rest) as [|t l] eqn:E; [congruence|].
      replace (Z.of_nat (List.length (t :: l)) <? limit) with false
        by (symmetry; apply Z.ltb_ge; rewrite Hlen; subst L; lia).
      fold last. rewrite Hid. reflexivity. }
    rewrite Hc.
    destruct (div_mod_step (List.length rest) L (conj HL Hfull))
      as [Hdiv [_ Hone]].
    rewrite (IH (pre ++ firstn L rest) (skipn L rest)).
    + rewrite Hdone, <- app_assoc, firstn_skipn. reflexivity.
    + rewrite <- app_assoc, firstn_skipn. exact Hsplit.
    + cbn [offset_topic]. apply Z.eqb_neq in Hid0. rewrite Hid0.
      rewrite Hforum. apply after_topic_split; [|exact Hid].
      rewrite <- Hforum. exact forum_well_formed.
    + rewrite length_skipn. fold L. lia.
Qed.

End ForumFetched.

(** X14. Against a forum served page by page (topics with distinct ids,
    none 0; a positive page size), [get_all_forum_topics] fetches every topic
    of the forum exactly once, in the order of the forum, and returns the
    entries of all its topics that have a title, sorted. *)
Theorem every_topic_fetched_once (forum : list RawTopic)
  (messages : list RawMessage) (peer : Entity) (limit : Z) (fuel : nat) :
  forum_ok forum -> 0 < limit ->
  Z.of_nat (List.length forum) / limit < Z.of_nat fuel ->
  let r := get_all_forum_topics unit (forum_server forum messages) peer limit
             fuel tt in
  fetched (exchanges r) = forum /\
  exists topics,
    outcome r = Returns topics /\
    Permutation topics (map topic_info_of (filter has_title forum)) /\
    StronglySorted topics_le topics.
Proof.
  intros Hok Hpos Hfuel r.
  assert (HN : Z.of_nat (List.length forum) / limit =
               Z.of_nat (List.length forum / Z.to_nat limit)).
  { rewrite Nat2Z.inj_div, Z2Nat.id by lia. reflexivity. }
  assert (F : fetched (exchanges r) = forum).
  { subst r. unfold get_all_forum_topics.
    rewrite (forum_loop_fetched forum messages peer limit Hok Hpos fuel []
               forum); [reflexivity | reflexivity | reflexivity | lia]. }
  split; [exact F|].
  destruct (forum_loop forum messages peer limit Hok Hpos fuel [] forum
              initial_cursor [] []) as [[topics Hret] _];
    [reflexivity | reflexivity | lia |].
  fold (get_all_forum_topics unit (forum_server forum messages) peer limit
          fuel tt) in Hret. fold r in Hret.
  exists topics. split; [exact Hret|].
  destruct r as [[srv xs] o] eqn:Er. unfold outcome in Hret.
  unfold exchanges in F. cbn [fst snd] in Hret, F. subst o.
  destruct (returned_topics_order unit (forum_server forum messages) peer
              limit fuel tt srv xs topics Er) as [Hp Hs].
  rewrite F in Hp. split; assumption.
Qed.

Lemma every_topic_fetched_once_witness :
  let r := get_all_forum_topics unit (forum_server demo_forum demo_messages)
             7 3 5 tt in
  fetched (exchanges r) = demo_forum /\
  exists topics,
    outcome r = Returns topics /\
    Permutation topics (map topic_info_of (filter has_title demo_forum)) /\
    StronglySorted topics_le topics.
Proof.
  apply (every_topic_fetched_once demo_forum demo_messages 7 3 5
           demo_forum_ok); [lia | reflexivity].
Defined.

(** ** Ties keep the order in which the topics came *)

Lemma string_ltb_leb_trans (a b c : string) :
  String.ltb a b = true -> String.leb b c = true -> String.ltb a c = true.
Proof.
  unfold String.ltb, String.leb.
  destruct (String.compare a b) eqn:Eab; try discriminate.
  destruct (String.compare b c) eqn:Ebc; try discriminate; intros _ _.
  - apply String.compare_eq_iff in Ebc. rewrite <- Ebc, Eab. reflexivity.
  - rewrite (string_compare_lt_trans a b c Eab Ebc). reflexivity.
Qed.

Lemma key_lt_le_trans (x y z : TopicInfo) :
  key_ltb (sort_key x) (sort_key y) = true -> topics_le y z ->
  key_ltb (sort_key x) (sort_key z) = true.
Proof.
  unfold key_ltb, sort_key, topics_le. cbn [fst snd].
  intros H [[H1 H2]|[H1 H2]].
  - rewrite H1 in H. rewrite H2.
    destruct (pinned x); cbn [negb] in *; first [discriminate | reflexivity].
  - rewrite <- H1.
    destruct (pinned x), (pinned y); cbn [negb] in *; try discriminate;
      try reflexivity; eapply string_ltb_leb_trans; eassumption.
Qed.

Lemma key_lt_not_same (x z : TopicInfo) :
  key_ltb (sort_key x) (sort_key z) = true -> same_key x z = false.
Proof.
  unfold key_ltb, sort_key, same_key. cbn [fst snd].
  destruct (pinned x), (pinned z); cbn [negb Bool.eqb andb];
    try discriminate; try reflexivity;
    unfold String.ltb; intros H;
    destruct (String.eqb_spec (lower (title x)) (lower (title z))) as [E|];
    try reflexivity; rewrite E, string_compare_refl in H; discriminate.
Qed.

Lemma same_key_rewrite (k x z : TopicInfo) :
  same_key k x = true -> same_key k z = same_key x z.
Proof.
  unfold same_key. intros H. apply andb_true_iff in H. destruct H as [Hp Ht].
  apply Bool.eqb_prop in Hp. apply String.eqb_eq in Ht.
  rewrite Hp, Ht. reflexivity.
Qed.

Lemma insert_sorted_filter (k x : TopicInfo) (l : list TopicInfo) :
  StronglySorted topics_le l ->
  filter (same_key k) (insert_sorted x l) =
  filter (same_key k) l ++ (if same_key k x then [x] else []).
Proof.
  induction 1 as [|y l Hs IH Hall]; cbn [insert_sorted filter].
  - destruct (same_key k x); reflexivity.
  - destruct (key_ltb (sort_key x) (sort_key y)) eqn:E.
    + cbn [filter]. destruct (same_key k x) eqn:Kx.
      * assert (N : forall z, In z (y :: l) -> same_key k z = false).
        { intros z Hz. rewrite (same_key_rewrite k x z Kx).
          apply key_lt_not_same. destruct Hz as [<-|Hz]; [exact E|].
          rewrite Forall_forall in Hall.
          eapply key_lt_le_trans; [exact E | apply Hall, Hz]. }
        assert (F : filter (same_key k) (y :: l) = []).
        { clear -N. induction (y :: l) as [|z l' IHl]; [reflexivity|].
          simpl. rewrite (N z (or_introl eq_refl)). apply IHl.
          intros z' Hz'. apply N. right. exact Hz'. }
        cbn [filter] in F. rewrite F. reflexivity.
      * rewrite app_nil_r. reflexivity.
    + cbn [filter]. rewrite IH.
      destruct (same_key k y); reflexivity.
Qed.

Lemma sort_from_filter (k : TopicInfo) (l acc : list TopicInfo) :
  StronglySorted topics_le acc ->
  filter (same_key k) (fold_left (fun a x => insert_sorted x a) l acc) =
  filter (same_key k) acc ++ filter (same_key k) l.
Proof.
  revert acc. induction l as [|x l IH]; intros acc Hs; cbn [fold_left filter].
  - symmetry. apply app_nil_r.
  - rewrite (IH _ (insert_sorted_sorted x acc Hs)).
    rewrite (insert_sorted_filter k x acc Hs), <- app_assoc.
    destruct (same_key k x); reflexivity.
Qed.

(** X15. The sort of the returned list is stable: the topics that share
    a sort key (same pinned flag, same lower-cased title) stand in the
    returned list in the order in which they were collected. *)
Theorem sort_topics_stable (k : TopicInfo) (l : list TopicInfo) :
  filter (same_key k) (sort_topics l) = filter (same_key k) l.
Proof.
  unfold sort_topics. apply (sort_from_filter k l [] (SSorted_nil _)).
Qed.

(** ** The conversations that are loaded *)

(** X16. [load_dialogs] makes one entry per listed conversation. Every
    entry has a title that is not empty and one of the five kinds; only a
    channel that is a megagroup with its forum flag set is entered as a
    forum, and then as a group; only an entity that is neither a user, a
    chat nor a channel is entered as unknown. *)
Theorem load_dialogs_classifies (listing : list Dialog) :
  List.length (load_dialogs listing) = List.length listing /\
  (forall d, In d (load_dialogs listing) ->
     dialog_title d <> EmptyString /\
     In (dialog_kind d)
        ["private"; "bot"; "group"; "channel"; "unknown"]%string /\
     (dialog_is_forum d = true -> dialog_kind d = "group"%string)) /\
  (forall dl,
     (dialog_is_forum (dialog_info dl) = true <->
      exists id, dlg_entity dl = ChannelEntity id (Some true) (Some true)) /\
     (dialog_kind (dialog_info dl) = "unknown"%string <->
      dlg_entity dl = OtherEntity)).
Proof.
  split; [apply length_map|]. split.
  - intros d Hd. unfold load_dialogs in Hd. apply in_map_iff in Hd.
    destruct Hd as [dl [<- _]]. unfold dialog_info.
    assert (T : match dlg_name dl with
                | Some s => if is_empty s then untitled else s
                | None => untitled
                end <> EmptyString).
    { destruct (dlg_name dl) as [[|c s]|]; discriminate. }
    destruct (dlg_entity dl) as [id bot|id|id mg forum|];
      [destruct (bool_or_false bot)| |destruct (bool_or_false mg)|];
      cbn; (split; [exact T|]); (split; [tauto|]);
      try discriminate; reflexivity.
  - intros dl. unfold dialog_info.
    destruct (dlg_entity dl) as [id bot|id|id [[|]|] [[|]|]|];
      try destruct (bool_or_false bot); cbn;
      (split; split); try discriminate; try reflexivity;
      try (intros [i Hi]; discriminate Hi); eauto.
Qed.

(** ** The tree that is built *)

Section SortedBy.

Variable A : Type.
Variable key : A -> string.

Lemma insert_by_perm (x : A) (l : list A) :
  Permutation (insert_by key x l) (x :: l).
Proof.
  induction l as [|y l IH]; simpl; [reflexivity|].
  destruct (String.ltb (key x) (key y)); [reflexivity|].
  rewrite IH. apply perm_swap.
Qed.

Lemma insert_by_sorted (x : A) (l : list A) :
  StronglySorted (fun a b => String.leb (key a) (key b) = true) l ->
  StronglySorted (fun a b => String.leb (key a) (key b) = true)
    (insert_by key x l).
Proof.
  induction 1 as [|y l Hs IH Hall]; simpl.
  - constructor; constructor.
  - destruct (String.ltb (key x) (key y)) eqn:E.
    + assert (Hxy : String.leb (key x) (key y) = true).
      { unfold String.ltb in E. unfold String.leb.
        destruct (String.compare (key x) (key y)); congruence. }
      constructor; [constructor; assumption|].
      constructor; [exact Hxy|].
      eapply Forall_impl; [|exact Hall].
      intros z Hz. eapply string_leb_trans; eassumption.
    + apply string_ltb_false_leb in E.
      constructor; [exact IH|].
      eapply Permutation_Forall; [symmetry; apply insert_by_perm|].
      constructor; assumption.
Qed.

Lemma sorted_by_from (l acc : list A) :
  StronglySorted (fun a b => String.leb (key a) (key b) = true) acc ->
  StronglySorted (fun a b => String.leb (key a) (key b) = true)
    (fold_left (fun a x => insert_by key x a) l acc) /\
  Permutation (fold_left (fun a x => insert_by key x a) l acc) (acc ++ l).
Proof.
  revert acc. induction l as [|x l IH]; intros acc Hs; simpl.
  - rewrite app_nil_r. split; [exact Hs | reflexivity].
  - destruct (IH (insert_by key x acc) (insert_by_sorted x acc Hs))
      as [H1 H2].
    split; [exact H1|]. rewrite H2, insert_by_perm.
    simpl. apply Permutation_middle.
Qed.

Lemma sorted_by_spec (l : list A) :
  StronglySorted (fun a b => String.leb (key a) (key b) = true)
    (sorted_by key l) /\
  Permutation (sorted_by key l) l.
Proof.
  destruct (sorted_by_from l [] (SSorted_nil _)) as [H1 H2].
  split; assumption.
Qed.

End SortedBy.

Lemma take_while_incl {A : Type} (p : A -> bool) (l : list A) (x : A) :
  In x (take_while p l) -> In x l /\ p x = true.
Proof.
  induction l as [|y l IH]; simpl; [tauto|].
  destruct (p y) eqn:E; [|intros []].
  intros [<-|H]; [auto | split; [right|]; apply IH, H].
Qed.

Lemma take_while_all {A : Type} (p : A -> bool) (l : list A) :
  forallb p l = true -> take_while p l = l.
Proof.
  induction l as [|y l IH]; simpl; [reflexivity|].
  destruct (p y); [|discriminate]. intros H. rewrite IH by exact H.
  reflexivity.
Qed.

Lemma take_while_sorted {A : Type} (R : A -> A -> Prop) (p : A -> bool)
  (l : list A) :
  StronglySorted R l -> StronglySorted R (take_while p l).
Proof.
  induction 1 as [|x l Hs IH Hall]; simpl; [constructor|].
  destruct (p x); [|constructor]. constructor; [exact IH|].
  rewrite Forall_forall in *. intros y Hy. apply take_while_incl in Hy.
  apply Hall, Hy.
Qed.

Lemma filter_sorted {A : Type} (R : A -> A -> Prop) (p : A -> bool)
  (l : list A) :
  StronglySorted R l -> StronglySorted R (filter p l).
Proof.
  induction 1 as [|x l Hs IH Hall]; simpl; [constructor|].
  destruct (p x); [|exact IH]. constructor; [exact IH|].
  rewrite Forall_forall in *. intros y Hy. apply filter_In in Hy.
  apply Hall, Hy.
Qed.

Lemma buckets_partition (l : list DialogInfo) :
  Permutation
    (filter (fun d => bucket_eqb (bucket_of d) InPrivate) l ++
     filter (fun d => bucket_eqb (bucket_of d) InGroups) l ++
     filter (fun d => bucket_eqb (bucket_of d) InChannels) l ++
     filter (fun d => bucket_eqb (bucket_of d) InRoot) l) l.
Proof.
  induction l as [|d l IH]; [reflexivity|].
  cbn [filter]. destruct (bucket_of d); cbn [bucket_eqb app].
  - constructor. exact IH.
  - rewrite <- Permutation_middle. constructor. exact IH.
  - rewrite app_assoc, <- Permutation_middle, <- app_assoc.
    constructor. exact IH.
  - rewrite !app_assoc, <- Permutation_middle, <- !app_assoc.
    constructor. exact IH.
Qed.

(** One turn of the loop: the node asked for is [dialog_leaf d], under the
    node [bucket_of d]; a label that is not accepted ends the turn with
    [MarkupError]. *)
Lemma add_dialog_bucket (label_ok : string -> bool) (t : Tree)
  (d : DialogInfo) :
  if label_ok (tree_label d)
  then exists t', add_dialog label_ok t d = Ok t' /\
         forall b, bucket b t' =
                   bucket b t ++
                   (if bucket_eqb (bucket_of d) b then [dialog_leaf d]
                    else [])
  else add_dialog label_ok t d = Raise MarkupError.
Proof.
  unfold add_dialog, dialog_leaf, tree_label, bucket_of, new_node.
  destruct (String.eqb (dialog_kind d) "group");
    [destruct (dialog_is_forum d)|
     destruct (String.eqb (dialog_kind d) "private");
       [|destruct (String.eqb (dialog_kind d) "channel");
          [|destruct (String.eqb (dialog_kind d) "bot")]]];
    cbn [andb];
    match goal with
    | |- context [label_ok ?l] => destruct (label_ok l)
    end; cbn;
    try reflexivity;
    (eexists; split; [reflexivity|]; intros b; destruct b; cbn;
     rewrite ?app_nil_r; reflexivity).
Qed.

Lemma add_dialogs_spec (label_ok : string -> bool) (l : list DialogInfo) :
  forall t,
  (forall b,
     bucket b (fst (add_dialogs label_ok l t)) =
     bucket b t ++
     map dialog_leaf
       (filter (fun d => bucket_eqb (bucket_of d) b)
          (take_while (fun d => label_ok (tree_label d)) l))) /\
  snd (add_dialogs label_ok l t) =
  if forallb (fun d => label_ok (tree_label d)) l
  then Ok tt else Raise MarkupError.
Proof.
  induction l as [|d l IH]; intros t.
  - simpl. split; [intros b; rewrite app_nil_r|]; reflexivity.
  - pose proof (add_dialog_bucket label_ok t d) as H.
    cbn [add_dialogs take_while forallb].
    destruct (label_ok (tree_label d)) eqn:E.
    + destruct H as [t' [Ht' Hb]]. rewrite Ht'.
      destruct (IH t') as [IH1 IH2]. split; [|exact IH2].
      intros b. rewrite IH1, Hb. cbn [filter].
      destruct (bucket_eqb (bucket_of d) b); cbn [map];
        rewrite <- app_assoc; reflexivity.
    + rewrite H. simpl. split; [intros b; rewrite app_nil_r|]; reflexivity.
Qed.

(** X17. [build_tree] asks for one node per conversation, in the order of
    the lower-cased titles: under the private node, the groups node, the
    channels node (channels and bots) or, for any other kind, under the
    root, with the label made for its kind, and expandable exactly for a
    forum group. The tree reads each label as markup: the loop stops at the
    first label it does not accept, with [MarkupError], and the nodes added
    so far stay. So every node of the tree stands for a conversation of the
    list, under the node of its kind and with an accepted label; under each
    of the four nodes the conversations stand in ascending order of their
    lower-cased titles (the stand-in title left out); when the tree accepts
    every label the call returns and every conversation stands in the tree
    exactly once; when it rejects one, the call ends with [MarkupError]. *)
Theorem build_tree_places_every_dialog (label_ok : string -> bool)
  (dialogs : list DialogInfo) :
  let t := fst (build_tree label_ok dialogs) in
  let ends := snd (build_tree label_ok dialogs) in
  (forall b x, In x (bucket b t) ->
     In (leaf_data x) dialogs /\
     bucket_of (leaf_data x) = b /\
     leaf_label x = tree_label (leaf_data x) /\
     label_ok (leaf_label x) = true /\
     leaf_expandable x = is_forum_group (leaf_data x)) /\
  ((forall d, In d dialogs -> dialog_title d <> untitled) ->
   forall b, StronglySorted title_le (map leaf_data (bucket b t))) /\
  ((forall d, In d dialogs -> label_ok (tree_label d) = true) ->
   ends = Ok tt /\
   Permutation
     (map leaf_data
        (node_private t ++ node_groups t ++ node_channels t ++
         root_leaves t))
     dialogs) /\
  ((exists d, In d dialogs /\ label_ok (tree_label d) = false) ->
   ends = Raise MarkupError).
Proof.
  intros t ends. subst t ends. unfold build_tree.
  destruct (sorted_by_spec DialogInfo title_key dialogs) as [Hs Hp].
  set (l := sorted_by title_key dialogs) in *.
  set (ok := fun d => label_ok (tree_label d)).
  destruct (add_dialogs_spec label_ok l (mkTree [] [] [] [])) as [B E].
  fold ok in B, E.
  assert (B' : forall b,
            bucket b (fst (add_dialogs label_ok l (mkTree [] [] [] []))) =
            map dialog_leaf
              (filter (fun d => bucket_eqb (bucket_of d) b)
                 (take_while ok l))).
  { intros b. rewrite B. destruct b; reflexivity. }
  assert (D : forall b,
            map leaf_data
              (bucket b (fst (add_dialogs label_ok l (mkTree [] [] [] []))))
            = filter (fun d => bucket_eqb (bucket_of d) b)
                (take_while ok l)).
  { intros b. rewrite B', map_map. apply map_id. }
  split; [|split; [|split]].
  - intros b x Hx. rewrite B' in Hx. apply in_map_iff in Hx.
    destruct Hx as [d [<- Hd]]. apply filter_In in Hd.
    destruct Hd as [Hd Hb]. apply take_while_incl in Hd.
    destruct Hd as [Hd Hok]. cbn.
    split; [eapply Permutation_in; eassumption|].
    split; [destruct (bucket_of d), b; try discriminate Hb; reflexivity|].
    split; [reflexivity|]. split; [exact Hok | reflexivity].
  - intros _ b. rewrite D. apply filter_sorted, take_while_sorted. exact Hs.
  - intros Hall.
    assert (F : forallb ok l = true).
    { apply forallb_forall. intros d Hd. apply Hall.
      eapply Permutation_in; eassumption. }
    rewrite E, F. split; [reflexivity|].
    pose proof (D InPrivate) as B1. pose proof (D InGroups) as B2.
    pose proof (D InChannels) as B3. pose proof (D InRoot) as B4.
    cbn [bucket] in B1, B2, B3, B4.
    rewrite !map_app, B1, B2, B3, B4, (take_while_all ok l F),
      buckets_partition.
    exact Hp.
  - intros [d [Hd Hno]]. rewrite E.
    destruct (forallb ok l) eqn:F; [|reflexivity].
    rewrite forallb_forall in F.
    assert (Hin : In d l)
      by (eapply Permutation_in; [symmetry|]; eassumption).
    apply F in Hin. unfold ok in Hin. congruence.
Qed.

(** Five conversations, one of each kind, before a tree that takes every
    label without a square bracket: the call returns and places them all;
    with a sixth one titled "[/b]x" it ends with [MarkupError]. *)
Lemma build_tree_places_every_dialog_witness :
  let label_ok := fun s => negb (contains "[" s) in
  let dialogs :=
    [mkDialog 1 "bob" "private" false 1;
     mkDialog 2 "Alice" "group" true 2;
     mkDialog 3 "news" "channel" false 3;
     mkDialog 4 "helper" "bot" false 4;
     mkDialog 5 "thing" "unknown" false 5] in
  let bad := mkDialog 6 "[/b]x" "private" false 6 in
  (snd (build_tree label_ok dialogs) = Ok tt /\
   Permutation
     (map leaf_data
        (node_private (fst (build_tree label_ok dialogs)) ++
         node_groups (fst (build_tree label_ok dialogs)) ++
         node_channels (fst (build_tree label_ok dialogs)) ++
         root_leaves (fst (build_tree label_ok dialogs))))
     dialogs) /\
  snd (build_tree label_ok (bad :: dialogs)) = Raise MarkupError.
Proof.
  intros label_ok dialogs bad. split.
  - apply (build_tree_places_every_dialog label_ok dialogs).
    intros d [<-|[<-|[<-|[<-|[<-|[]]]]]]; reflexivity.
  - apply (build_tree_places_every_dialog label_ok (bad :: dialogs)).
    exists bad. split; [left|]; reflexivity.
Defined.

(** ** Which conversations can be chosen as a target *)

(** X18. Highlighting the node of a loaded conversation makes it the
    current target, with no topic, whatever the status bar makes of its
    title, unless its entity is neither a user, a chat nor a channel: then
    the current target is cleared, and the timer action opens no dialog and
    asks to pick a target first. *)
Theorem only_known_entities_are_targets (bar : UiStatus -> bool) (ui : Ui)
  (dl : Dialog) :
  let d := dialog_info dl in
  let ui' := fst (on_tree_node_highlighted bar ui (DataDialog d)) in
  (dlg_entity dl <> OtherEntity ->
   current_target ui' = Some (mkTarget d None None) /\
   action_timer ui' = (ui', Some (mkTarget d None None))) /\
  (dlg_entity dl = OtherEntity ->
   current_target ui' = None /\
   snd (action_timer ui') = None /\
   ui_statuses (fst (action_timer ui')) = ui_statuses ui ++ [PickTargetFirst]).
Proof.
  cbv zeta. unfold on_tree_node_highlighted, dialog_info, set_ui_status.
  destruct (dlg_entity dl) as [id bot|id|id mg forum|];
    [destruct (bool_or_false bot)| |destruct (bool_or_false mg)|];
    cbn;
    try match goal with
    | |- context [bar ?s] => destruct (bar s)
    end;
    cbn; split; try congruence; intros _; repeat split.
Qed.

(** ** Expanding a forum *)

Section ExpandFacts.

Variable Server : Type.
Variable call : Server -> Request -> Server * result Response.

Variable label_ok : string -> bool.

Lemma take_while_nth {A : Type} (p : A -> bool) (l : list A) (k : nat)
  (x : A) :
  nth_error (take_while p l) k = Some x ->
  nth_error l k = Some x /\ p x = true.
Proof.
  revert k. induction l as [|y l IH]; intros k; simpl.
  - destruct k; discriminate.
  - destruct (p y) eqn:E; [|destruct k; discriminate].
    destruct k as [|k]; simpl.
    + intros H. injection H as <-. auto.
    + apply IH.
Qed.

(** The loop over the topics adds a child for every topic before the first
    label the tree does not accept. *)
Lemma add_topics_spec (d : DialogInfo) (topics : list TopicInfo) :
  forall kids,
  add_topics label_ok d topics kids =
  (kids ++ map (topic_child d)
             (take_while (fun t => label_ok (topic_label t)) topics),
   if forallb (fun t => label_ok (topic_label t)) topics
   then Ok tt else Raise MarkupError).
Proof.
  induction topics as [|t topics IH]; intros kids; simpl.
  - rewrite app_nil_r. reflexivity.
  - destruct (label_ok (topic_label t)); simpl.
    + rewrite IH, <- app_assoc. reflexivity.
    + rewrite app_nil_r. reflexivity.
Qed.

Lemma expand_marks_loaded (fuel : nat) (srv : Server) (ui : Ui)
  (d : DialogInfo) (children : list Child) :
  is_forum_group d = true ->
  existsb (Z.eqb (dialog_id d))
    (topics_loaded
       (snd (fst (fst (on_tree_node_expanded Server call label_ok fuel srv ui
                         (DataDialog d) children))))) = true.
Proof.
  unfold is_forum_group. intros H. apply andb_true_iff in H.
  destruct H as [Hk Hf]. unfold on_tree_node_expanded. rewrite Hk, Hf.
  cbn [negb orb].
  destruct (existsb (Z.eqb (dialog_id d)) (topics_loaded ui)) eqn:E;
    [exact E|].
  destruct (get_all_forum_topics Server call (raw_entity d) default_limit
              fuel srv) as [[srv' xs] [[|t topics]|e|]];
    try destruct (add_topics label_ok d (t :: topics) []) as [kids [u|e]];
    try destruct (is_Exception e); cbn; rewrite Z.eqb_refl; reflexivity.
Qed.

Lemma expand_loaded_is_idle (fuel : nat) (srv : Server) (ui : Ui)
  (d : DialogInfo) (children : list Child) :
  existsb (Z.eqb (dialog_id d)) (topics_loaded ui) = true ->
  on_tree_node_expanded Server call label_ok fuel srv ui (DataDialog d)
    children =
  (srv, [], ui, children, Expanded).
Proof.
  intros H. unfold on_tree_node_expanded. rewrite H.
  destruct (negb _ || negb _); reflexivity.
Qed.

Lemma get_all_first_exchange (peer : Entity) (limit : Z) (fuel : nat)
  (srv : Server) :
  exchanges (get_all_forum_topics Server call peer limit (S fuel) srv) <> [].
Proof.
  pose proof (fetch_loop_first Server call peer limit fuel srv
                initial_cursor [] []) as H.
  unfold get_all_forum_topics. intros E. rewrite E in H. discriminate H.
Qed.

(** X19. The topics of a forum group are fetched on its first expansion
    only. However that expansion ends, with a list, with an error shown, or
    by an exception, the forum counts as loaded afterwards: expanding it
    again makes no request and leaves the state and the children as they
    are, so a failed load is not tried again. After [action_reload], however
    it ends, an expansion does fetch again. *)
Theorem forum_is_fetched_once (fuel : nat) (srv : Server) (ui : Ui)
  (d : DialogInfo) (children : list Child) :
  is_forum_group d = true ->
  let ui1 := snd (fst (fst (on_tree_node_expanded Server call label_ok fuel
                              srv ui (DataDialog d) children))) in
  (forall fuel' srv' children',
     on_tree_node_expanded Server call label_ok fuel' srv' ui1 (DataDialog d)
       children'
     = (srv', [], ui1, children', Expanded)) /\
  (forall listing fuel' srv' children',
     let ui2 := fst (fst (fst (action_reload label_ok ui1 listing))) in
     snd (fst (fst (fst (on_tree_node_expanded Server call label_ok (S fuel')
                           srv' ui2 (DataDialog d) children')))) <> []).
Proof.
  intros Hd ui1. split.
  - intros fuel' srv' children'. apply expand_loaded_is_idle.
    apply expand_marks_loaded. exact Hd.
  - intros listing fuel' srv' children' ui2.
    assert (L : topics_loaded ui2 = []).
    { subst ui2. unfold action_reload.
      destruct (build_tree label_ok (load_dialogs listing)) as [tr [u|e]];
        reflexivity. }
    unfold is_forum_group in Hd. apply andb_true_iff in Hd.
    destruct Hd as [Hk Hf]. unfold on_tree_node_expanded.
    rewrite Hk, Hf, L. cbn [negb orb existsb].
    pose proof (get_all_first_exchange (raw_entity d) default_limit fuel'
                  srv') as N.
    destruct (get_all_forum_topics Server call (raw_entity d) default_limit
                (S fuel') srv') as [[srv2 xs] [[|t topics]|e|]];
      try destruct (add_topics label_ok d (t :: topics) []) as [kids [u|e]];
      try destruct (is_Exception e); exact N.
Qed.

(** X20. When the fetch of a forum that is not loaded yet returns topics,
    the node gets one child per returned topic, in the order of the list, up
    to the first topic whose label the tree does not accept, and nothing
    else: the child at a position shows the topic at that position, and
    highlighting it makes this topic of this forum the current target. When
    the tree accepts every label, there is one child per topic and the
    handler returns; otherwise it ends with [MarkupError]. An empty list
    gives the single no-topics child, an error of the fetch the single error
    child. *)
Theorem expanded_children_select_topics (fuel : nat) (srv srv' : Server)
  (ui : Ui) (d : DialogInfo) (children : list Child) (xs : list Exchange)
  (o : Outcome) :
  is_forum_group d = true ->
  existsb (Z.eqb (dialog_id d)) (topics_loaded ui) = false ->
  get_all_forum_topics Server call (raw_entity d) default_limit fuel srv
    = (srv', xs, o) ->
  let r := on_tree_node_expanded Server call label_ok fuel srv ui
             (DataDialog d) children in
  let kids := snd (fst r) in
  let accepted := forallb (fun t => label_ok (topic_label t)) in
  match o with
  | Returns [] => kids = [mkChild no_topics_label DataNone] /\ snd r = Expanded
  | Returns topics =>
      kids = map (topic_child d)
               (take_while (fun t => label_ok (topic_label t)) topics) /\
      (accepted topics = true ->
       snd r = Expanded /\ List.length kids = List.length topics) /\
      (accepted topics = false -> snd r = ExpandRaised MarkupError) /\
      forall k c bar ui0, nth_error kids k = Some c ->
        exists t,
          nth_error topics k = Some t /\
          child_label c = topic_label t /\
          label_ok (child_label c) = true /\
          current_target
            (fst (on_tree_node_highlighted bar ui0 (child_data c)))
          = Some (mkTarget d (Some (topic_id_of t)) (Some (title t)))
  | Raises e =>
      is_Exception e = true ->
      kids = [mkChild load_error_label DataNone] /\ snd r = Expanded
  | OutOfFuel => snd r = ExpandCutShort
  end.
Proof.
  intros Hd Hl Hg r kids accepted. subst kids r accepted.
  unfold is_forum_group in Hd. apply andb_true_iff in Hd.
  destruct Hd as [Hk Hf]. unfold on_tree_node_expanded.
  rewrite Hk, Hf, Hl, Hg. cbn [negb orb].
  destruct o as [[|t topics]|e|].
  - split; reflexivity.
  - rewrite add_topics_spec. cbn [app].
    set (l := t :: topics).
    assert (K : forall k c bar ui0,
              nth_error
                (map (topic_child d)
                   (take_while (fun t0 => label_ok (topic_label t0)) l)) k
              = Some c ->
              exists t0,
                nth_error l k = Some t0 /\
                child_label c = topic_label t0 /\
                label_ok (child_label c) = true /\
                current_target
                  (fst (on_tree_node_highlighted bar ui0 (child_data c)))
                = Some (mkTarget d (Some (topic_id_of t0))
                          (Some (title t0)))).
    { intros k c bar ui0 Hc. rewrite nth_error_map in Hc.
      destruct (nth_error (take_while _ l) k) as [t0|] eqn:E;
        [|discriminate Hc].
      injection Hc as <-. apply take_while_nth in E. destruct E as [E Hok].
      exists t0. split; [exact E|]. split; [reflexivity|].
      split; [exact Hok|].
      cbn. unfold set_ui_status. cbn [ui_status_accepted].
      destruct (bar _); reflexivity. }
    destruct (forallb (fun t0 => label_ok (topic_label t0)) l) eqn:F;
      cbn [fst snd].
    + split; [reflexivity|]. split; [|split; [discriminate | exact K]].
      intros _. split; [reflexivity|].
      rewrite (take_while_all _ l F). apply length_map.
    + split; [reflexivity|]. split; [discriminate|].
      split; [reflexivity | exact K].
  - intros He. rewrite He. split; reflexivity.
  - reflexivity.
Qed.

End ExpandFacts.

Lemma forum_is_fetched_once_witness :
  let server := forum_server demo_forum demo_messages in
  let label_ok := fun _ : string => true in
  let ui1 := snd (fst (fst (on_tree_node_expanded unit server label_ok 5 tt
                              demo_ui (DataDialog demo_group) []))) in
  on_tree_node_expanded unit server label_ok 5 tt ui1 (DataDialog demo_group)
    [] =
  (tt, [], ui1, [], Expanded).
Proof.
  intros server label_ok ui1.
  exact (proj1 (forum_is_fetched_once unit server label_ok 5 tt demo_ui
                  demo_group [] eq_refl) 5%nat tt []).
Defined.

(** The three topics of the demo forum before a tree that takes every
    label without a square bracket: three children, and the handler
    returns. *)
Lemma expanded_children_select_topics_witness :
  let server := forum_server demo_forum demo_messages in
  let label_ok := fun s => negb (contains "[" s) in
  let r := on_tree_node_expanded unit server label_ok 5 tt demo_ui
             (DataDialog demo_group) [] in
  let kids := snd (fst r) in
  snd r = Expanded /\
  List.length kids = 3%nat /\
  forall k c bar ui0, nth_error kids k = Some c ->
    exists t,
      nth_error
        (sort_topics (collect demo_forum)) k = Some t /\
      child_label c = topic_label t /\
      label_ok (child_label c) = true /\
      current_target (fst (on_tree_node_highlighted bar ui0 (child_data c)))
      = Some (mkTarget demo_group (Some (topic_id_of t)) (Some (title t))).
Proof.
  intros server label_ok r kids.
  eassert (G : get_all_forum_topics unit server (raw_entity demo_group)
                 default_limit 5 tt = (tt, _, Returns _))
    by (vm_compute; reflexivity).
  pose proof (expanded_children_select_topics unit server label_ok 5 tt tt
                demo_ui demo_group [] _ _ eq_refl eq_refl G) as H.
  cbv zeta in H. destruct H as [_ [Hall [_ Hnth]]].
  destruct (Hall eq_refl) as [He Hlen].
  split; [exact He|]. split; [exact Hlen | exact Hnth].
Defined.

(** ** The settings file *)

Lemma read_lines_app (ls more acc : list string) :
  forallb not_blank ls = true ->
  read_lines (ls ++ more) acc = read_lines more (acc ++ ls).
Proof.
  revert acc. induction ls as [|l ls IH]; intros acc H.
  - simpl. rewrite app_nil_r. reflexivity.
  - cbn [forallb] in H. apply andb_true_iff in H. destruct H as [Hl Hls].
    unfold not_blank in Hl. apply negb_true_iff in Hl.
    cbn [app read_lines]. rewrite strip_empty_iff_blank, Hl.
    rewrite (IH _ Hls), <- app_assoc. reflexivity.
Qed.

(** X21. When the file is already there, [create_env_file] reads nothing
    and writes nothing. Otherwise it takes the lines entered before the first
    blank line: when there is at least one, it writes exactly these lines,
    each followed by a line feed, and does not read past the blank line;
    when the first line is blank, or the input ends before a blank line
    (even after lines were entered), it raises [RuntimeError] and writes
    nothing. *)
Theorem create_env_file_writes_entered_lines (first : string)
  (ls rest : list string) (blank : string) :
  forallb not_blank (first :: ls) = true -> all_space blank = true ->
  create_env_file false ((first :: ls) ++ blank :: rest) =
    Ok (Some (String.concat EmptyString
                (map (fun l => (l ++ newline)%string) (first :: ls)))) /\
  create_env_file false (first :: ls) = Raise RuntimeError /\
  create_env_file false (blank :: rest) = Raise RuntimeError /\
  (forall inputs, create_env_file true inputs = Ok None).
Proof.
  intros Hls Hb. unfold create_env_file.
  split; [|split; [|split; [|reflexivity]]].
  - rewrite (read_lines_app (first :: ls) (blank :: rest) [] Hls).
    cbn [read_lines Py.bind app]. rewrite strip_empty_iff_blank, Hb.
    reflexivity.
  - rewrite <- (app_nil_r (first :: ls)) at 1.
    rewrite (read_lines_app (first :: ls) [] [] Hls). reflexivity.
  - cbn [read_lines Py.bind]. rewrite strip_empty_iff_blank, Hb.
    reflexivity.
Qed.

Lemma create_env_file_writes_entered_lines_witness :
  create_env_file false ["API_ID=1"; "API_HASH=ab"; " "; "NTP_HOST=x"]%string
  = Ok (Some ("API_ID=1" ++ newline ++ "API_HASH=ab" ++ newline)%string).
Proof.
  exact (proj1 (create_env_file_writes_entered_lines "API_ID=1"
                  ["API_HASH=ab"%string] ["NTP_HOST=x"%string] " "
                  eq_refl eq_refl)).
Defined.

(** ** From the tree to the delivery *)

Lemma run_job_calls (w : JobWorld) (a : App) (job : ScheduledJob)
  (now : DT.datetime) :
  job_clock w = Ok now ->
  DT.to_us (when job) - DT.to_us now <= 0 \/
  job_sleep w (DT.to_us (when job) - DT.to_us now) = Ok tt ->
  client_calls (fst (_run_job w a job)) =
  client_calls a ++
  [mkSend (raw_entity (dialog (target job))) (text job)
     (if truthy_int (topic_id (target job)) &&
         differs_from_1 (topic_id (target job))
      then topic_id (target job) else None)].
Proof.
  intros Hc Hs. unfold _run_job. rewrite Hc.
  assert (S : (if 0 <? DT.to_us (when job) - DT.to_us now
               then job_sleep w (DT.to_us (when job) - DT.to_us now)
               else Ok tt) = Ok tt).
  { destruct (0 <? DT.to_us (when job) - DT.to_us now) eqn:E;
      [|reflexivity].
    destruct Hs as [Hs|Hs]; [apply Z.ltb_lt in E; lia | exact Hs]. }
  rewrite S. unfold send_text_to_target.
  destruct (truthy_int (topic_id (target job)) &&
            differs_from_1 (topic_id (target job)));
    match goal with
    | |- context [job_client w ?c] =>
        destruct (job_client w c) as [u|e]; [|destruct (is_Exception e)]
    end;
    first [reflexivity | exact (set_status_calls _ _ _)].
Qed.

(** X22. From the tree to the delivery. After a topic node is
    highlighted, the timer action opens the dialog for that topic of that
    forum; pressing OK with a message that is not blank and a time that
    parses adds one job for it, and the unit of this job, unless it is
    interrupted, sends the trimmed message to the forum: as a reply to the
    topic id, or as a plain message when the id is 0 or 1. This holds
    whatever the status bar makes of the titles. Pressing Cancel closes the
    dialog and schedules nothing. *)
Theorem chosen_topic_receives_message (ui_bar : UiStatus -> bool)
  (bar : Status -> bool) (ui : Ui) (d : DialogInfo)
  (t : TopicInfo) (today : DT.date) (now : DT.datetime) (a : App)
  (when_str txt : string) (w due : DT.datetime) (jw : JobWorld)
  (now' : DT.datetime) :
  is_empty (strip txt) = false ->
  parse_datetime today when_str = Ok (Some w) ->
  (if is_time_only when_str && DT.leb w now
   then DT.add_one_day w else Ok w) = Ok due ->
  job_clock jw = Ok now' ->
  DT.to_us due - DT.to_us now' <= 0 \/
  job_sleep jw (DT.to_us due - DT.to_us now') = Ok tt ->
  let ui1 := fst (on_tree_node_highlighted ui_bar ui (DataTopicNode d t)) in
  let tgt := mkTarget d (Some (topic_id_of t)) (Some (title t)) in
  let job := mkJob tgt (strip txt) due in
  let pressed := on_button_pressed bar today (Ok now) a tgt "ok_btn" when_str
                   txt in
  action_timer ui1 = (ui1, Some tgt) /\
  fst pressed = true /\
  jobs (fst (snd pressed)) = jobs a ++ [job] /\
  client_calls (fst (_run_job jw (fst (snd pressed)) job)) =
    client_calls a ++
    [mkSend (raw_entity d) (strip txt) (route_of (topic_id_of t))] /\
  on_button_pressed bar today (Ok now) a tgt "cancel_btn" when_str txt =
    (true, (a, Ok tt)).
Proof.
  intros Ht Hp Hr Hc Hs ui1 tgt job pressed.
  assert (P : pressed =
              (true, schedule_message_from_ui bar today (Ok now) a tgt
                       when_str txt)) by reflexivity.
  rewrite (schedule_unfold bar today now a tgt when_str txt w due Ht Hp Hr)
    in P.
  rewrite P. cbn [fst snd].
  split.
  { subst ui1. cbn. unfold set_ui_status. cbn [ui_status_accepted].
    destruct (ui_bar _); reflexivity. }
  split; [reflexivity|]. split; [exact (set_status_jobs _ _ _)|].
  split; [|reflexivity].
  rewrite (run_job_calls jw _ job now' Hc Hs), set_status_calls. cbn.
  unfold route_of. destruct (topic_id_of t =? 0), (topic_id_of t =? 1);
    reflexivity.
Qed.

Lemma chosen_topic_receives_message_witness :
  let t := mkTopic 14 "zeta" 0 true false in
  let tgt := mkTarget demo_group (Some 14) (Some "zeta"%string) in
  let a := mkApp [] [] [] [] [] 0 in
  let jw := mkJobWorld (Ok (DT.mkDT 2030 1 15 9 30 0 0)) (fun _ => Ok tt)
              (fun _ => Ok tt) (fun _ => true) in
  let pressed := on_button_pressed (fun _ => true) (DT.mkDate 2024 1 1)
                   (Ok (DT.mkDT 2024 1 1 10 0 0 0)) a tgt "ok_btn"
                   "2030-01-15 09:30" " see you " in
  client_calls
    (fst (_run_job jw (fst (snd pressed))
            (mkJob tgt "see you" (DT.mkDT 2030 1 15 9 30 0 0)))) =
  [mkSend 7 "see you" (Some 14)].
Proof.
  intros t tgt a jw pressed.
  assert (D : DT.to_us (DT.mkDT 2030 1 15 9 30 0 0) -
              DT.to_us (DT.mkDT 2030 1 15 9 30 0 0) <= 0) by lia.
  destruct (chosen_topic_receives_message (fun _ => true) (fun _ => true)
              demo_ui demo_group t
              (DT.mkDate 2024 1 1) (DT.mkDT 2024 1 1 10 0 0 0) a
              "2030-01-15 09:30" " see you " (DT.mkDT 2030 1 15 9 30 0 0)
              (DT.mkDT 2030 1 15 9 30 0 0) jw (DT.mkDT 2030 1 15 9 30 0 0)
              eq_refl eq_refl eq_refl eq_refl (or_introl D))
    as [_ [_ [_ [H _]]]].
  exact H.
Defined.
